(** * Wildfire wavefront simulator: [Antigravity/fire_model.py]

    A shallow embedding of the class [FireModel] (constructor, [ignite],
    [run_simulation]) together with the properties of the ignition-time
    field it computes.

    Conventions of the embedding.
    - Python floats are read as exact rationals ([Q]); the sentinel
      [np.inf] of the ignition-time field is the constructor [Infinity]
      of [time].  Rounding, NaN and overflow of binary64 are not modelled.
    - A two-dimensional numpy array is a list of rows; indexing outside
      the array raises [IndexError] as numpy does.
    - [heapq] is modelled by its contract: [heappop] removes the least
      tuple, tuples being compared lexicographically as Python does.
    - numpy's transcendental functions and numpy's process-global random
      generator are interfaces ([Libm], [Generator]); the state of the
      global generator is threaded explicitly through [run_simulation].
    - [np.random.randint] draws in [int64] and raises on a bound outside
      it ([np_random_randint_int64]); the runs are modelled for winds in
      which [int(wind_speed * 0.5)] fits, that is below about 1.8e19
      m/s. *)

From Stdlib Require Import ZArith QArith Qround Qminmax Lia Lqa.
From stdpp Require Import base option list sorting gmap.

Local Open Scope Z_scope.

(** ** Exceptions *)

Inductive exn := IndexError | ValueError.

Inductive result (A : Type) : Type :=
| Ok (a : A)
| Raise (e : exn).
Arguments Ok {A} a.
Arguments Raise {A} e.

#[global] Instance result_ret : MRet result := fun A a => Ok a.
#[global] Instance result_bind : MBind result := fun A B f m =>
  match m with
  | Ok a => f a
  | Raise e => Raise e
  end.

(** ** Floats *)

Definition Qltb (a b : Q) : bool := (Qnum a * QDen b <? Qnum b * QDen a)%Z.

(** [int(x)] of a float: truncation toward zero. *)
Definition py_int (x : Q) : Z :=
  if Qltb x 0%Q then Qceiling x else Qfloor x.

(** Python's [max(a, b)]: [b] only when [b > a]. *)
Definition py_max (a b : Q) : Q := if Qltb a b then b else a.

(** [np.clip(x, lo, hi)] is [minimum(maximum(x, lo), hi)]. *)
Definition np_clip (x lo hi : Q) : Q :=
  let y := if Qltb x lo then lo else x in
  if Qltb hi y then hi else y.

(** An entry of the ignition-time field: a float below [np.inf], or
    [np.inf] itself ("never"). *)
Inductive time :=
| Finite (q : Q)
| Infinity.

(** [a < b] on such floats. *)
Definition time_ltb (a b : time) : bool :=
  match a, b with
  | Finite x, Finite y => Qltb x y
  | Finite _, Infinity => true
  | Infinity, _ => false
  end.

(** ** numpy arrays of dimension two *)

Abbreviation ndarray A := (list (list A)) (only parsing).

Definition shape {A} (a : ndarray A) : Z * Z :=
  (Z.of_nat (length a), Z.of_nat (length (List.hd [] a))).

(** Normalisation of one index against an axis of length [n]: numpy
    counts a negative index from the end. *)
Definition py_index (n : nat) (i : Z) : option nat :=
  if 0 <=? i then (if i <? Z.of_nat n then Some (Z.to_nat i) else None)
  else (if - Z.of_nat n <=? i then Some (Z.to_nat (i + Z.of_nat n)) else None).

(** [a[r, c]] *)
Definition getitem {A} (a : ndarray A) (r c : Z) : result A :=
  match py_index (length a) r ≫= (a !!.) with
  | None => Raise IndexError
  | Some row =>
      match py_index (length row) c ≫= (row !!.) with
      | None => Raise IndexError
      | Some x => Ok x
      end
  end.

(** [a[r, c] = v] *)
Definition setitem {A} (a : ndarray A) (r c : Z) (v : A) : result (ndarray A) :=
  match py_index (length a) r with
  | None => Raise IndexError
  | Some i =>
      match a !! i with
      | None => Raise IndexError
      | Some row =>
          match py_index (length row) c with
          | None => Raise IndexError
          | Some j => Ok (<[i := <[j := v]> row]> a)
          end
      end
  end.

(** [np.full((rows, cols), v)] *)
Definition np_full {A} (rows cols : Z) (v : A) : ndarray A :=
  replicate (Z.to_nat rows) (replicate (Z.to_nat cols) v).

(** [np.argwhere(p(a))]: the indices of the entries satisfying [p], in
    row-major order. *)
Fixpoint argwhere_row {A} (p : A -> bool) (r c : Z) (row : list A) : list (Z * Z) :=
  match row with
  | [] => []
  | x :: xs =>
      if p x then (r, c) :: argwhere_row p r (c + 1) xs
      else argwhere_row p r (c + 1) xs
  end.

Fixpoint argwhere_from {A} (p : A -> bool) (r : Z) (a : ndarray A) : list (Z * Z) :=
  match a with
  | [] => []
  | row :: a' => argwhere_row p r 0 row ++ argwhere_from p (r + 1) a'
  end.

Definition np_argwhere {A} (p : A -> bool) (a : ndarray A) : list (Z * Z) :=
  argwhere_from p 0 a.

(** ** numpy's transcendental functions *)

Record Libm := {
  np_pi : Q;
  np_exp : Q -> Q;
  np_arctan2 : Q -> Q -> Q;
  np_cos : Q -> Q;
  np_sin : Q -> Q
}.

(** [np.radians(x)] *)
Definition np_radians (L : Libm) (x : Q) : Q := (x * (np_pi L / 180))%Q.

(** ** numpy's global random generator

    [G] is the state of the generator behind [np.random.random],
    [np.random.randint] and [np.random.normal]; each draw returns the
    value and the next state. *)

Record Generator (G : Type) := {
  gen_random : G -> Q * G;
  gen_randint : Z -> Z -> G -> Z * G;
  gen_normal : Q -> Q -> G -> Q * G
}.
Arguments gen_random {G} _ _.
Arguments gen_randint {G} _ _ _ _.
Arguments gen_normal {G} _ _ _ _.

(** What numpy documents of the draws: [random()] lies in [[0, 1)],
    [randint(low, high)] in [[low, high)]. *)
Record GeneratorSpec {G} (R : Generator G) : Prop := {
  gen_random_range : forall g, (0 <= fst (gen_random R g) /\ fst (gen_random R g) < 1)%Q;
  gen_randint_range : forall low high g, low < high ->
    low <= fst (gen_randint R low high g) < high
}.

(** [np.random.randint(low, high)] raises [ValueError] on an empty range. *)
Definition np_random_randint {G} (R : Generator G) (low high : Z) (g : G) : result (Z * G) :=
  if low <? high then Ok (gen_randint R low high g) else Raise ValueError.

(** The least and the greatest value of numpy's [int64], the type in
    which [np.random.randint] draws. *)
Definition int64_min : Z := - 2 ^ 63.
Definition int64_max : Z := 2 ^ 63 - 1.

(** [np.random.randint(low, high)] with its check of the bounds against
    [int64]: a [low] below the least value or a [high - 1] above the
    greatest raises [ValueError], as an empty range does. *)
Definition np_random_randint_int64 {G} (R : Generator G) (low high : Z) (g : G)
    : result (Z * G) :=
  if (low <? int64_min) || (int64_max <? high - 1) then Raise ValueError
  else np_random_randint R low high g.

(** ** The model object *)

Record FireModel := {
  elevation : ndarray Q;
  fuel : ndarray Z;
  rows : Z;
  cols : Z;
  cell_size : Q;
  ignition_time : ndarray time;
  burnt : ndarray bool;
  wind_speed : Q;
  wind_dir : Q;
  k_slope : Q;
  base_rates : gmap Z Q;
  wind_sensitivity : gmap Z Q
}.

Definition set_ignition_time (self : FireModel) (a : ndarray time) : FireModel :=
  {| elevation := elevation self; fuel := fuel self; rows := rows self;
     cols := cols self; cell_size := cell_size self; ignition_time := a;
     burnt := burnt self; wind_speed := wind_speed self;
     wind_dir := wind_dir self; k_slope := k_slope self;
     base_rates := base_rates self; wind_sensitivity := wind_sensitivity self |}.

(** [dict.get(k, d)] *)
Definition dict_get (m : gmap Z Q) (k : Z) (d : Q) : Q := default d (m !! k).

(** Lines 37-42: 0 Urban, 1 Grass, 2 Forest, 3 Water. *)
Definition base_rates_table : gmap Z Q :=
  {[ 0 := 0.1%Q; 1 := 1.5%Q; 2 := 0.5%Q; 3 := 0.0%Q ]}.

(** Lines 44-49. *)
Definition wind_sensitivity_table : gmap Z Q :=
  {[ 0 := 0.05%Q; 1 := 0.25%Q; 2 := 0.10%Q; 3 := 0.0%Q ]}.

(** [FireModel.__init__] *)
Definition __init__ (L : Libm) (elevation_map : ndarray Q) (fuel_map : ndarray Z)
    (wind_speed wind_dir cell_size : Q) : FireModel :=
  let '(rows, cols) := shape elevation_map in
  {| elevation := elevation_map;
     fuel := fuel_map;
     rows := rows;
     cols := cols;
     cell_size := cell_size;
     ignition_time := np_full rows cols Infinity;
     burnt := np_full rows cols false;
     wind_speed := wind_speed;
     wind_dir := np_radians L wind_dir;
     k_slope := (0.0693 / (np_pi L / 180))%Q;
     base_rates := base_rates_table;
     wind_sensitivity := wind_sensitivity_table |}.

(** [0 <= r < self.rows and 0 <= c < self.cols] *)
Definition in_bounds (self : FireModel) (r c : Z) : bool :=
  (0 <=? r) && (r <? rows self) && (0 <=? c) && (c <? cols self).

(** [FireModel.ignite] *)
Definition ignite (self : FireModel) (r c : Z) (start_time : time) : result FireModel :=
  if in_bounds self r c then
    f ← getitem (fuel self) r c;
    if negb (f =? 3) then
      a ← setitem (ignition_time self) r c start_time;
      Ok (set_ignition_time self a)
    else Ok self
  else Ok self.

(** ** The event queue ([heapq] on a Python list of tuples) *)

Definition time_eqb (a b : time) : bool :=
  match a, b with
  | Finite x, Finite y => Qeq_bool x y
  | Infinity, Infinity => true
  | _, _ => false
  end.

Definition time_add (a : time) (d : Q) : time :=
  match a with
  | Finite x => Finite (x + d)
  | Infinity => Infinity
  end.

(** A pending event [(time, row, col)]. *)
Definition event := (time * Z * Z)%type.

Definition ev_time (e : event) : time := e.1.1.
Definition ev_row (e : event) : Z := e.1.2.
Definition ev_col (e : event) : Z := e.2.

(** [a < b] on tuples: the first component that differs decides. *)
Definition event_ltb (a b : event) : bool :=
  if time_eqb (ev_time a) (ev_time b) then
    if ev_row a =? ev_row b then ev_col a <? ev_col b
    else ev_row a <? ev_row b
  else time_ltb (ev_time a) (ev_time b).

Definition heappush (pq : list event) (e : event) : list event := e :: pq.

(** The least of [e :: pq], and the other entries. *)
Fixpoint extract_min (e : event) (pq : list event) : event * list event :=
  match pq with
  | [] => (e, [])
  | x :: pq' =>
      let '(m, rest) := extract_min x pq' in
      if event_ltb m e then (m, e :: rest) else (e, x :: pq')
  end.

(** [heapq.heappop(pq)]: the popped item and the queue left. *)
Definition heappop (pq : list event) : result (event * list event) :=
  match pq with
  | [] => Raise IndexError
  | e :: pq' => Ok (extract_min e pq')
  end.

(** ** [FireModel.run_simulation] *)

Fixpoint foldM {A B} (f : A -> B -> result A) (acc : A) (l : list B) : result A :=
  match l with
  | [] => Ok acc
  | x :: l' => acc' ← f acc x; foldM f acc' l'
  end.

(** The eight neighbour offsets with their distance multipliers. *)
Definition neighbors : list (Z * Z * Q) :=
  [ (-1, 0, 1.0%Q); (1, 0, 1.0%Q); (0, -1, 1.0%Q); (0, 1, 1.0%Q);
    (-1, -1, 1.414%Q); (-1, 1, 1.414%Q); (1, -1, 1.414%Q); (1, 1, 1.414%Q) ].

(** The local variables of the [while] loop that change, the state of the
    global generator, and the record of the events popped so far (latest
    first), which the program does not keep. *)
Record loop_state (G : Type) := {
  ls_ignition_time : ndarray time;
  ls_visited : ndarray bool;
  ls_pq : list event;
  ls_rng : G;
  ls_popped : list event
}.
Arguments ls_ignition_time {G} _.
Arguments ls_visited {G} _.
Arguments ls_pq {G} _.
Arguments ls_rng {G} _.
Arguments ls_popped {G} _.

Inductive control := Next | Stop.

Section Scheduler.

Context {G : Type}.
Variable R : Generator G.
Variable L : Libm.
Variable self : FireModel.
Variable max_time : time.

(** Lines 93-184: the time the front takes from the cell at elevation
    [current_elev] to the neighbour at offset [(dr, dc)]. *)
Definition travel_time (fuel_type : Z) (current_elev elev_n : Q)
    (dr dc : Z) (dist_mult : Q) : Q :=
  let base_rate := dict_get (base_rates self) fuel_type 0.5%Q in
  let dist := (cell_size self * dist_mult)%Q in
  let elev_diff := (elev_n - current_elev)%Q in
  let slope_angle := np_arctan2 L elev_diff dist in
  let slope_factor := np_exp L (k_slope self * slope_angle)%Q in
  let slope_factor := np_clip slope_factor 0.1%Q 8.0%Q in
  let sensitivity := dict_get (wind_sensitivity self) fuel_type 0.1%Q in
  let wind_factor :=
    if Qltb 0 (wind_speed self) then
      let wd_r := np_cos L (wind_dir self) in
      let wd_c := (- np_sin L (wind_dir self))%Q in
      let dot := ((wd_r * inject_Z dr + wd_c * inject_Z dc) / dist_mult)%Q in
      py_max 0.1%Q (1.0 + sensitivity * wind_speed self * dot)%Q
    else 1.0%Q in
  let final_rate := (base_rate * slope_factor * wind_factor)%Q in
  (dist / final_rate)%Q.

(** One pass of the [for dr, dc, dist_mult in neighbors] loop. *)
Definition relax (visited : ndarray bool) (curr_time : time) (r c : Z)
    (current_elev : Q) (acc : ndarray time * list event) (nb : Z * Z * Q)
    : result (ndarray time * list event) :=
  let '(ign, pq) := acc in
  let '(dr, dc, dist_mult) := nb in
  let nr := r + dr in
  let nc := c + dc in
  if in_bounds self nr nc then
    v ← getitem visited nr nc;
    if (v : bool) then Ok acc
    else
      fuel_type ← getitem (fuel self) nr nc;
      if fuel_type =? 3 then Ok acc
      else
        elev_n ← getitem (elevation self) nr nc;
        let new_time :=
          time_add curr_time (travel_time fuel_type current_elev elev_n dr dc dist_mult) in
        old ← getitem ign nr nc;
        if time_ltb new_time old then
          ign' ← setitem ign nr nc new_time;
          Ok (ign', heappush pq (new_time, nr, nc))
        else Ok acc
  else Ok acc.

(** Line 199: the spotting distance, in cells. *)
Definition spot_dist_px (g : G) : result (Z * G) :=
  '(k, g) ← np_random_randint R 2 (py_int (wind_speed self * 0.5)%Q) g;
  Ok (k + 1, g).

(** Lines 194-222: ember spotting from the cell just settled. *)
Definition ember_spotting (curr_time : time) (r c : Z)
    (ign : ndarray time) (pq : list event) (g : G)
    : result (ndarray time * list event * G) :=
  fuel_here ← getitem (fuel self) r c;
  if (fuel_here =? 2) && Qltb 5.0%Q (wind_speed self) then
    let '(u, g) := gen_random R g in
    if Qltb u 0.02%Q then
      '(spot_dist_px, g) ← spot_dist_px g;
      let '(z, g) := gen_normal R 0%Q 0.3%Q g in
      let spot_angle := (wind_dir self + z)%Q in
      let sp_r := py_int (inject_Z r + np_cos L spot_angle * inject_Z spot_dist_px)%Q in
      let sp_c := py_int (inject_Z c - np_sin L spot_angle * inject_Z spot_dist_px)%Q in
      let '(u', g) := gen_random R g in
      let flight_time := (10.0 + u' * 20.0)%Q in
      let spot_time := time_add curr_time flight_time in
      if in_bounds self sp_r sp_c then
        f ← getitem (fuel self) sp_r sp_c;
        if (f =? 1) || (f =? 2) then
          old ← getitem ign sp_r sp_c;
          if time_ltb spot_time old then
            ign' ← setitem ign sp_r sp_c spot_time;
            Ok (ign', heappush pq (spot_time, sp_r, sp_c), g)
          else Ok (ign, pq, g)
        else Ok (ign, pq, g)
      else Ok (ign, pq, g)
    else Ok (ign, pq, g)
  else Ok (ign, pq, g).

(** The body of [while pq:]. *)
Definition loop_body (st : loop_state G) : result (control * loop_state G) :=
  '(e, pq) ← heappop (ls_pq st);
  let '(curr_time, r, c) := e in
  let popped := e :: ls_popped st in
  if time_ltb max_time curr_time then
    Ok (Stop, {| ls_ignition_time := ls_ignition_time st; ls_visited := ls_visited st;
                 ls_pq := pq; ls_rng := ls_rng st; ls_popped := popped |})
  else
    v ← getitem (ls_visited st) r c;
    if (v : bool) then
      Ok (Next, {| ls_ignition_time := ls_ignition_time st; ls_visited := ls_visited st;
                   ls_pq := pq; ls_rng := ls_rng st; ls_popped := popped |})
    else
      visited ← setitem (ls_visited st) r c true;
      current_elev ← getitem (elevation self) r c;
      '(ign, pq) ← foldM (relax visited curr_time r c current_elev)
                         (ls_ignition_time st, pq) neighbors;
      '(ign, pq, g) ← ember_spotting curr_time r c ign pq (ls_rng st);
      Ok (Next, {| ls_ignition_time := ign; ls_visited := visited;
                   ls_pq := pq; ls_rng := g; ls_popped := popped |}).

(** [while pq: ...], at most [n] passes; [None] when [n] passes were not
    enough. *)
Fixpoint while_loop (n : nat) (st : loop_state G) : option (result (loop_state G)) :=
  match ls_pq st with
  | [] => Some (Ok st)
  | _ :: _ =>
      match n with
      | O => None
      | S n' =>
          match loop_body st with
          | Raise e => Some (Raise e)
          | Ok (Stop, st') => Some (Ok st')
          | Ok (Next, st') => while_loop n' st'
          end
      end
  end.

(** Lines 57-60: the queue of the cells that already hold a time. *)
Definition start_queue : result (list event) :=
  foldM (fun pq '(r, c) => t ← getitem (ignition_time self) r c;
                           Ok (heappush pq (t, r, c)))
        [] (np_argwhere (fun t => time_ltb t Infinity) (ignition_time self)).

(** [np.zeros_like(self.burnt, dtype=bool)] *)
Definition visited0 : ndarray bool := map (map (fun _ => false)) (burnt self).

Definition np_size {A} (a : ndarray A) : nat := length (concat a).

(** The state in which the loop is entered. *)
Definition start_state (g : G) : result (loop_state G) :=
  pq ← start_queue;
  Ok {| ls_ignition_time := ignition_time self; ls_visited := visited0;
        ls_pq := pq; ls_rng := g; ls_popped := [] |}.

(** Every pass either shortens the queue or settles a cell and pushes at
    most nine events, so this many passes are enough
    (see [run_loop_terminates]). *)
Definition passes (st : loop_state G) : nat :=
  (length (ls_pq st) + 9 * np_size (ls_visited st))%nat.

(** The whole method, keeping the final local state. *)
Definition run_loop (g : G) : option (result (loop_state G)) :=
  match start_state g with
  | Raise e => Some (Raise e)
  | Ok st => while_loop (passes st) st
  end.

(** The method as its caller sees it: the returned array
    [self.ignition_time] and the global generator afterwards. *)
Definition run_simulation (g : G) : option (result (ndarray time * G)) :=
  match run_loop g with
  | None => None
  | Some (Raise e) => Some (Raise e)
  | Some (Ok st) => Some (Ok (ls_ignition_time st, ls_rng st))
  end.

End Scheduler.

Arguments travel_time : simpl never.
Arguments relax : simpl never.
Arguments spot_dist_px : simpl never.
Arguments ember_spotting : simpl never.
Arguments loop_body : simpl never.

(** ** Instances for running the model

    A rational stand-in for numpy's transcendental functions (truncated
    series; exact at the argument [0], where every run evaluated below
    calls them), and a scripted generator that replays a tape of draws. *)

Fixpoint exp_series (n : nat) (x term : Q) (k : Z) : Q :=
  match n with
  | O => 0%Q
  | S n' => Qred (term + exp_series n' x (Qred (term * x / inject_Z k)) (k + 1))
  end.

(** Sum of the terms [t, -t x^2/((k+1)(k+2)), ...] of the sine and cosine
    series. *)
Fixpoint trig_series (n : nat) (x term : Q) (k : Z) : Q :=
  match n with
  | O => 0%Q
  | S n' =>
      Qred (term + trig_series n' x
                     (Qred (- term * x * x / inject_Z ((k + 1) * (k + 2)))) (k + 2))
  end.

(** Euler's series of the arc tangent. *)
Fixpoint atan_series (n : nat) (z term : Q) (k : Z) : Q :=
  match n with
  | O => 0%Q
  | S n' =>
      Qred (term + atan_series n' z
                     (Qred (term * inject_Z (2 * k + 2) / inject_Z (2 * k + 3)
                            * (z * z / (1 + z * z)))) (k + 1))
  end.

Definition rational_pi : Q := 3.141592653589793%Q.

Definition rational_atan (z : Q) : Q := atan_series 40 z (Qred (z / (1 + z * z))) 0.

Definition rational_arctan2 (y x : Q) : Q :=
  if Qltb 0 x then rational_atan (y / x)
  else if Qltb x 0 then
    (if Qltb y 0 then rational_atan (y / x) - rational_pi
     else rational_atan (y / x) + rational_pi)%Q
  else if Qltb 0 y then (rational_pi / 2)%Q
  else if Qltb y 0 then (- rational_pi / 2)%Q
  else 0%Q.

Definition rational_libm : Libm :=
  {| np_pi := rational_pi;
     np_exp := fun x => exp_series 30 x 1 1;
     np_arctan2 := rational_arctan2;
     np_cos := fun x => trig_series 20 x 1 0;
     np_sin := fun x => trig_series 20 x x 1 |}.

(** The fractional part of a tape entry, in [[0, 1)]. *)
Definition frac (v : Q) : Q := (v - inject_Z (Qfloor v))%Q.

Definition next_draw (tape : list Q) : Q * list Q :=
  match tape with
  | [] => (0%Q, [])
  | v :: tape' => (v, tape')
  end.

(** The tape generator: [random()] is the fractional part of the next
    entry, [randint] scales it to the range, [normal(mu, sigma)] reads the
    entry as a standard normal variate; an exhausted tape yields zeros. *)
Definition scripted : Generator (list Q) :=
  {| gen_random := fun tape =>
       let '(v, tape') := next_draw tape in (frac v, tape');
     gen_randint := fun low high tape =>
       let '(v, tape') := next_draw tape in
       (low + Qfloor (frac v * inject_Z (high - low)), tape');
     gen_normal := fun mu sigma tape =>
       let '(v, tape') := next_draw tape in ((mu + sigma * v)%Q, tape') |}.

(** A sequence of [ignite] calls on one object. *)
Fixpoint ignite_all (self : FireModel) (seeds : list (Z * Z * time)) : result FireModel :=
  match seeds with
  | [] => Ok self
  | (r, c, t) :: seeds' => self' ← ignite self r c t; ignite_all self' seeds'
  end.

(** * Properties *)

(** ** Comparisons *)

Lemma Qltb_lt (a b : Q) : Qltb a b = true <-> (a < b)%Q.
Proof. unfold Qltb, Qlt. apply Z.ltb_lt. Qed.

Lemma Qltb_ge (a b : Q) : Qltb a b = false <-> (b <= a)%Q.
Proof. unfold Qltb, Qle. rewrite Z.ltb_ge. reflexivity. Qed.

(** The order of the floats of the field. *)
Definition time_le (a b : time) : Prop :=
  match a, b with
  | Finite x, Finite y => (x <= y)%Q
  | _, Infinity => True
  | Infinity, Finite _ => False
  end.

Definition time_lt (a b : time) : Prop := ~ time_le b a.

Lemma time_ltb_lt (a b : time) : time_ltb a b = true <-> time_lt a b.
Proof.
  unfold time_lt. destruct a as [x|], b as [y|]; simpl; try rewrite Qltb_lt;
    split; intros H; try lra; try easy; try (exfalso; apply H; exact I).
Qed.

Lemma time_ltb_ge (a b : time) : time_ltb a b = false <-> time_le b a.
Proof.
  destruct a as [x|], b as [y|]; simpl; try rewrite Qltb_ge; easy.
Qed.

Lemma time_eqb_eq (a b : time) : time_eqb a b = true <-> time_le a b /\ time_le b a.
Proof.
  destruct a as [x|], b as [y|]; simpl; try rewrite Qeq_bool_iff;
    split; try intros [H1 H2]; try intros H; try easy; try lra; split; lra.
Qed.

Lemma time_le_refl (a : time) : time_le a a.
Proof. destruct a; simpl; [lra | exact I]. Qed.

Lemma time_le_trans (a b c : time) : time_le a b -> time_le b c -> time_le a c.
Proof. destruct a, b, c; simpl; try easy; lra. Qed.

Lemma time_le_total (a b : time) : time_le a b \/ time_le b a.
Proof.
  destruct a as [x|], b as [y|]; simpl; auto.
  destruct (Qlt_le_dec x y); [left; lra | right; lra].
Qed.

Lemma time_add_le (t : time) (d : Q) : (0 <= d)%Q -> time_le t (time_add t d).
Proof. destruct t; simpl; [lra | trivial]. Qed.

Lemma time_add_lt (t : time) (d : Q) :
  (0 < d)%Q -> t <> Infinity -> time_lt t (time_add t d).
Proof. unfold time_lt. destruct t; simpl; [lra | congruence]. Qed.

(** ** Arrays *)

(** The entry at a position given by two non-negative indices. *)
Definition cell {A} (a : ndarray A) (r c : Z) : option A :=
  a !! Z.to_nat r ≫= (.!! Z.to_nat c).

(** The array with that entry replaced. *)
Definition update {A} (a : ndarray A) (r c : Z) (v : A) : ndarray A :=
  alter (<[Z.to_nat c := v]>) (Z.to_nat r) a.

Lemma py_index_nonneg (n : nat) (i : Z) :
  0 <= i ->
  py_index n i = if decide (Z.to_nat i < n)%nat then Some (Z.to_nat i) else None.
Proof.
  intros Hi. unfold py_index.
  destruct (Z.leb_spec 0 i); [|lia].
  destruct (Z.ltb_spec i (Z.of_nat n)); case_decide; try reflexivity; lia.
Qed.

Lemma py_index_lt (n : nat) (i : Z) (k : nat) : py_index n i = Some k -> (k < n)%nat.
Proof.
  unfold py_index. intros H.
  destruct (Z.leb_spec 0 i).
  - destruct (Z.ltb_spec i (Z.of_nat n)); inversion H; lia.
  - destruct (Z.leb_spec (- Z.of_nat n) i); inversion H; lia.
Qed.

Lemma getitem_cell {A} (a : ndarray A) (r c : Z) :
  0 <= r -> 0 <= c ->
  getitem a r c = match cell a r c with Some x => Ok x | None => Raise IndexError end.
Proof.
  intros Hr Hc. unfold getitem, cell. rewrite (py_index_nonneg _ r Hr).
  case_decide as Hlt; simpl.
  - destruct (a !! Z.to_nat r) as [row|] eqn:Hrow; simpl; [|reflexivity].
    rewrite (py_index_nonneg _ c Hc). case_decide as Hlt'; simpl.
    + reflexivity.
    + rewrite (lookup_ge_None_2 row (Z.to_nat c)) by lia. reflexivity.
  - rewrite (lookup_ge_None_2 a (Z.to_nat r)) by lia. reflexivity.
Qed.

Lemma insert_alter_row {A} (a : ndarray A) (i : nat) (row : list A) (f : list A -> list A) :
  a !! i = Some row -> <[i := f row]> a = alter f i a.
Proof.
  revert i. induction a as [|x a IH]; intros [|i] H; simpl in *; try discriminate.
  - inversion H; subst. reflexivity.
  - f_equal. apply IH. exact H.
Qed.

Lemma setitem_cell {A} (a : ndarray A) (r c : Z) (v : A) :
  0 <= r -> 0 <= c ->
  setitem a r c v =
  match cell a r c with Some _ => Ok (update a r c v) | None => Raise IndexError end.
Proof.
  intros Hr Hc. unfold setitem, cell, update. rewrite (py_index_nonneg _ r Hr).
  case_decide as Hlt; simpl.
  - destruct (a !! Z.to_nat r) as [row|] eqn:Hrow; simpl; [|reflexivity].
    rewrite (py_index_nonneg _ c Hc). case_decide as Hlt'; simpl.
    + destruct (lookup_lt_is_Some_2 row (Z.to_nat c) Hlt') as [x Hx]. rewrite Hx.
      f_equal. apply insert_alter_row. exact Hrow.
    + rewrite (lookup_ge_None_2 row (Z.to_nat c)) by lia. reflexivity.
  - rewrite (lookup_ge_None_2 a (Z.to_nat r)) by lia. reflexivity.
Qed.

Lemma cell_update_same {A} (a : ndarray A) (r c : Z) (v : A) :
  is_Some (cell a r c) -> cell (update a r c v) r c = Some v.
Proof.
  unfold cell, update. intros [x Hx]. rewrite list_lookup_alter_eq.
  destruct (a !! Z.to_nat r) as [row|]; simpl in *; [|discriminate].
  apply list_lookup_insert_eq. apply lookup_lt_is_Some. eauto.
Qed.

Lemma cell_update_other {A} (a : ndarray A) (r c r' c' : Z) (v : A) :
  0 <= r -> 0 <= c -> 0 <= r' -> 0 <= c' -> (r, c) <> (r', c') ->
  cell (update a r c v) r' c' = cell a r' c'.
Proof.
  unfold cell, update. intros Hr Hc Hr' Hc' Hne.
  destruct (decide (Z.to_nat r = Z.to_nat r')) as [Heq|Hneq].
  - rewrite <- Heq. rewrite list_lookup_alter_eq.
    destruct (a !! Z.to_nat r) as [row|]; simpl; [|reflexivity].
    apply list_lookup_insert_ne. intros Hcc. apply Hne. f_equal; lia.
  - rewrite list_lookup_alter_ne by exact Hneq. reflexivity.
Qed.

(** An array of [rows] rows of [cols] entries each. *)
Definition has_shape {A} (a : ndarray A) (rows cols : Z) : Prop :=
  Z.of_nat (length a) = rows /\ Forall (fun row => Z.of_nat (length row) = cols) a.

Lemma cell_is_Some {A} (a : ndarray A) (rows cols r c : Z) :
  has_shape a rows cols -> 0 <= r -> 0 <= c ->
  (is_Some (cell a r c) <-> r < rows /\ c < cols).
Proof.
  intros [Hlen Hall] Hr Hc. unfold cell. split.
  - intros [x Hx].
    destruct (a !! Z.to_nat r) as [row|] eqn:Hrow; simpl in Hx; [|discriminate].
    pose proof (lookup_lt_Some _ _ _ Hrow) as H1.
    pose proof (lookup_lt_Some _ _ _ Hx) as H2.
    rewrite Forall_lookup in Hall. specialize (Hall _ _ Hrow). simpl in Hall. lia.
  - intros [H1 H2].
    destruct (lookup_lt_is_Some_2 a (Z.to_nat r)) as [row Hrow]; [lia|].
    rewrite Hrow. simpl. apply lookup_lt_is_Some_2.
    rewrite Forall_lookup in Hall. specialize (Hall _ _ Hrow). simpl in Hall. lia.
Qed.

Lemma update_shape {A} (a : ndarray A) (rows cols r c : Z) (v : A) :
  has_shape a rows cols -> has_shape (update a r c v) rows cols.
Proof.
  intros [Hlen Hall]. unfold update. split.
  - rewrite length_alter. exact Hlen.
  - apply Forall_alter; [exact Hall|]. intros row _ Hrow. rewrite length_insert. exact Hrow.
Qed.

Lemma np_full_shape {A} (rows cols : Z) (v : A) :
  0 <= rows -> 0 <= cols -> has_shape (np_full rows cols v) rows cols.
Proof.
  intros Hr Hc. unfold np_full. split.
  - rewrite length_replicate. lia.
  - apply Forall_replicate. rewrite length_replicate. lia.
Qed.

Lemma cell_np_full {A} (rows cols r c : Z) (v x : A) :
  cell (np_full rows cols v) r c = Some x -> x = v.
Proof.
  unfold cell, np_full. intros H.
  destruct (replicate (Z.to_nat rows) (replicate (Z.to_nat cols) v) !! Z.to_nat r)
    as [row|] eqn:Hrow; simpl in H; [|discriminate].
  apply lookup_replicate in Hrow as [-> _].
  apply lookup_replicate in H as [-> _]. reflexivity.
Qed.

(** ** Well-formed objects *)

(** The four arrays of the object have the shape [rows] by [cols]. *)
Record wf_model (self : FireModel) : Prop := {
  wf_rows : 0 <= rows self;
  wf_cols : 0 <= cols self;
  wf_elevation : has_shape (elevation self) (rows self) (cols self);
  wf_fuel : has_shape (fuel self) (rows self) (cols self);
  wf_ignition_time : has_shape (ignition_time self) (rows self) (cols self);
  wf_burnt : has_shape (burnt self) (rows self) (cols self);
  wf_base_rates : base_rates self = base_rates_table;
  wf_wind_sensitivity : wind_sensitivity self = wind_sensitivity_table
}.

(** The rasters a caller may pass: a rectangular elevation raster and a
    fuel raster of the same shape. *)
Definition same_shape {A B} (a : ndarray A) (b : ndarray B) : Prop :=
  has_shape a (shape a).1 (shape a).2 /\ has_shape b (shape a).1 (shape a).2.

Lemma init_wf (L : Libm) (elevation_map : ndarray Q) (fuel_map : ndarray Z)
    (ws wd cs : Q) :
  same_shape elevation_map fuel_map ->
  wf_model (__init__ L elevation_map fuel_map ws wd cs).
Proof.
  intros [He Hf]. unfold __init__, shape in *. simpl in *.
  split; simpl; try lia; try assumption; try reflexivity; apply np_full_shape; lia.
Qed.

Lemma in_bounds_spec (self : FireModel) (r c : Z) :
  in_bounds self r c = true <-> 0 <= r < rows self /\ 0 <= c < cols self.
Proof.
  unfold in_bounds. rewrite !andb_true_iff, !Z.leb_le, !Z.ltb_lt. lia.
Qed.

Lemma in_bounds_cell {A} (self : FireModel) (a : ndarray A) (r c : Z) :
  has_shape a (rows self) (cols self) -> in_bounds self r c = true ->
  exists x, cell a r c = Some x.
Proof.
  intros Hs Hb. apply in_bounds_spec in Hb.
  apply (cell_is_Some a (rows self) (cols self) r c Hs); lia.
Qed.

Lemma ignite_wf (self self' : FireModel) (r c : Z) (t : time) :
  wf_model self -> ignite self r c t = Ok self' -> wf_model self'.
Proof.
  intros Hwf. unfold ignite.
  destruct (in_bounds self r c) eqn:Hb; [|intros [= <-]; exact Hwf].
  pose proof Hb as Hb'. apply in_bounds_spec in Hb'.
  rewrite getitem_cell by lia.
  destruct (cell (fuel self) r c) as [f|]; simpl; [|discriminate].
  destruct (f =? 3); simpl; [intros [= <-]; exact Hwf|].
  rewrite setitem_cell by lia.
  destruct (cell (ignition_time self) r c); simpl; [|discriminate].
  intros [= <-]. destruct Hwf. split; simpl; try assumption.
  apply update_shape. assumption.
Qed.

(** ** [ignite] *)

(** The two ways [ignite] ends on a well-formed object. *)
Lemma ignite_result (self : FireModel) (r c : Z) (t : time) :
  wf_model self ->
  (in_bounds self r c = true /\ cell (fuel self) r c <> Some 3
   /\ ignite self r c t = Ok (set_ignition_time self (update (ignition_time self) r c t)))
  \/ ((in_bounds self r c = false \/ cell (fuel self) r c = Some 3)
      /\ ignite self r c t = Ok self).
Proof.
  intros Hwf. unfold ignite.
  destruct (in_bounds self r c) eqn:Hb; [|right; auto].
  pose proof Hb as Hb'. apply in_bounds_spec in Hb'.
  destruct (in_bounds_cell self (fuel self) r c (wf_fuel _ Hwf) Hb) as [f Hf].
  destruct (in_bounds_cell self (ignition_time self) r c (wf_ignition_time _ Hwf) Hb)
    as [old Hold].
  rewrite getitem_cell by lia. rewrite Hf. simpl.
  destruct (Z.eqb_spec f 3) as [->|Hne]; simpl; [right; auto|].
  rewrite setitem_cell by lia. rewrite Hold. left.
  split; [reflexivity|]. split; [congruence | reflexivity].
Qed.

(** C2, as the code has it: on a cell in bounds whose fuel is not Water,
    [ignite] stores [start_time] itself in the cell (whatever time the cell
    held) and changes nothing else; out of bounds or on Water it returns
    the object unchanged; it does not raise. *)
Theorem ignite_sets_start_time (self : FireModel) (r c : Z) (start_time : time) :
  wf_model self ->
  (in_bounds self r c = true -> cell (fuel self) r c <> Some 3 ->
     ignite self r c start_time
       = Ok (set_ignition_time self (update (ignition_time self) r c start_time))
     /\ cell (update (ignition_time self) r c start_time) r c = Some start_time
     /\ forall r' c', 0 <= r' -> 0 <= c' -> (r', c') <> (r, c) ->
          cell (update (ignition_time self) r c start_time) r' c'
          = cell (ignition_time self) r' c')
  /\ (in_bounds self r c = false \/ cell (fuel self) r c = Some 3 ->
        ignite self r c start_time = Ok self).
Proof.
  intros Hwf. split.
  - intros Hb Hfuel. pose proof Hb as Hb'. apply in_bounds_spec in Hb'.
    destruct (in_bounds_cell self (fuel self) r c (wf_fuel _ Hwf) Hb) as [f Hf].
    destruct (in_bounds_cell self (ignition_time self) r c (wf_ignition_time _ Hwf) Hb)
      as [t Ht].
    split; [|split].
    + unfold ignite. rewrite Hb. rewrite getitem_cell by lia. rewrite Hf. simpl.
      destruct (Z.eqb_spec f 3) as [->|Hne]; [congruence|]. simpl.
      rewrite setitem_cell by lia. rewrite Ht. reflexivity.
    + apply cell_update_same. eauto.
    + intros r' c' Hr' Hc' Hne. apply cell_update_other; try lia. congruence.
  - intros [Hb|Hwater]; unfold ignite.
    + rewrite Hb. reflexivity.
    + destruct (in_bounds self r c) eqn:Hb; [|reflexivity].
      apply in_bounds_spec in Hb. rewrite getitem_cell by lia. rewrite Hwater.
      reflexivity.
Qed.

Definition time_min (a b : time) : time := if time_ltb b a then b else a.

(** A 1 x 1 Forest grid, no wind. *)
Definition one_forest_cell : FireModel :=
  __init__ rational_libm [[0%Q]] [[2]] 0 0 30.

Lemma ignite_sets_start_time_witness :
  ignite one_forest_cell 0 0 (Finite 5)
  = Ok (set_ignition_time one_forest_cell
          (update (ignition_time one_forest_cell) 0 0 (Finite 5))).
Proof.
  apply (ignite_sets_start_time one_forest_cell 0 0 (Finite 5)).
  - apply init_wf. repeat split; simpl; repeat constructor.
  - reflexivity.
  - discriminate.
Defined.

(** C2 as stated fails: a cell seeded at time 5 and seeded again at time 10
    holds 10 afterwards, not [min(5, 10)]. *)
Lemma ignite_is_not_min :
  (self1 ← ignite one_forest_cell 0 0 (Finite 5);
   self2 ← ignite self1 0 0 (Finite 10);
   getitem (ignition_time self2) 0 0) = Ok (Finite 10)
  /\ Finite 10 <> time_min (Finite 5) (Finite 10).
Proof. split; [reflexivity | discriminate]. Qed.

(** ** The spotting distance *)

Lemma py_int_nonneg (x : Q) : (0 <= x)%Q -> py_int x = Qfloor x.
Proof.
  intros Hx. unfold py_int. destruct (Qltb x 0) eqn:H; [|reflexivity].
  apply Qltb_lt in H. lra.
Qed.

Lemma Qfloor_ge (x : Q) (n : Z) : (inject_Z n <= x)%Q -> n <= Qfloor x.
Proof.
  intros H. rewrite <- (Qfloor_Z n). apply Qfloor_resp_le. exact H.
Qed.

Lemma Qfloor_lt (x : Q) (n : Z) : (x < inject_Z n)%Q -> Qfloor x < n.
Proof.
  intros H. pose proof (Qfloor_le x). rewrite Zlt_Qlt. lra.
Qed.

(** Within [int64] the check changes nothing. *)
Lemma np_random_randint_within_int64 {G} (R : Generator G) (low high : Z) (g : G) :
  int64_min <= low -> high - 1 <= int64_max ->
  np_random_randint_int64 R low high g = np_random_randint R low high g.
Proof.
  intros Hlow Hhigh. unfold np_random_randint_int64.
  destruct (Z.ltb_spec low int64_min); [lia|].
  destruct (Z.ltb_spec int64_max (high - 1)); [lia | reflexivity].
Qed.

Lemma frac_range (v : Q) : (0 <= frac v /\ frac v < 1)%Q.
Proof.
  unfold frac. pose proof (Qfloor_le v). pose proof (Qlt_floor v).
  rewrite inject_Z_plus in *. change (inject_Z 1) with 1%Q in *. split; lra.
Qed.

Lemma scripted_spec : GeneratorSpec scripted.
Proof.
  split.
  - intros g. simpl. destruct (next_draw g) as [v g']. simpl. apply frac_range.
  - intros low high g Hlt. cbn -[frac Qfloor Qmult inject_Z Z.add Z.sub].
    destruct (next_draw g) as [v g']. cbn -[frac Qfloor Qmult inject_Z Z.add Z.sub].
    pose proof (frac_range v) as [H0 H1].
    assert (Hd : (0 < inject_Z (high - low))%Q).
    { change 0%Q with (inject_Z 0). rewrite <- Zlt_Qlt. lia. }
    assert (0 <= Qfloor (frac v * inject_Z (high - low))).
    { apply Qfloor_ge. change (inject_Z 0) with 0%Q. nra. }
    assert (Qfloor (frac v * inject_Z (high - low)) < high - low).
    { apply Qfloor_lt. nra. }
    lia.
Qed.

(** The tape entry on which the tape generator draws [low + i] from
    [[low, low + n)]. *)
Lemma scripted_randint_attains (low n i : Z) (tape : list Q) :
  0 <= i < n ->
  gen_randint scripted low (low + n) ((inject_Z i / inject_Z n)%Q :: tape)
  = (low + i, tape).
Proof.
  intros Hi. cbn -[frac Qfloor Qmult Qdiv inject_Z Z.add Z.sub].
  f_equal. f_equal.
  assert (Hn : (0 < inject_Z n)%Q).
  { change 0%Q with (inject_Z 0). rewrite <- Zlt_Qlt. lia. }
  assert (Hi0 : (0 <= inject_Z i)%Q).
  { change 0%Q with (inject_Z 0). rewrite <- Zle_Qle. lia. }
  assert (Hin : (inject_Z i < inject_Z n)%Q) by (rewrite <- Zlt_Qlt; lia).
  set (v := (inject_Z i / inject_Z n)%Q).
  assert (Hv0 : (0 <= v)%Q) by (apply Qle_shift_div_l; [exact Hn | lra]).
  assert (Hv1 : (v < 1)%Q) by (apply Qlt_shift_div_r; [exact Hn | lra]).
  assert (Hfl : Qfloor v = 0).
  { apply Z.le_antisymm.
    - apply Z.lt_succ_r. apply Qfloor_lt. exact Hv1.
    - apply Qfloor_ge. exact Hv0. }
  assert (Hfrac : (frac v == v)%Q).
  { unfold frac. rewrite Hfl. change (inject_Z 0) with 0%Q. lra. }
  replace (low + n - low) with n by lia.
  assert (Hprod : (frac v * inject_Z n == inject_Z i)%Q).
  { rewrite Hfrac. unfold v. field. lra. }
  rewrite Hprod. apply Qfloor_Z.
Qed.

(** C5, as the code has it: [np.random.randint(2, int(wind_speed * 0.5)) + 1]
    with numpy's half-open [randint].  From wind speed 6 on, and as long as
    the upper bound fits [int64], the draw succeeds; the distance is the
    generator's draw from [[2, floor(wind_speed * 0.5))] plus one, an
    integer from 3 to [floor(wind_speed * 0.5)]; and each of these
    distances is drawn in some state of a generator that meets numpy's
    contract. *)
Theorem spot_dist_px_range {G} (R : Generator G) (self : FireModel) (g : G) :
  GeneratorSpec R ->
  (6 <= wind_speed self)%Q ->
  py_int (wind_speed self * 0.5) - 1 <= int64_max ->
  let high := Qfloor (wind_speed self * 0.5) in
  let k := gen_randint R 2 high g in
  np_random_randint_int64 R 2 (py_int (wind_speed self * 0.5)) g = Ok k
  /\ spot_dist_px R self g = Ok (fst k + 1, snd k)
  /\ 3 <= fst k + 1 <= high
  /\ forall d, 3 <= d <= high ->
       exists (R' : Generator (list Q)) (tape tape' : list Q),
         GeneratorSpec R' /\ spot_dist_px R' self tape = Ok (d, tape').
Proof.
  intros HR Hws Hint high k.
  assert (Hhi : 3 <= high).
  { apply Qfloor_ge. change (inject_Z 3) with 3%Q. lra. }
  assert (Hpy : py_int (wind_speed self * 0.5) = high) by (apply py_int_nonneg; lra).
  assert (Hdraw : forall (G' : Type) (R' : Generator G') (g' : G'),
            spot_dist_px R' self g'
            = Ok (fst (gen_randint R' 2 high g') + 1, snd (gen_randint R' 2 high g'))).
  { intros G' R' g'. unfold spot_dist_px, np_random_randint. rewrite Hpy.
    destruct (Z.ltb_spec 2 high); [|lia].
    destruct (gen_randint R' 2 high g') as [k' g'']. reflexivity. }
  split; [|split; [apply Hdraw | split]].
  - rewrite np_random_randint_within_int64 by (unfold int64_min; lia).
    unfold np_random_randint. rewrite Hpy. destruct (Z.ltb_spec 2 high); [|lia].
    subst k. destruct (gen_randint R 2 high g). reflexivity.
  - pose proof (gen_randint_range R HR 2 high g) as Hk. fold k in Hk. lia.
  - intros d Hd.
    exists scripted, [(inject_Z (d - 3) / inject_Z (high - 2))%Q], [].
    split; [exact scripted_spec|]. rewrite Hdraw.
    pose proof (scripted_randint_attains 2 (high - 2) (d - 3) [] ltac:(lia)) as Hatt.
    replace (2 + (high - 2)) with high in Hatt by lia.
    rewrite Hatt. cbn [fst snd]. f_equal. f_equal. lia.
Qed.

(** A flat, all-Forest column of five cells with a Water cell at row 1;
    wind of 10 m/s from the north. *)
Definition windy_column : FireModel :=
  __init__ rational_libm [[0%Q]; [0%Q]; [0%Q]; [0%Q]; [0%Q]]
    [[2]; [3]; [2]; [2]; [2]] 10 0 30.

Lemma spot_dist_px_range_witness :
  let high := Qfloor (wind_speed windy_column * 0.5) in
  let k := gen_randint scripted 2 high [0.5%Q] in
  np_random_randint_int64 scripted 2 (py_int (wind_speed windy_column * 0.5)) [0.5%Q] = Ok k
  /\ spot_dist_px scripted windy_column [0.5%Q] = Ok (fst k + 1, snd k)
  /\ 3 <= fst k + 1 <= high
  /\ forall d, 3 <= d <= high ->
       exists (R' : Generator (list Q)) (tape tape' : list Q),
         GeneratorSpec R' /\ spot_dist_px R' windy_column tape = Ok (d, tape').
Proof.
  apply (spot_dist_px_range scripted windy_column [0.5%Q]).
  - exact scripted_spec.
  - vm_compute. discriminate.
  - vm_compute. discriminate.
Defined.

(** C5 as stated fails: at wind speed 10 the stated range is 2 to 6, and no
    generator within numpy's contract yields the distance 2 or 6. *)
Lemma spot_dist_px_never_2_or_6 :
  ~ exists (R : Generator (list Q)) (g g' : list Q) (d : Z),
      GeneratorSpec R
      /\ spot_dist_px R windy_column g = Ok (d, g')
      /\ (d = 2 \/ d = Qfloor (wind_speed windy_column * 0.5) + 1).
Proof.
  intros (R & g & g' & d & HR & Hd & Hbad).
  unfold spot_dist_px, np_random_randint in Hd.
  change (py_int (wind_speed windy_column * 0.5)) with 5 in Hd.
  change (Qfloor (wind_speed windy_column * 0.5)) with 5 in Hbad.
  simpl in Hd.
  pose proof (gen_randint_range R HR 2 5 g) as Hk.
  destruct (gen_randint R 2 5 g) as [k g'']. simpl in *.
  inversion Hd; subst. lia.
Qed.

(** At wind speed 10 each of the distances 3, 4 and 5 is drawn by some
    tape. *)
Example spot_dist_px_attains_3_4_5 :
  spot_dist_px scripted windy_column [0%Q] = Ok (3, [])
  /\ spot_dist_px scripted windy_column [0.4%Q] = Ok (4, [])
  /\ spot_dist_px scripted windy_column [0.8%Q] = Ok (5, []).
Proof. repeat split; reflexivity. Qed.

(** ** The order of the queue *)

(** [a <= b] on tuples. *)
Definition event_le (a b : event) : Prop := event_ltb b a = false.

(** Row, then column. *)
Definition cell_le (a b : event) : Prop :=
  ev_row a < ev_row b \/ (ev_row a = ev_row b /\ ev_col a <= ev_col b).

Lemma event_le_spec (a b : event) :
  event_le a b <->
  time_lt (ev_time a) (ev_time b)
  \/ (time_le (ev_time a) (ev_time b) /\ time_le (ev_time b) (ev_time a) /\ cell_le a b).
Proof.
  unfold event_le, event_ltb, cell_le.
  destruct (time_eqb (ev_time b) (ev_time a)) eqn:Heq.
  - apply time_eqb_eq in Heq as [H1 H2].
    destruct (Z.eqb_spec (ev_row b) (ev_row a)) as [Hr|Hr].
    + rewrite Z.ltb_ge. unfold time_lt. intuition lia.
    + rewrite Z.ltb_ge. unfold time_lt. intuition lia.
  - rewrite time_ltb_ge.
    assert (Hn : ~ (time_le (ev_time b) (ev_time a) /\ time_le (ev_time a) (ev_time b))).
    { rewrite <- time_eqb_eq. rewrite Heq. discriminate. }
    unfold time_lt. split.
    + intros H. left. intros H'. apply Hn. split; assumption.
    + intros [H|(H1 & H2 & _)]; [|tauto].
      destruct (time_le_total (ev_time a) (ev_time b)); tauto.
Qed.

Lemma event_le_time (a b : event) : event_le a b -> time_le (ev_time a) (ev_time b).
Proof.
  rewrite event_le_spec. intros [H|[H _]]; [|exact H].
  destruct (time_le_total (ev_time a) (ev_time b)) as [H'|H']; [exact H'|].
  contradiction.
Qed.

Lemma event_le_refl (a : event) : event_le a a.
Proof.
  apply event_le_spec. right. unfold cell_le.
  split; [apply time_le_refl | split; [apply time_le_refl | lia]].
Qed.

Lemma event_le_trans (a b c : event) : event_le a b -> event_le b c -> event_le a c.
Proof.
  rewrite !event_le_spec. unfold time_lt, cell_le.
  intros [H1|(H1 & H1' & H1'')] [H2|(H2 & H2' & H2'')].
  - left. intros H. apply H1.
    destruct (time_le_total (ev_time b) (ev_time c)) as [H'|H']; [|contradiction].
    eapply time_le_trans; eassumption.
  - left. intros H. apply H1. eapply time_le_trans; eassumption.
  - left. intros H. apply H2. eapply time_le_trans; eassumption.
  - right. split; [eapply time_le_trans; eassumption|].
    split; [eapply time_le_trans; eassumption | lia].
Qed.

Lemma event_ltb_le (a b : event) : event_ltb a b = true -> event_le a b.
Proof.
  intros H. apply event_le_spec.
  assert (Hn : ~ event_le b a) by (unfold event_le; rewrite H; discriminate).
  rewrite event_le_spec in Hn. unfold cell_le in *.
  destruct (time_ltb (ev_time a) (ev_time b)) eqn:Hab.
  { left. apply time_ltb_lt. exact Hab. }
  apply time_ltb_ge in Hab.
  destruct (time_ltb (ev_time b) (ev_time a)) eqn:Hba.
  { exfalso. apply Hn. left. apply time_ltb_lt. exact Hba. }
  apply time_ltb_ge in Hba.
  right. split; [exact Hba | split; [exact Hab|]].
  destruct (Z.lt_trichotomy (ev_row a) (ev_row b)) as [?|[?|?]]; try lia.
  - destruct (Z.le_gt_cases (ev_col a) (ev_col b)); [lia|].
    exfalso. apply Hn. right. split; [assumption | split; [assumption | lia]].
  - exfalso. apply Hn. right. split; [assumption | split; [assumption | lia]].
Qed.

Lemma extract_min_perm (e : event) (pq : list event) :
  (extract_min e pq).1 :: (extract_min e pq).2 ≡ₚ e :: pq.
Proof.
  revert e. induction pq as [|x pq IH]; intros e; simpl; [reflexivity|].
  specialize (IH x). destruct (extract_min x pq) as [m rest]. simpl in *.
  destruct (event_ltb m e); simpl; [|reflexivity].
  rewrite Permutation_swap. f_equiv. exact IH.
Qed.

Lemma extract_min_least (e : event) (pq : list event) :
  Forall (event_le (extract_min e pq).1) (e :: pq).
Proof.
  revert e. induction pq as [|x pq IH]; intros e; simpl.
  - constructor; [apply event_le_refl | constructor].
  - specialize (IH x). destruct (extract_min x pq) as [m rest]. simpl in *.
    destruct (event_ltb m e) eqn:Hlt; simpl.
    + constructor; [apply event_ltb_le; exact Hlt | exact IH].
    + constructor; [apply event_le_refl|].
      eapply Forall_impl; [exact IH|]. intros y Hy. simpl in Hy.
      eapply event_le_trans; [exact Hlt | exact Hy].
Qed.

(** What [heapq] promises of [heappop], and all the model relies on: the
    queue is the popped item and the rest, and the popped item is least. *)
Lemma heappop_spec (pq rest : list event) (m : event) :
  heappop pq = Ok (m, rest) ->
  pq ≡ₚ m :: rest /\ Forall (event_le m) pq.
Proof.
  destruct pq as [|e pq]; simpl; [discriminate|]. intros [= Hm].
  pose proof (extract_min_perm e pq) as Hp.
  pose proof (extract_min_least e pq) as Hl.
  rewrite Hm in Hp, Hl. simpl in *. split; [symmetry; exact Hp | exact Hl].
Qed.

Lemma heappop_nonempty (pq : list event) :
  pq <> [] -> exists m rest, heappop pq = Ok (m, rest).
Proof.
  destruct pq as [|e pq]; [congruence|]. intros _. simpl.
  destruct (extract_min e pq) as [m rest]. eauto.
Qed.

(** ** Travel times *)

Lemma np_clip_range (x : Q) : (0.1 <= np_clip x 0.1 8.0 /\ np_clip x 0.1 8.0 <= 8.0)%Q.
Proof.
  unfold np_clip.
  destruct (Qltb x 0.1) eqn:H1.
  - destruct (Qltb 8.0 0.1) eqn:H2; [apply Qltb_lt in H2; lra|]. split; lra.
  - apply Qltb_ge in H1. destruct (Qltb 8.0 x) eqn:H2.
    + split; lra.
    + apply Qltb_ge in H2. split; lra.
Qed.

Lemma py_max_ge (a b : Q) : (a <= py_max a b)%Q.
Proof.
  unfold py_max. destruct (Qltb a b) eqn:H; [apply Qltb_lt in H|]; lra.
Qed.

Lemma base_rate_pos (f : Z) : f <> 3 -> (0.1 <= dict_get base_rates_table f 0.5)%Q.
Proof.
  intros Hf. unfold dict_get, base_rates_table.
  destruct (decide (f = 0)) as [->|H0]; [vm_compute; discriminate|].
  destruct (decide (f = 1)) as [->|H1]; [vm_compute; discriminate|].
  destruct (decide (f = 2)) as [->|H2]; [vm_compute; discriminate|].
  rewrite !lookup_insert_ne by congruence.
  rewrite lookup_singleton_ne by congruence. simpl. lra.
Qed.

Lemma neighbors_dist_mult (dr dc : Z) (dm : Q) :
  (dr, dc, dm) ∈ neighbors -> (1 <= dm)%Q.
Proof.
  unfold neighbors. rewrite !elem_of_cons, elem_of_nil.
  intros H. repeat (destruct H as [H|H]; [inversion H; subst; lra|]). contradiction.
Qed.

(** Every edge takes a positive time: the rate is at least
    [0.1 * 0.1 * 0.1]. *)
Lemma travel_time_pos (L : Libm) (self : FireModel) (f : Z) (e0 e1 : Q)
    (dr dc : Z) (dm : Q) :
  wf_model self -> (0 < cell_size self)%Q -> f <> 3 -> (1 <= dm)%Q ->
  (0 < travel_time L self f e0 e1 dr dc dm)%Q.
Proof.
  intros Hwf Hcs Hf Hdm. unfold travel_time.
  rewrite (wf_base_rates _ Hwf).
  pose proof (base_rate_pos f Hf) as Hb.
  set (b := dict_get base_rates_table f 0.5) in *.
  match goal with |- context [np_clip ?x _ _] =>
    pose proof (np_clip_range x) as [Hs _]; set (s := np_clip x 0.1 8.0) in * end.
  match goal with |- context [if ?c then ?x else ?y] =>
    assert (Hw : (0.1 <= (if c then x else y))%Q);
    [ destruct c; [apply py_max_ge | lra] | set (w := if c then x else y) in * ] end.
  assert (Hbs : (0 < b * s)%Q) by nra.
  assert (Hrate : (0 < b * s * w)%Q) by nra.
  apply Qlt_shift_div_l; [exact Hrate|]. nra.
Qed.

(** ** One pass of the loop *)

Lemma bind_Ok {A B} (f : A -> result B) (a : A) : (Ok a ≫= f) = f a.
Proof. reflexivity. Qed.

Lemma bind_Raise {A B} (f : A -> result B) (e : exn) : (Raise e ≫= f) = Raise e.
Proof. reflexivity. Qed.

Ltac bind_step := rewrite ?bind_Ok, ?bind_Raise; cbv beta iota.

Section Steps.

Context {G : Type}.
Variable R : Generator G.
Variable L : Libm.
Variable self : FireModel.
Variable max_time : time.

(** [e] is pushed by the relaxation of a neighbour of the cell of [e0]. *)
Definition relax_event (visited : ndarray bool) (e0 e : event) : Prop :=
  exists dr dc dm f elev0 elev,
    (dr, dc, dm) ∈ neighbors
    /\ ev_row e = ev_row e0 + dr /\ ev_col e = ev_col e0 + dc
    /\ cell visited (ev_row e) (ev_col e) = Some false
    /\ cell (fuel self) (ev_row e) (ev_col e) = Some f /\ f <> 3
    /\ cell (elevation self) (ev_row e0) (ev_col e0) = Some elev0
    /\ cell (elevation self) (ev_row e) (ev_col e) = Some elev
    /\ ev_time e = time_add (ev_time e0) (travel_time L self f elev0 elev dr dc dm).

(** [e] is a spot fire thrown from the cell of [e0]. *)
Definition ember_event (e0 e : event) : Prop :=
  cell (fuel self) (ev_row e0) (ev_col e0) = Some 2
  /\ (5 < wind_speed self)%Q
  /\ exists f g,
       cell (fuel self) (ev_row e) (ev_col e) = Some f /\ (f = 1 \/ f = 2)
       /\ ev_time e = time_add (ev_time e0) (10.0 + (gen_random R g).1 * 20.0).

(** A run of the guarded assignment-and-push
    [if t < ignition_time[r, c]: ignition_time[r, c] = t; heappush(pq, (t, r, c))],
    each event being of kind [K]. *)
Inductive updates (K : event -> Prop)
  : list (list time) * list event -> list (list time) * list event -> Prop :=
| updates_refl acc : updates K acc acc
| updates_step ign pq e old acc' :
    K e ->
    in_bounds self (ev_row e) (ev_col e) = true ->
    cell ign (ev_row e) (ev_col e) = Some old ->
    time_lt (ev_time e) old ->
    updates K (update ign (ev_row e) (ev_col e) (ev_time e), e :: pq) acc' ->
    updates K (ign, pq) acc'.

Lemma updates_trans K a b c : updates K a b -> updates K b c -> updates K a c.
Proof.
  induction 1; intros Hc; [exact Hc|].
  eapply updates_step; eauto.
Qed.

Lemma updates_mono (K K' : event -> Prop) a b :
  (forall e, K e -> K' e) -> updates K a b -> updates K' a b.
Proof.
  intros HK. induction 1; [apply updates_refl|].
  eapply updates_step; eauto.
Qed.

Lemma updates_one K ign pq e old :
  K e -> in_bounds self (ev_row e) (ev_col e) = true ->
  cell ign (ev_row e) (ev_col e) = Some old -> time_lt (ev_time e) old ->
  updates K (ign, pq) (update ign (ev_row e) (ev_col e) (ev_time e), e :: pq).
Proof. intros. eapply updates_step; eauto. apply updates_refl. Qed.

Lemma relax_updates visited t0 r0 c0 elev0 acc acc' nb :
  relax L self visited t0 r0 c0 elev0 acc nb = Ok acc' ->
  nb ∈ neighbors ->
  cell (elevation self) r0 c0 = Some elev0 ->
  updates (relax_event visited (t0, r0, c0)) acc acc'.
Proof.
  destruct acc as [ign pq], nb as [[dr dc] dm]. unfold relax.
  intros H Hnb Hel.
  destruct (in_bounds self (r0 + dr) (c0 + dc)) eqn:Hb;
    [|inversion H; apply updates_refl].
  pose proof Hb as Hb'. apply in_bounds_spec in Hb'.
  rewrite !getitem_cell in H by lia.
  destruct (cell visited (r0 + dr) (c0 + dc)) as [[|]|] eqn:Hv; simpl in H;
    [inversion H; apply updates_refl | | discriminate].
  destruct (cell (fuel self) (r0 + dr) (c0 + dc)) as [f|] eqn:Hf; simpl in H;
    [|discriminate].
  destruct (Z.eqb_spec f 3) as [->|Hf3]; [inversion H; apply updates_refl|].
  destruct (cell (elevation self) (r0 + dr) (c0 + dc)) as [elev|] eqn:He; simpl in H;
    [|discriminate].
  destruct (cell ign (r0 + dr) (c0 + dc)) as [old|] eqn:Ho; simpl in H; [|discriminate].
  destruct (time_ltb _ old) eqn:Hlt; [|inversion H; apply updates_refl].
  rewrite setitem_cell in H by lia. rewrite Ho in H. simpl in H. inversion H; subst.
  apply time_ltb_lt in Hlt.
  apply (updates_one _ ign pq
           (time_add t0 (travel_time L self f elev0 elev dr dc dm), r0 + dr, c0 + dc) old);
    try assumption.
  exists dr, dc, dm, f, elev0, elev. simpl. repeat split; assumption.
Qed.

Lemma foldM_relax_updates visited t0 r0 c0 elev0 nbs acc acc' :
  foldM (relax L self visited t0 r0 c0 elev0) acc nbs = Ok acc' ->
  nbs ⊆ neighbors ->
  cell (elevation self) r0 c0 = Some elev0 ->
  updates (relax_event visited (t0, r0, c0)) acc acc'.
Proof.
  revert acc. induction nbs as [|nb nbs IH]; intros acc H Hsub Hel; simpl in H.
  - inversion H. apply updates_refl.
  - destruct (relax L self visited t0 r0 c0 elev0 acc nb) as [acc1|] eqn:H1;
      simpl in H; [|discriminate].
    eapply updates_trans.
    + eapply relax_updates; eauto. apply Hsub. left.
    + apply IH; auto. intros x Hx. apply Hsub. right. exact Hx.
Qed.

Lemma ember_spotting_updates t0 r0 c0 ign pq g ign' pq' g' :
  ember_spotting R L self t0 r0 c0 ign pq g = Ok (ign', pq', g') ->
  0 <= r0 -> 0 <= c0 ->
  updates (ember_event (t0, r0, c0)) (ign, pq) (ign', pq')
  /\ (g' = g \/ (cell (fuel self) r0 c0 = Some 2 /\ (5 < wind_speed self)%Q)).
Proof.
  unfold ember_spotting. intros H Hr Hc.
  rewrite getitem_cell in H by lia.
  destruct (cell (fuel self) r0 c0) as [fh|] eqn:Hfh; simpl in H; [|discriminate].
  destruct (Z.eqb_spec fh 2) as [->|Hne]; simpl in H;
    [|inversion H; split; [apply updates_refl | left; reflexivity]].
  destruct (Qltb 5.0 (wind_speed self)) eqn:Hws; simpl in H;
    [|inversion H; split; [apply updates_refl | left; reflexivity]].
  apply Qltb_lt in Hws.
  assert (Hws' : (5 < wind_speed self)%Q) by lra.
  split; [|right; split; [reflexivity | exact Hws']].
  destruct (gen_random R g) as [u g1].
  destruct (Qltb u 0.02); [|inversion H; apply updates_refl].
  destruct (spot_dist_px R self g1) as [[d g2]|] eqn:Hd; simpl in H; [|discriminate].
  destruct (gen_normal R 0 0.3 g2) as [z g3].
  destruct (gen_random R g3) as [u' g4] eqn:Hu'.
  match type of H with context [in_bounds self ?a ?b] =>
    set (sp_r := a) in *; set (sp_c := b) in * end.
  destruct (in_bounds self sp_r sp_c) eqn:Hb; [|inversion H; apply updates_refl].
  pose proof Hb as Hb'. apply in_bounds_spec in Hb'.
  rewrite !getitem_cell in H by lia.
  destruct (cell (fuel self) sp_r sp_c) as [f|] eqn:Hf; simpl in H; [|discriminate].
  destruct ((f =? 1) || (f =? 2)) eqn:Hf12; [|inversion H; apply updates_refl].
  destruct (cell ign sp_r sp_c) as [old|] eqn:Ho; simpl in H; [|discriminate].
  destruct (time_ltb _ old) eqn:Hlt; [|inversion H; apply updates_refl].
  rewrite setitem_cell in H by lia. rewrite Ho in H. simpl in H. inversion H; subst.
  apply time_ltb_lt in Hlt.
  apply (updates_one _ ign pq (time_add t0 (10.0 + u' * 20.0), sp_r, sp_c) old);
    try assumption.
  split; [exact Hfh | split; [exact Hws'|]].
  exists f, g3. simpl. rewrite Hu'. simpl.
  split; [exact Hf | split; [|reflexivity]].
  apply orb_true_iff in Hf12. rewrite !Z.eqb_eq in Hf12. exact Hf12.
Qed.

(** The three ways a pass of the loop ends without raising. *)
Variant body_case (st : loop_state G) : control -> loop_state G -> Prop :=
| body_stop e pq1 :
    heappop (ls_pq st) = Ok (e, pq1) ->
    time_lt max_time (ev_time e) ->
    body_case st Stop
      {| ls_ignition_time := ls_ignition_time st; ls_visited := ls_visited st;
         ls_pq := pq1; ls_rng := ls_rng st; ls_popped := e :: ls_popped st |}
| body_stale e pq1 :
    heappop (ls_pq st) = Ok (e, pq1) ->
    time_le (ev_time e) max_time ->
    cell (ls_visited st) (ev_row e) (ev_col e) = Some true ->
    body_case st Next
      {| ls_ignition_time := ls_ignition_time st; ls_visited := ls_visited st;
         ls_pq := pq1; ls_rng := ls_rng st; ls_popped := e :: ls_popped st |}
| body_settle e pq1 elev0 ign1 pq2 ign' pq' g' :
    heappop (ls_pq st) = Ok (e, pq1) ->
    time_le (ev_time e) max_time ->
    cell (ls_visited st) (ev_row e) (ev_col e) = Some false ->
    cell (elevation self) (ev_row e) (ev_col e) = Some elev0 ->
    foldM (relax L self (update (ls_visited st) (ev_row e) (ev_col e) true)
             (ev_time e) (ev_row e) (ev_col e) elev0)
          (ls_ignition_time st, pq1) neighbors = Ok (ign1, pq2) ->
    ember_spotting R L self (ev_time e) (ev_row e) (ev_col e) ign1 pq2 (ls_rng st)
      = Ok (ign', pq', g') ->
    body_case st Next
      {| ls_ignition_time := ign'; ls_visited := update (ls_visited st) (ev_row e) (ev_col e) true;
         ls_pq := pq'; ls_rng := g'; ls_popped := e :: ls_popped st |}.

(** The events of the queue name cells of the grid. *)
Definition pq_in_bounds (pq : list event) : Prop :=
  Forall (fun e => in_bounds self (ev_row e) (ev_col e) = true) pq.

Lemma heappop_in_bounds pq e pq1 :
  pq_in_bounds pq -> heappop pq = Ok (e, pq1) ->
  in_bounds self (ev_row e) (ev_col e) = true /\ pq_in_bounds pq1.
Proof.
  intros Hpq Hpop. apply heappop_spec in Hpop as [Hperm _].
  unfold pq_in_bounds in *. rewrite Hperm in Hpq.
  apply Forall_cons in Hpq. exact Hpq.
Qed.

Lemma loop_body_cases st ctl st' :
  pq_in_bounds (ls_pq st) ->
  loop_body R L self max_time st = Ok (ctl, st') ->
  body_case st ctl st'.
Proof.
  intros Hpq. unfold loop_body.
  destruct (heappop (ls_pq st)) as [[e pq1]|] eqn:Hpop; bind_step; [|discriminate].
  destruct (heappop_in_bounds _ _ _ Hpq Hpop) as [Hb _].
  apply in_bounds_spec in Hb.
  destruct e as [[t r] c]. unfold ev_row, ev_col in Hb. simpl in Hb.
  destruct (time_ltb max_time t) eqn:Hmax.
  { intros [= <- <-]. apply time_ltb_lt in Hmax.
    apply (body_stop st (t, r, c) pq1); assumption. }
  apply time_ltb_ge in Hmax.
  rewrite (getitem_cell (ls_visited st) r c) by lia.
  destruct (cell (ls_visited st) r c) as [[|]|] eqn:Hv; bind_step; [| |discriminate].
  { intros [= <- <-]. apply (body_stale st (t, r, c) pq1); assumption. }
  rewrite setitem_cell by lia. rewrite Hv. bind_step.
  rewrite (getitem_cell (elevation self) r c) by lia.
  destruct (cell (elevation self) r c) as [elev0|] eqn:He; bind_step; [|discriminate].
  destruct (foldM _ _ neighbors) as [[ign1 pq2]|] eqn:Hfold; bind_step; [|discriminate].
  destruct (ember_spotting _ _ _ _ _ _ _ _ _) as [[[ign' pq'] g']|] eqn:Hem; bind_step;
    [|discriminate].
  intros [= <- <-].
  apply (body_settle st (t, r, c) pq1 elev0 ign1 pq2 ign' pq' g'); assumption.
Qed.

End Steps.

(** ** Termination *)

(** The number of cells not yet settled. *)
Definition unsettled (a : list (list bool)) : nat :=
  length (filter (fun b => b = false) (concat a)).

Lemma unsettled_le_size (a : list (list bool)) : (unsettled a <= np_size a)%nat.
Proof. unfold unsettled, np_size. apply length_filter. Qed.

Lemma unsettled_insert (a : list (list bool)) (i j : nat) (row : list bool) :
  a !! i = Some row -> row !! j = Some false ->
  S (unsettled (<[i := <[j := true]> row]> a)) = unsettled a.
Proof.
  intros Hi Hj.
  apply list_elem_of_split_length in Hi as (l1 & l2 & -> & ->).
  apply list_elem_of_split_length in Hj as (r1 & r2 & -> & ->).
  replace (length l1) with (length l1 + 0)%nat by lia.
  replace (length r1) with (length r1 + 0)%nat at 1 by lia.
  rewrite !insert_app_r. simpl. unfold unsettled.
  rewrite !concat_app. simpl. rewrite !filter_app.
  rewrite filter_cons_False by discriminate.
  rewrite (filter_cons_True _ false) by reflexivity.
  rewrite !length_app. simpl. lia.
Qed.

Lemma setitem_settles (a a' : list (list bool)) (r c : Z) :
  getitem a r c = Ok false -> setitem a r c true = Ok a' ->
  S (unsettled a') = unsettled a.
Proof.
  unfold getitem, setitem.
  destruct (py_index (length a) r) as [i|]; simpl; [|discriminate].
  destruct (a !! i) as [row|] eqn:Hi; [|discriminate].
  destruct (py_index (length row) c) as [j|]; simpl; [|discriminate].
  destruct (row !! j) as [x|] eqn:Hj; [|discriminate].
  intros [= ->] [= <-]. apply unsettled_insert; assumption.
Qed.

Section Termination.

Context {G : Type}.
Variable R : Generator G.
Variable L : Libm.
Variable self : FireModel.
Variable max_time : time.

Lemma relax_length visited t0 r0 c0 elev0 ign pq nb ign' pq' :
  relax L self visited t0 r0 c0 elev0 (ign, pq) nb = Ok (ign', pq') ->
  (length pq' <= S (length pq))%nat.
Proof.
  destruct nb as [[dr dc] dm]. unfold relax.
  destruct (in_bounds self _ _); [|intros [= <- <-]; lia].
  destruct (getitem visited _ _) as [[|]|]; bind_step;
    [intros [= <- <-]; lia | | discriminate].
  destruct (getitem (fuel self) _ _) as [f|]; bind_step; [|discriminate].
  destruct (f =? 3); [intros [= <- <-]; lia|].
  destruct (getitem (elevation self) _ _) as [e|]; bind_step; [|discriminate].
  destruct (getitem ign _ _) as [old|]; bind_step; [|discriminate].
  destruct (time_ltb _ old); [|intros [= <- <-]; lia].
  destruct (setitem ign _ _ _); bind_step; [|discriminate].
  intros [= <- <-]. simpl. lia.
Qed.

Lemma foldM_relax_length visited t0 r0 c0 elev0 nbs ign pq ign' pq' :
  foldM (relax L self visited t0 r0 c0 elev0) (ign, pq) nbs = Ok (ign', pq') ->
  (length pq' <= length pq + length nbs)%nat.
Proof.
  revert ign pq. induction nbs as [|nb nbs IH]; intros ign pq; simpl.
  - intros [= <- <-]. lia.
  - destruct (relax L self visited t0 r0 c0 elev0 (ign, pq) nb) as [[ign1 pq1]|] eqn:H1;
      bind_step; [|discriminate].
    intros H2. apply relax_length in H1. apply IH in H2. lia.
Qed.

Lemma ember_spotting_length t0 r0 c0 ign pq g ign' pq' g' :
  ember_spotting R L self t0 r0 c0 ign pq g = Ok (ign', pq', g') ->
  (length pq' <= S (length pq))%nat.
Proof.
  unfold ember_spotting.
  destruct (getitem (fuel self) r0 c0) as [fh|]; bind_step; [|discriminate].
  destruct ((fh =? 2) && Qltb 5.0 (wind_speed self)); [|intros [= <- <- <-]; lia].
  destruct (gen_random R g) as [u g1].
  destruct (Qltb u 0.02); [|intros [= <- <- <-]; lia].
  destruct (spot_dist_px R self g1) as [[d g2]|]; bind_step; [|discriminate].
  destruct (gen_normal R 0 0.3 g2) as [z g3].
  destruct (gen_random R g3) as [u' g4].
  destruct (in_bounds self _ _); [|intros [= <- <- <-]; lia].
  destruct (getitem (fuel self) _ _) as [f|]; bind_step; [|discriminate].
  destruct ((f =? 1) || (f =? 2)); [|intros [= <- <- <-]; lia].
  destruct (getitem ign _ _) as [old|]; bind_step; [|discriminate].
  destruct (time_ltb _ old); [|intros [= <- <- <-]; lia].
  destruct (setitem ign _ _ _); bind_step; [|discriminate].
  intros [= <- <- <-]. simpl. lia.
Qed.

(** What is left to do: the queue, and nine events for every cell that is
    not settled. *)
Definition measure (st : loop_state G) : nat :=
  (length (ls_pq st) + 9 * unsettled (ls_visited st))%nat.

Lemma loop_body_measure st st' :
  loop_body R L self max_time st = Ok (Next, st') ->
  (measure st' < measure st)%nat.
Proof.
  unfold loop_body, measure.
  destruct (heappop (ls_pq st)) as [[e pq1]|] eqn:Hpop; bind_step; [|discriminate].
  apply heappop_spec in Hpop as [Hperm _].
  assert (Hlen : length (ls_pq st) = S (length pq1)) by (rewrite Hperm; reflexivity).
  destruct e as [[t r] c].
  destruct (time_ltb max_time t); [discriminate|].
  destruct (getitem (ls_visited st) r c) as [[|]|] eqn:Hv; bind_step;
    [intros [= <-]; simpl; lia | | discriminate].
  destruct (setitem (ls_visited st) r c true) as [visited|] eqn:Hset; bind_step;
    [|discriminate].
  destruct (getitem (elevation self) r c) as [elev0|]; bind_step; [|discriminate].
  destruct (foldM _ _ neighbors) as [[ign1 pq2]|] eqn:Hfold; bind_step; [|discriminate].
  destruct (ember_spotting _ _ _ _ _ _ _ _ _) as [[[ign' pq'] g']|] eqn:Hem; bind_step;
    [|discriminate].
  intros [= <-]. simpl.
  apply foldM_relax_length in Hfold. apply ember_spotting_length in Hem.
  pose proof (setitem_settles _ _ _ _ Hv Hset) as Hs.
  change (length neighbors) with 8%nat in Hfold. lia.
Qed.

Lemma while_loop_terminates n st :
  (measure st <= n)%nat -> while_loop R L self max_time n st <> None.
Proof.
  revert st. induction n as [|n IH]; intros st Hm; simpl.
  - destruct (ls_pq st) as [|e pq] eqn:Hpq; [discriminate|].
    unfold measure in Hm. rewrite Hpq in Hm. simpl in Hm. lia.
  - destruct (ls_pq st) as [|e pq] eqn:Hpq; [discriminate|].
    destruct (loop_body R L self max_time st) as [[[|] st']|] eqn:Hbody; try discriminate.
    apply IH. apply loop_body_measure in Hbody. lia.
Qed.

(** [run_simulation] returns or raises on every object, every horizon and
    every generator: the passes that [run_loop] allows are enough. *)
Lemma run_loop_terminates g : run_loop R L self max_time g <> None.
Proof.
  unfold run_loop. destruct (start_state self g) as [st|]; [|discriminate].
  apply while_loop_terminates. unfold measure, passes.
  pose proof (unsettled_le_size (ls_visited st)). lia.
Qed.

End Termination.

(** ** The queue at the start *)

Lemma elem_of_argwhere_row {A} (p : A -> bool) (r c0 : Z) (row : list A) (r' c' : Z) :
  (r', c') ∈ argwhere_row p r c0 row <->
  r' = r /\ c0 <= c' /\ exists x, row !! Z.to_nat (c' - c0) = Some x /\ p x = true.
Proof.
  revert c0. induction row as [|y row IH]; intros c0; simpl.
  - rewrite elem_of_nil. split; [contradiction|]. intros (_ & _ & x & Hx & _).
    rewrite lookup_nil in Hx. discriminate.
  - assert (Hrest : (r', c') ∈ argwhere_row p r (c0 + 1) row <->
                    r' = r /\ c0 < c' /\ exists x,
                      (y :: row) !! Z.to_nat (c' - c0) = Some x /\ p x = true).
    { rewrite IH. split.
      - intros (-> & Hc & x & Hx & Hp). split; [reflexivity|]. split; [lia|].
        exists x. split; [|exact Hp].
        replace (Z.to_nat (c' - c0)) with (S (Z.to_nat (c' - (c0 + 1)))) by lia.
        exact Hx.
      - intros (-> & Hc & x & Hx & Hp). split; [reflexivity|]. split; [lia|].
        exists x. split; [|exact Hp].
        replace (Z.to_nat (c' - c0)) with (S (Z.to_nat (c' - (c0 + 1)))) in Hx by lia.
        exact Hx. }
    destruct (p y) eqn:Hy.
    + rewrite elem_of_cons, Hrest. split.
      * intros [[= -> ->]|(-> & Hc & x & Hx & Hp)].
        -- split; [reflexivity|]. split; [lia|]. exists y.
           replace (Z.to_nat (c0 - c0)) with O by lia. split; [reflexivity | exact Hy].
        -- split; [reflexivity|]. split; [lia|]. eauto.
      * intros (-> & Hc & x & Hx & Hp).
        destruct (decide (c' = c0)) as [->|Hne]; [left; reflexivity|].
        right. split; [reflexivity|]. split; [lia|]. eauto.
    + rewrite Hrest. split.
      * intros (-> & Hc & x & Hx & Hp). split; [reflexivity|]. split; [lia|]. eauto.
      * intros (-> & Hc & x & Hx & Hp).
        destruct (decide (c' = c0)) as [->|Hne].
        -- replace (Z.to_nat (c0 - c0)) with O in Hx by lia. simpl in Hx.
           inversion Hx; subst. congruence.
        -- split; [reflexivity|]. split; [lia|]. eauto.
Qed.

Lemma elem_of_argwhere_from {A} (p : A -> bool) (r0 : Z) (a : list (list A)) (r c : Z) :
  (r, c) ∈ argwhere_from p r0 a <->
  r0 <= r /\ 0 <= c /\ exists row x,
    a !! Z.to_nat (r - r0) = Some row /\ row !! Z.to_nat c = Some x /\ p x = true.
Proof.
  revert r0. induction a as [|row0 a IH]; intros r0; simpl.
  - rewrite elem_of_nil. split; [contradiction|]. intros (_ & _ & row & x & Hrow & _).
    rewrite lookup_nil in Hrow. discriminate.
  - rewrite elem_of_app, elem_of_argwhere_row, IH. split.
    + intros [(-> & Hc & x & Hx & Hp)|(Hr & Hc & row & x & Hrow & Hx & Hp)].
      * split; [lia|]. split; [lia|]. exists row0, x.
        replace (Z.to_nat (r0 - r0)) with O by lia.
        replace (c - 0) with c in Hx by lia. auto.
      * split; [lia|]. split; [lia|]. exists row, x.
        replace (Z.to_nat (r - r0)) with (S (Z.to_nat (r - (r0 + 1)))) by lia. auto.
    + intros (Hr & Hc & row & x & Hrow & Hx & Hp).
      destruct (decide (r = r0)) as [->|Hne].
      * left. replace (Z.to_nat (r0 - r0)) with O in Hrow by lia. simpl in Hrow.
        inversion Hrow; subst. split; [reflexivity|]. split; [lia|]. exists x.
        replace (c - 0) with c by lia. auto.
      * right. split; [lia|]. split; [lia|]. exists row, x.
        replace (Z.to_nat (r - r0)) with (S (Z.to_nat (r - (r0 + 1)))) in Hrow by lia.
        auto.
Qed.

Lemma elem_of_np_argwhere {A} (p : A -> bool) (a : list (list A)) (r c : Z) :
  (r, c) ∈ np_argwhere p a <->
  0 <= r /\ 0 <= c /\ exists x, cell a r c = Some x /\ p x = true.
Proof.
  unfold np_argwhere. rewrite elem_of_argwhere_from. unfold cell.
  replace (r - 0) with r by lia. split.
  - intros (Hr & Hc & row & x & Hrow & Hx & Hp). split; [exact Hr|]. split; [exact Hc|].
    exists x. rewrite Hrow. simpl. auto.
  - intros (Hr & Hc & x & Hx & Hp). split; [exact Hr|]. split; [exact Hc|].
    destruct (a !! Z.to_nat r) as [row|]; simpl in Hx; [|discriminate]. eauto.
Qed.

(** An event of the start queue: a cell with its time, below [np.inf]. *)
Definition seed_event (self : FireModel) (e : event) : Prop :=
  0 <= ev_row e /\ 0 <= ev_col e
  /\ cell (ignition_time self) (ev_row e) (ev_col e) = Some (ev_time e)
  /\ time_lt (ev_time e) Infinity.

Lemma start_queue_fold (self : FireModel) (l : list (Z * Z)) (acc : list event) :
  (forall r c, (r, c) ∈ l -> 0 <= r /\ 0 <= c /\ is_Some (cell (ignition_time self) r c)) ->
  exists pq,
    foldM (fun pq '(r, c) => t ← getitem (ignition_time self) r c;
                             Ok (heappush pq (t, r, c))) acc l = Ok pq
    /\ forall e, e ∈ pq <->
         e ∈ acc \/ ((ev_row e, ev_col e) ∈ l
                     /\ cell (ignition_time self) (ev_row e) (ev_col e) = Some (ev_time e)).
Proof.
  revert acc. induction l as [|[r c] l IH]; intros acc Hl; simpl.
  - exists acc. split; [reflexivity|]. intros e. rewrite elem_of_nil. tauto.
  - destruct (Hl r c) as (Hr & Hc & t & Ht); [left|].
    rewrite getitem_cell by lia. rewrite Ht. bind_step.
    destruct (IH (heappush acc (t, r, c))) as (pq & Hpq & Hmem).
    { intros r' c' H'. apply Hl. right. exact H'. }
    exists pq. split; [exact Hpq|]. intros e. rewrite Hmem. unfold heappush.
    rewrite !elem_of_cons. split.
    + intros [[->|H]|H]; [|tauto|tauto]. right. unfold ev_row, ev_col, ev_time. simpl. auto.
    + intros [H|[[H|H] Hc']]; [tauto| |tauto].
      left. left. destruct e as [[t' r'] c']. unfold ev_row, ev_col, ev_time in *.
      simpl in *. inversion H; subst. congruence.
Qed.

(** The start queue is built without raising and holds exactly the cells
    with a time below [np.inf]. *)
Lemma start_queue_spec (self : FireModel) :
  exists pq, start_queue self = Ok pq /\ forall e, e ∈ pq <-> seed_event self e.
Proof.
  unfold start_queue.
  destruct (start_queue_fold self
              (np_argwhere (fun t => time_ltb t Infinity) (ignition_time self)) [])
    as (pq & Hpq & Hmem).
  { intros r c H. apply elem_of_np_argwhere in H as (Hr & Hc & x & Hx & _). eauto. }
  exists pq. split; [exact Hpq|]. intros e. rewrite Hmem, elem_of_nil, elem_of_np_argwhere.
  unfold seed_event. split.
  - intros [[]|((Hr & Hc & x & Hx & Hp) & Ht)]. rewrite Ht in Hx. inversion Hx; subst.
    apply time_ltb_lt in Hp. auto.
  - intros (Hr & Hc & Ht & Hlt). right. split; [|exact Ht].
    split; [exact Hr|]. split; [exact Hc|]. exists (ev_time e). split; [exact Ht|].
    apply time_ltb_lt. exact Hlt.
Qed.

(** ** Invariants of the loop *)

Section Invariants.

Context {G : Type}.
Variable R : Generator G.
Variable L : Libm.
Variable self : FireModel.
Variable max_time : time.
Hypothesis Hwf : wf_model self.

(** The states the loop goes through from [st0]; the [control] tells
    whether the loop goes on from the state. *)
Inductive steps (st0 : loop_state G) : control -> loop_state G -> Prop :=
| steps_start : steps st0 Next st0
| steps_next st ctl st' :
    steps st0 Next st ->
    ls_pq st <> [] ->
    loop_body R L self max_time st = Ok (ctl, st') ->
    steps st0 ctl st'.

Lemma while_loop_steps st0 n st r :
  steps st0 Next st ->
  while_loop R L self max_time n st = Some (Ok r) ->
  exists ctl, steps st0 ctl r /\ (ctl = Stop \/ ls_pq r = []).
Proof.
  revert st. induction n as [|n IH]; intros st Hst; simpl.
  - destruct (ls_pq st) eqn:Hpq; [|discriminate].
    intros [= <-]. exists Next. auto.
  - destruct (ls_pq st) as [|e pq] eqn:Hpq.
    { intros [= <-]. exists Next. auto. }
    destruct (loop_body R L self max_time st) as [[[|] st']|] eqn:Hbody.
    + apply IH. eapply steps_next; eauto. congruence.
    + intros [= <-]. exists Stop. split; [|auto].
      eapply steps_next; eauto. congruence.
    + discriminate.
Qed.

(** The arrays keep their shape and the queue names cells of the grid. *)
Record basic_inv (st : loop_state G) : Prop := {
  bi_ignition_time : has_shape (ls_ignition_time st) (rows self) (cols self);
  bi_visited : has_shape (ls_visited st) (rows self) (cols self);
  bi_pq : pq_in_bounds self (ls_pq st)
}.

Lemma updates_basic K acc acc' :
  updates self K acc acc' ->
  has_shape acc.1 (rows self) (cols self) -> pq_in_bounds self acc.2 ->
  has_shape acc'.1 (rows self) (cols self) /\ pq_in_bounds self acc'.2.
Proof.
  induction 1 as [|ign pq e old acc' HK Hb Hold Hlt _ IH]; intros Hs Hpq; [auto|].
  simpl in *. apply IH.
  - apply update_shape. exact Hs.
  - constructor; assumption.
Qed.

(** The assignments of one settling pass. *)
Lemma settle_updates (st : loop_state G) e pq1 elev0 ign1 pq2 ign' pq' g' :
  in_bounds self (ev_row e) (ev_col e) = true ->
  cell (elevation self) (ev_row e) (ev_col e) = Some elev0 ->
  foldM (relax L self (update (ls_visited st) (ev_row e) (ev_col e) true)
           (ev_time e) (ev_row e) (ev_col e) elev0)
        (ls_ignition_time st, pq1) neighbors = Ok (ign1, pq2) ->
  ember_spotting R L self (ev_time e) (ev_row e) (ev_col e) ign1 pq2 (ls_rng st)
    = Ok (ign', pq', g') ->
  updates self
    (fun x => relax_event L self (update (ls_visited st) (ev_row e) (ev_col e) true) e x
              \/ ember_event R self e x)
    (ls_ignition_time st, pq1) (ign', pq').
Proof.
  intros Hb Hel Hfold Hem. apply in_bounds_spec in Hb.
  apply foldM_relax_updates in Hfold; [|reflexivity|exact Hel].
  apply ember_spotting_updates in Hem as [Hem _]; try lia.
  destruct e as [[t r] c].
  eapply updates_trans.
  - eapply updates_mono; [|exact Hfold]. intros x Hx. left. exact Hx.
  - eapply updates_mono; [|exact Hem]. intros x Hx. right. exact Hx.
Qed.

Lemma body_case_basic st ctl st' :
  basic_inv st -> body_case R L self max_time st ctl st' -> basic_inv st'.
Proof.
  intros [Hi Hv Hpq] Hcase.
  destruct Hcase as [e pq1 Hpop Hmax | e pq1 Hpop Hmax Hvis
                    | e pq1 elev0 ign1 pq2 ign' pq' g' Hpop Hmax Hvis Hel Hfold Hem];
    destruct (heappop_in_bounds self _ _ _ Hpq Hpop) as [Hb Hpq1].
  - split; assumption.
  - split; assumption.
  - pose proof (settle_updates st e pq1 elev0 ign1 pq2 ign' pq' g' Hb Hel Hfold Hem) as Hu.
    apply updates_basic in Hu as [Hi' Hpq']; [|exact Hi|exact Hpq1].
    split; simpl; [exact Hi' | apply update_shape; exact Hv | exact Hpq'].
Qed.

Lemma steps_basic st0 ctl st :
  basic_inv st0 -> steps st0 ctl st -> basic_inv st.
Proof.
  intros H0. induction 1 as [|st ctl st' _ IH Hne Hbody]; [exact H0|].
  eapply body_case_basic; [exact IH|].
  apply loop_body_cases; [apply (bi_pq _ IH) | exact Hbody].
Qed.

(** The induction principle for the properties below. *)
Lemma steps_invariant (P : loop_state G -> Prop) st0 :
  basic_inv st0 -> P st0 ->
  (forall st ctl st', basic_inv st -> P st ->
     body_case R L self max_time st ctl st' -> P st') ->
  forall ctl st, steps st0 ctl st -> P st.
Proof.
  intros H0 HP0 Hstep ctl st Hsteps.
  induction Hsteps as [|st ctl st' Hst IH Hne Hbody]; [exact HP0|].
  pose proof (steps_basic _ _ _ H0 Hst) as Hb.
  eapply Hstep; [exact Hb | exact IH|].
  apply loop_body_cases; [apply (bi_pq _ Hb) | exact Hbody].
Qed.

Lemma seed_event_in_bounds e :
  seed_event self e -> in_bounds self (ev_row e) (ev_col e) = true.
Proof.
  intros (Hr & Hc & Ht & _). apply in_bounds_spec.
  pose proof (proj1 (cell_is_Some _ _ _ _ _ (wf_ignition_time _ Hwf) Hr Hc)
                (ex_intro _ _ Ht)). lia.
Qed.

Lemma visited0_shape : has_shape (visited0 self) (rows self) (cols self).
Proof.
  destruct (wf_burnt _ Hwf) as [Hlen Hall]. unfold visited0. split.
  - rewrite length_map. exact Hlen.
  - apply Forall_fmap. eapply Forall_impl; [exact Hall|].
    intros row Hrow. simpl. rewrite length_map. exact Hrow.
Qed.

Lemma cell_visited0 r c x : cell (visited0 self) r c = Some x -> x = false.
Proof.
  unfold cell, visited0. rewrite list_lookup_fmap.
  destruct (burnt self !! Z.to_nat r) as [row|]; simpl; [|discriminate].
  rewrite list_lookup_fmap. destruct (row !! Z.to_nat c); simpl; [|discriminate].
  congruence.
Qed.

(** The loop is always entered, in a state that meets [basic_inv]. *)
Lemma start_state_spec (g : G) :
  exists pq, start_state self g
             = Ok {| ls_ignition_time := ignition_time self; ls_visited := visited0 self;
                     ls_pq := pq; ls_rng := g; ls_popped := [] |}
          /\ (forall e, e ∈ pq <-> seed_event self e).
Proof.
  unfold start_state. destruct (start_queue_spec self) as (pq & Hpq & Hmem).
  exists pq. rewrite Hpq. split; [reflexivity | exact Hmem].
Qed.

Lemma start_state_basic (g : G) st : start_state self g = Ok st -> basic_inv st.
Proof.
  destruct (start_state_spec g) as (pq & Hst & Hmem). rewrite Hst. intros [= <-].
  split; simpl.
  - apply (wf_ignition_time _ Hwf).
  - apply visited0_shape.
  - apply Forall_forall. intros e He. apply seed_event_in_bounds. apply Hmem. exact He.
Qed.

End Invariants.

(** ** The order of the pops *)

Section PopOrder.

Context {G : Type}.
Variable R : Generator G.
Variable L : Libm.
Variable self : FireModel.
Variable max_time : time.
Hypothesis Hwf : wf_model self.
Hypothesis Hcell : (0 < cell_size self)%Q.
Hypothesis HR : GeneratorSpec R.

(** An event pushed while the cell of [e] is settled lies strictly later
    than [e]. *)
Lemma pushed_event_later visited e x :
  relax_event L self visited e x \/ ember_event R self e x ->
  exists d, (0 < d)%Q /\ ev_time x = time_add (ev_time e) d.
Proof.
  intros [(dr & dc & dm & f & elev0 & elev & Hnb & _ & _ & _ & _ & Hf & _ & _ & Ht)
         |(_ & _ & f & g & _ & _ & Ht)].
  - eexists. split; [|exact Ht].
    apply travel_time_pos; try assumption. eapply neighbors_dist_mult. exact Hnb.
  - eexists. split; [|exact Ht].
    pose proof (gen_random_range R HR g) as [H0 _]. lra.
Qed.

Lemma updates_pq K acc acc' :
  updates self K acc acc' ->
  forall x, x ∈ acc'.2 -> x ∈ acc.2 \/ K x.
Proof.
  induction 1 as [|ign pq e old acc' HK Hb Hold Hlt _ IH]; intros x Hx; [auto|].
  destruct (IH x Hx) as [H|H]; [|auto]. simpl in H.
  apply elem_of_cons in H as [->|H]; auto.
Qed.

(** Chronological order of the pops, and no pending event earlier than a
    pop. *)
Definition pop_inv (st : loop_state G) : Prop :=
  StronglySorted (fun a b => time_le (ev_time a) (ev_time b)) (reverse (ls_popped st))
  /\ forall p e, p ∈ ls_popped st -> e ∈ ls_pq st -> time_le (ev_time p) (ev_time e).

Lemma pop_inv_pop (st : loop_state G) e pq1 :
  pop_inv st -> heappop (ls_pq st) = Ok (e, pq1) ->
  StronglySorted (fun a b => time_le (ev_time a) (ev_time b)) (reverse (e :: ls_popped st))
  /\ forall p x, p ∈ e :: ls_popped st -> x ∈ pq1 -> time_le (ev_time p) (ev_time x).
Proof.
  intros [Hsorted Hle] Hpop. apply heappop_spec in Hpop as [Hperm Hmin].
  assert (He : e ∈ ls_pq st) by (rewrite Hperm; left).
  split.
  - rewrite reverse_cons. apply StronglySorted_app. split; [|split].
    + intros p x Hp Hx. apply list_elem_of_singleton in Hx as ->.
      apply Hle; [|exact He]. apply elem_of_reverse. exact Hp.
    + exact Hsorted.
    + repeat constructor.
  - intros p x Hp Hx.
    assert (Hx' : x ∈ ls_pq st) by (rewrite Hperm; right; exact Hx).
    apply elem_of_cons in Hp as [->|Hp].
    + apply event_le_time. rewrite Forall_forall in Hmin. apply Hmin. exact Hx'.
    + apply Hle; assumption.
Qed.

Lemma pop_inv_step st ctl st' :
  basic_inv self st -> pop_inv st ->
  body_case R L self max_time st ctl st' -> pop_inv st'.
Proof.
  intros Hbasic Hinv Hcase.
  destruct Hcase as [e pq1 Hpop Hmax | e pq1 Hpop Hmax Hvis
                    | e pq1 elev0 ign1 pq2 ign' pq' g' Hpop Hmax Hvis Hel Hfold Hem];
    destruct (pop_inv_pop st e pq1 Hinv Hpop) as [Hs Hle];
    try (split; assumption).
  destruct (heappop_in_bounds self _ _ _ (bi_pq _ _ Hbasic) Hpop) as [Hb _].
  pose proof (settle_updates R L self st e pq1 elev0 ign1 pq2 ign' pq' g' Hb Hel Hfold Hem)
    as Hu.
  split; [exact Hs|]. simpl. intros p x Hp Hx.
  destruct (updates_pq _ _ _ Hu x Hx) as [Hold|Hnew]; [apply Hle; assumption|].
  destruct (pushed_event_later _ e x Hnew) as (d & Hd & Ht).
  apply time_le_trans with (ev_time e).
  - apply elem_of_cons in Hp as [->|Hp]; [apply time_le_refl|].
    destruct Hinv as [_ Hinv]. apply Hinv; [exact Hp|].
    apply heappop_spec in Hpop as [Hperm _]. rewrite Hperm. left.
  - rewrite Ht. apply time_add_le. lra.
Qed.

Lemma steps_pop_inv (g : G) (st0 : loop_state G) ctl st :
  start_state self g = Ok st0 ->
  steps R L self max_time st0 ctl st ->
  pop_inv st.
Proof.
  intros Hstart Hsteps.
  pose proof (start_state_basic self Hwf g st0 Hstart) as Hb0.
  assert (H0 : pop_inv st0).
  { destruct (start_state_spec self g) as (pq & Hst & _).
    rewrite Hst in Hstart. inversion Hstart; subst. split; simpl.
    - constructor.
    - intros p e Hp. apply elem_of_nil in Hp. contradiction. }
  apply (steps_invariant R L self max_time pop_inv st0 Hb0 H0 pop_inv_step ctl st Hsteps).
Qed.

(** C7: in every run from the start state, with or without ember events,
    the events are popped in non-decreasing order of time.  The object is
    well formed with a positive cell size, and the generator draws
    [random()] from [[0, 1)]. *)
Theorem pop_times_nondecreasing (g : G) (st0 : loop_state G) ctl st :
  start_state self g = Ok st0 ->
  steps R L self max_time st0 ctl st ->
  StronglySorted (fun a b => time_le (ev_time a) (ev_time b)) (reverse (ls_popped st)).
Proof.
  intros Hstart Hsteps.
  pose proof (start_state_basic self Hwf g st0 Hstart) as Hb0.
  assert (H0 : pop_inv st0).
  { destruct (start_state_spec self g) as (pq & Hst & _).
    rewrite Hst in Hstart. inversion Hstart; subst. split; simpl.
    - constructor.
    - intros p e Hp. apply elem_of_nil in Hp. contradiction. }
  apply (steps_invariant R L self max_time pop_inv st0 Hb0 H0 pop_inv_step ctl st Hsteps).
Qed.

End PopOrder.

Section Runs.

Context {G : Type}.
Variable R : Generator G.
Variable L : Libm.
Variable self : FireModel.
Variable max_time : time.

(** A finished run went through [steps] from the start state, and ended on
    [break] or on an empty queue. *)
Lemma run_loop_steps (g : G) (st : loop_state G) :
  run_loop R L self max_time g = Some (Ok st) ->
  exists st0 ctl, start_state self g = Ok st0
    /\ steps R L self max_time st0 ctl st
    /\ (ctl = Stop \/ ls_pq st = []).
Proof.
  unfold run_loop. destruct (start_state self g) as [st0|] eqn:Hstart; [|discriminate].
  intros Hloop. apply (while_loop_steps R L self max_time st0) in Hloop as (ctl & Hs & Hend).
  - exists st0, ctl. auto.
  - apply steps_start.
Qed.

(** Every pass that does not raise pops one event. *)
Lemma loop_body_pops (st st' : loop_state G) ctl :
  loop_body R L self max_time st = Ok (ctl, st') ->
  exists e pq1, heappop (ls_pq st) = Ok (e, pq1) /\ ls_popped st' = e :: ls_popped st.
Proof.
  unfold loop_body.
  destruct (heappop (ls_pq st)) as [[e pq1]|] eqn:Hpop; bind_step; [|discriminate].
  intros H. exists e, pq1. split; [reflexivity|].
  destruct e as [[t r] c].
  destruct (time_ltb max_time t); [inversion H; reflexivity|].
  destruct (getitem (ls_visited st) r c) as [[|]|]; revert H; bind_step;
    [intros [= <- <-]; reflexivity | | discriminate].
  destruct (setitem (ls_visited st) r c true); bind_step; [|discriminate].
  destruct (getitem (elevation self) r c); bind_step; [|discriminate].
  destruct (foldM _ _ neighbors) as [[ign1 pq2]|]; bind_step; [|discriminate].
  destruct (ember_spotting _ _ _ _ _ _ _ _ _) as [[[ign' pq'] g']|]; bind_step;
    [|discriminate].
  intros [= <- <-]. reflexivity.
Qed.

(** C10: the event a pass pops is a pending event, and of the pending
    events that carry the same time ([==]) it has the least row and, in
    that row, the least column. *)
Theorem equal_times_pop_row_major (st st' : loop_state G) ctl :
  loop_body R L self max_time st = Ok (ctl, st') ->
  exists e, ls_popped st' = e :: ls_popped st
    /\ e ∈ ls_pq st
    /\ forall e', e' ∈ ls_pq st -> time_eqb (ev_time e) (ev_time e') = true ->
         ev_row e < ev_row e' \/ (ev_row e = ev_row e' /\ ev_col e <= ev_col e').
Proof.
  intros Hbody. destruct (loop_body_pops st st' ctl Hbody) as (e & pq1 & Hpop & Hpopped).
  exists e. split; [exact Hpopped|].
  apply heappop_spec in Hpop as [Hperm Hmin]. split.
  - rewrite Hperm. left.
  - intros e' He' Heq. rewrite Forall_forall in Hmin. specialize (Hmin e' He').
    apply event_le_spec in Hmin as [Hlt|(_ & _ & Hcell)]; [|exact Hcell].
    apply time_eqb_eq in Heq as [_ Hle]. contradiction.
Qed.

End Runs.

(** ** Two runs side by side *)

Section Lockstep.

Context {G G' : Type}.
Variable R : Generator G.
Variable R' : Generator G'.
Variable L : Libm.
Variable self : FireModel.
Variable max_time : time.

(** How the states of the two generators are related. *)
Variable sim : G -> G' -> Prop.

Definition state_rel (st : loop_state G) (st' : loop_state G') : Prop :=
  ls_ignition_time st = ls_ignition_time st'
  /\ ls_visited st = ls_visited st'
  /\ ls_pq st = ls_pq st'
  /\ ls_popped st = ls_popped st'
  /\ sim (ls_rng st) (ls_rng st').

Definition ember_rel (x : result (list (list time) * list event * G))
    (y : result (list (list time) * list event * G')) : Prop :=
  match x, y with
  | Ok (ign, pq, g), Ok (ign', pq', g') => ign = ign' /\ pq = pq' /\ sim g g'
  | Raise e, Raise e' => e = e'
  | _, _ => False
  end.

(** Spotting from the cell [(r, c)] goes the same way under both
    generators. *)
Definition ember_ok (r c : Z) : Prop :=
  forall t ign pq g g', sim g g' ->
    ember_rel (ember_spotting R L self t r c ign pq g)
              (ember_spotting R' L self t r c ign pq g').

Definition body_rel (x : result (control * loop_state G))
    (y : result (control * loop_state G')) : Prop :=
  match x, y with
  | Ok (c, st), Ok (c', st') => c = c' /\ state_rel st st'
  | Raise e, Raise e' => e = e'
  | _, _ => False
  end.

Definition loop_rel (x : option (result (loop_state G)))
    (y : option (result (loop_state G'))) : Prop :=
  match x, y with
  | Some (Ok st), Some (Ok st') => state_rel st st'
  | Some (Raise e), Some (Raise e') => e = e'
  | None, None => True
  | _, _ => False
  end.

Lemma loop_body_rel st st' :
  state_rel st st' ->
  (forall e pq1, heappop (ls_pq st) = Ok (e, pq1) ->
     time_ltb max_time (ev_time e) = false ->
     getitem (ls_visited st) (ev_row e) (ev_col e) = Ok false ->
     ember_ok (ev_row e) (ev_col e)) ->
  body_rel (loop_body R L self max_time st) (loop_body R' L self max_time st').
Proof.
  destruct st as [ign vis pq g pops], st' as [ign' vis' pq' g' pops'].
  intros (Hi & Hv & Hq & Hp & Hg) Hok. simpl in *. subst ign' vis' pq' pops'.
  unfold loop_body. cbn [ls_pq ls_visited ls_ignition_time ls_rng ls_popped].
  destruct (heappop pq) as [[e pq1]|] eqn:Hpop; bind_step; [|reflexivity].
  specialize (Hok e pq1 eq_refl). destruct e as [[t r] c].
  unfold ev_time, ev_row, ev_col in Hok. simpl in Hok.
  destruct (time_ltb max_time t).
  { simpl. unfold state_rel. simpl. auto 10. }
  destruct (getitem vis r c) as [[|]|]; bind_step; [| |reflexivity].
  { simpl. unfold state_rel. simpl. auto 10. }
  destruct (setitem vis r c true) as [vis1|]; bind_step; [|reflexivity].
  destruct (getitem (elevation self) r c) as [elev0|]; bind_step; [|reflexivity].
  destruct (foldM _ _ neighbors) as [[ign1 pq2]|]; bind_step; [|reflexivity].
  specialize (Hok eq_refl eq_refl t ign1 pq2 g g' Hg). unfold ember_rel in Hok.
  destruct (ember_spotting R L self t r c ign1 pq2 g) as [[[i1 p1] g1]|];
    destruct (ember_spotting R' L self t r c ign1 pq2 g') as [[[i2 p2] g2]|];
    bind_step; try contradiction; [|exact Hok].
  destruct Hok as (-> & -> & Hg'). simpl. unfold state_rel. simpl. auto 10.
Qed.

(** Both runs go the same way when spotting does so from every cell. *)
Lemma while_loop_rel n st st' :
  (forall r c, ember_ok r c) ->
  state_rel st st' ->
  loop_rel (while_loop R L self max_time n st) (while_loop R' L self max_time n st').
Proof.
  intros Hok. revert st st'. induction n as [|n IH]; intros st st' Hrel; simpl.
  - pose proof Hrel as (_ & _ & Hq & _). rewrite <- Hq.
    destruct (ls_pq st); simpl; [exact Hrel | exact I].
  - pose proof Hrel as (_ & _ & Hq & _). rewrite <- Hq.
    destruct (ls_pq st) eqn:Hpq; simpl; [exact Hrel|].
    pose proof (loop_body_rel st st' Hrel (fun e _ _ _ _ => Hok _ _)) as Hbody.
    unfold body_rel in Hbody.
    destruct (loop_body R L self max_time st) as [[[|] st1]|];
      destruct (loop_body R' L self max_time st') as [[[|] st1']|]; simpl;
      try contradiction; try (destruct Hbody; discriminate); try exact Hbody.
    + apply IH. apply Hbody.
    + apply Hbody.
Qed.

End Lockstep.

(** ** Settled cells stay settled *)

Lemma getitem_setitem_same {A} (a a' : list (list A)) (r c : Z) (v : A) :
  setitem a r c v = Ok a' -> getitem a' r c = Ok v.
Proof.
  unfold setitem, getitem.
  destruct (py_index (length a) r) as [i|] eqn:Hi; [|discriminate].
  destruct (a !! i) as [row|] eqn:Hrow; [|discriminate].
  destruct (py_index (length row) c) as [j|] eqn:Hj; [|discriminate].
  intros [= <-]. rewrite length_insert, Hi. simpl.
  rewrite list_lookup_insert_eq by (eapply lookup_lt_Some; eauto).
  rewrite length_insert, Hj. simpl.
  rewrite list_lookup_insert_eq by (eapply py_index_lt; eauto). reflexivity.
Qed.

Lemma getitem_setitem_true (a a' : list (list bool)) (r c r' c' : Z) :
  setitem a r c true = Ok a' -> getitem a r' c' = Ok true -> getitem a' r' c' = Ok true.
Proof.
  unfold setitem, getitem.
  destruct (py_index (length a) r) as [i|] eqn:Hi; [|discriminate].
  destruct (a !! i) as [row|] eqn:Hrow; [|discriminate].
  destruct (py_index (length row) c) as [j|] eqn:Hj; [|discriminate].
  intros [= <-]. rewrite length_insert.
  destruct (py_index (length a) r') as [i'|] eqn:Hi'; simpl; [|discriminate].
  destruct (a !! i') as [row'|] eqn:Hrow'; [|discriminate].
  destruct (py_index (length row') c') as [j'|] eqn:Hj'; simpl; [|discriminate].
  destruct (row' !! j') as [x|] eqn:Hx; [|discriminate]. intros [= ->].
  destruct (decide (i = i')) as [->|Hne].
  - rewrite list_lookup_insert_eq by (eapply lookup_lt_Some; eauto).
    assert (row' = row) by congruence. subst row'.
    rewrite length_insert, Hj'. simpl.
    destruct (decide (j = j')) as [->|Hne'].
    + rewrite list_lookup_insert_eq by (eapply py_index_lt; eauto). reflexivity.
    + rewrite list_lookup_insert_ne by exact Hne'. rewrite Hx. reflexivity.
  - rewrite list_lookup_insert_ne by exact Hne. rewrite Hrow'. rewrite Hj'. simpl.
    rewrite Hx. reflexivity.
Qed.

Section Settled.

Context {G : Type}.
Variable R : Generator G.
Variable L : Libm.
Variable self : FireModel.
Variable max_time : time.

(** What a pass does to [visited]. *)
Lemma loop_body_visited (st st1 : loop_state G) ctl :
  loop_body R L self max_time st = Ok (ctl, st1) ->
  exists e pq1, heappop (ls_pq st) = Ok (e, pq1)
    /\ ((ctl = Stop /\ time_ltb max_time (ev_time e) = true
         /\ ls_visited st1 = ls_visited st)
        \/ (ctl = Next /\ time_ltb max_time (ev_time e) = false
            /\ getitem (ls_visited st) (ev_row e) (ev_col e) = Ok true
            /\ ls_visited st1 = ls_visited st)
        \/ (ctl = Next /\ time_ltb max_time (ev_time e) = false
            /\ getitem (ls_visited st) (ev_row e) (ev_col e) = Ok false
            /\ setitem (ls_visited st) (ev_row e) (ev_col e) true = Ok (ls_visited st1))).
Proof.
  unfold loop_body.
  destruct (heappop (ls_pq st)) as [[e pq1]|] eqn:Hpop; bind_step; [|discriminate].
  intros H. exists e, pq1. split; [reflexivity|].
  destruct e as [[t r] c]. unfold ev_time, ev_row, ev_col. simpl.
  destruct (time_ltb max_time t); [inversion H; auto 10|].
  destruct (getitem (ls_visited st) r c) as [[|]|]; revert H; bind_step;
    [intros [= <- <-]; auto 10 | | discriminate].
  destruct (setitem (ls_visited st) r c true); bind_step; [|discriminate].
  destruct (getitem (elevation self) r c); bind_step; [|discriminate].
  destruct (foldM _ _ neighbors) as [[ign1 pq2]|]; bind_step; [|discriminate].
  destruct (ember_spotting _ _ _ _ _ _ _ _ _) as [[[ign' pq'] g']|]; bind_step;
    [|discriminate].
  intros [= <- <-]. simpl. auto 10.
Qed.

Lemma loop_body_visited_mono (st st1 : loop_state G) ctl r c :
  loop_body R L self max_time st = Ok (ctl, st1) ->
  getitem (ls_visited st) r c = Ok true -> getitem (ls_visited st1) r c = Ok true.
Proof.
  intros Hbody Hv.
  destruct (loop_body_visited st st1 ctl Hbody)
    as (e & pq1 & _ & [(_ & _ & ->)|[(_ & _ & _ & ->)|(_ & _ & _ & Hset)]]); try exact Hv.
  eapply getitem_setitem_true; eauto.
Qed.

Lemma while_loop_visited_mono n (st st_f : loop_state G) r c :
  while_loop R L self max_time n st = Some (Ok st_f) ->
  getitem (ls_visited st) r c = Ok true -> getitem (ls_visited st_f) r c = Ok true.
Proof.
  revert st. induction n as [|n IH]; intros st; simpl.
  - destruct (ls_pq st); [|discriminate]. intros [= <-]. auto.
  - destruct (ls_pq st); [intros [= <-]; auto|].
    destruct (loop_body R L self max_time st) as [[[|] st1]|] eqn:Hbody; [| |discriminate].
    + intros Hloop Hv. apply (IH st1 Hloop). eapply loop_body_visited_mono; eauto.
    + intros [= <-] Hv. eapply loop_body_visited_mono; eauto.
Qed.

End Settled.

Section LockstepSettled.

Context {G G' : Type}.
Variable R : Generator G.
Variable R' : Generator G'.
Variable L : Libm.
Variable self : FireModel.
Variable max_time : time.
Variable sim : G -> G' -> Prop.

(** Both runs go the same way when spotting does so from every cell that
    the first run settles. *)
Lemma while_loop_rel_settled n st st' st_f :
  state_rel sim st st' ->
  while_loop R L self max_time n st = Some (Ok st_f) ->
  (forall r c, getitem (ls_visited st_f) r c = Ok true -> ember_ok R R' L self sim r c) ->
  exists st_f', while_loop R' L self max_time n st' = Some (Ok st_f')
             /\ state_rel sim st_f st_f'.
Proof.
  revert st st'. induction n as [|n IH]; intros st st' Hrel; simpl.
  - pose proof Hrel as (_ & _ & Hq & _). rewrite <- Hq.
    destruct (ls_pq st); [|discriminate]. intros [= <-] _. eauto.
  - pose proof Hrel as (_ & _ & Hq & _). rewrite <- Hq.
    destruct (ls_pq st) as [|e0 pq0] eqn:Hpq; [intros [= <-] _; eauto|].
    destruct (loop_body R L self max_time st) as [[ctl st1]|] eqn:Hbody;
      [|discriminate].
    intros Hloop Hok.
    assert (Hvf : forall r c, getitem (ls_visited st1) r c = Ok true ->
                              getitem (ls_visited st_f) r c = Ok true).
    { intros r c Hv. destruct ctl.
      - eapply while_loop_visited_mono; eauto.
      - inversion Hloop; subst. exact Hv. }
    assert (Hrelb : body_rel sim (loop_body R L self max_time st)
                                 (loop_body R' L self max_time st')).
    { apply loop_body_rel; [exact Hrel|]. intros e pq1 Hpop Hmax Hunv.
      apply Hok. apply Hvf.
      destruct (loop_body_visited R L self max_time st st1 ctl Hbody)
        as (e' & pq1' & Hpop' & Hcases).
      rewrite Hpop in Hpop'. inversion Hpop'; subst e' pq1'.
      destruct Hcases as [(_ & Hstop & _)|[(_ & _ & Hv & _)|(_ & _ & _ & Hset)]].
      - congruence.
      - congruence.
      - eapply getitem_setitem_same. exact Hset. }
    rewrite Hbody in Hrelb. unfold body_rel in Hrelb.
    destruct (loop_body R' L self max_time st') as [[ctl' st1']|]; [|contradiction].
    destruct Hrelb as [<- Hrel1]. destruct ctl.
    + apply (IH st1 st1' Hrel1 Hloop Hok).
    + inversion Hloop; subst. eauto.
Qed.

Lemma start_state_rel (g : G) (g' : G') :
  sim g g' ->
  exists st st', start_state self g = Ok st /\ start_state self g' = Ok st'
              /\ state_rel sim st st'.
Proof.
  intros Hg. destruct (start_state_spec self g) as (pq & Hst & _).
  unfold start_state in *. destruct (start_queue self) as [pq0|]; [|discriminate].
  do 2 eexists. split; [reflexivity|]. split; [reflexivity|].
  unfold state_rel. simpl. auto.
Qed.

Lemma run_loop_rel (g : G) (g' : G') :
  (forall r c, ember_ok R R' L self sim r c) ->
  sim g g' ->
  loop_rel sim (run_loop R L self max_time g) (run_loop R' L self max_time g').
Proof.
  intros Hok Hg. destruct (start_state_rel g g' Hg) as (st & st' & Hs & Hs' & Hrel).
  unfold run_loop. rewrite Hs, Hs'.
  replace (passes st') with (passes st).
  - apply while_loop_rel; assumption.
  - unfold passes. destruct Hrel as (_ & -> & -> & _). reflexivity.
Qed.

Lemma run_loop_rel_settled (g : G) (g' : G') st_f :
  sim g g' ->
  run_loop R L self max_time g = Some (Ok st_f) ->
  (forall r c, getitem (ls_visited st_f) r c = Ok true -> ember_ok R R' L self sim r c) ->
  exists st_f', run_loop R' L self max_time g' = Some (Ok st_f')
             /\ state_rel sim st_f st_f'.
Proof.
  intros Hg Hrun Hok. destruct (start_state_rel g g' Hg) as (st & st' & Hs & Hs' & Hrel).
  unfold run_loop in *. rewrite Hs in Hrun. rewrite Hs'.
  replace (passes st') with (passes st).
  - eapply while_loop_rel_settled; eauto.
  - unfold passes. destruct Hrel as (_ & -> & -> & _). reflexivity.
Qed.

End LockstepSettled.

(** ** Randomness and reproducibility *)

(** A run as a caller sets it up: construct the object, seed it, run it.
    The generator state [g] is not an argument of the constructor: it is
    the state of numpy's global generator when [run_simulation] is
    called. *)
Definition simulation {G} (R : Generator G) (L : Libm)
    (elevation_map : list (list Q)) (fuel_map : list (list Z))
    (wind_speed wind_dir cell_size : Q) (seeds : list (Z * Z * time))
    (max_time : time) (g : G) : option (result (list (list time) * G)) :=
  match ignite_all (__init__ L elevation_map fuel_map wind_speed wind_dir cell_size) seeds with
  | Raise e => Some (Raise e)
  | Ok self => run_simulation R L self max_time g
  end.

(** The outcome without the generator: the returned field, or the
    exception. *)
Definition field_of {G} (o : option (result (list (list time) * G)))
    : option (result (list (list time))) :=
  match o with
  | Some (Ok (field, _)) => Some (Ok field)
  | Some (Raise e) => Some (Raise e)
  | None => None
  end.

(** The outcome with the generator replaced by [g']. *)
Definition with_generator {G G'} (g' : G') (o : option (result (list (list time) * G)))
    : option (result (list (list time) * G')) :=
  match o with
  | Some (Ok (field, _)) => Some (Ok (field, g'))
  | Some (Raise e) => Some (Raise e)
  | None => None
  end.

(** Two generators, in states related by [sim], deliver the same draws
    and stay related: identically seeded sources. *)
Record bisimulation {G G'} (R : Generator G) (R' : Generator G')
    (sim : G -> G' -> Prop) : Prop := {
  bisim_random : forall g g', sim g g' ->
    (gen_random R g).1 = (gen_random R' g').1
    /\ sim (gen_random R g).2 (gen_random R' g').2;
  bisim_randint : forall low high g g', sim g g' ->
    (gen_randint R low high g).1 = (gen_randint R' low high g').1
    /\ sim (gen_randint R low high g).2 (gen_randint R' low high g').2;
  bisim_normal : forall mu sigma g g', sim g g' ->
    (gen_normal R mu sigma g).1 = (gen_normal R' mu sigma g').1
    /\ sim (gen_normal R mu sigma g).2 (gen_normal R' mu sigma g').2
}.

Section Reproducibility.

Context {G G' : Type}.
Variable R : Generator G.
Variable R' : Generator G'.
Variable L : Libm.
Variable self : FireModel.
Variable max_time : time.

Lemma bisimulation_ember_ok sim r c :
  bisimulation R R' sim -> ember_ok R R' L self sim r c.
Proof.
  intros HB t ign pq g g' Hg. unfold ember_rel, ember_spotting.
  destruct (getitem (fuel self) r c) as [fh|]; bind_step; [|reflexivity].
  destruct ((fh =? 2) && Qltb 5.0 (wind_speed self)); [|auto].
  pose proof (bisim_random R R' sim HB g g' Hg) as [Hu Hg1].
  destruct (gen_random R g) as [u g1], (gen_random R' g') as [u' g1'].
  simpl in Hu, Hg1. subst u'.
  destruct (Qltb u 0.02); [|auto].
  unfold spot_dist_px, np_random_randint.
  destruct (2 <? py_int (wind_speed self * 0.5)); bind_step; [|reflexivity].
  pose proof (bisim_randint R R' sim HB 2 (py_int (wind_speed self * 0.5)) g1 g1' Hg1)
    as [Hk Hg2].
  destruct (gen_randint R 2 _ g1) as [k g2], (gen_randint R' 2 _ g1') as [k' g2'].
  simpl in Hk, Hg2. subst k'. bind_step.
  pose proof (bisim_normal R R' sim HB 0%Q 0.3%Q g2 g2' Hg2) as [Hz Hg3].
  destruct (gen_normal R 0 0.3 g2) as [z g3], (gen_normal R' 0 0.3 g2') as [z' g3'].
  simpl in Hz, Hg3. subst z'.
  pose proof (bisim_random R R' sim HB g3 g3' Hg3) as [Hv Hg4].
  destruct (gen_random R g3) as [v g4], (gen_random R' g3') as [v' g4'].
  simpl in Hv, Hg4. subst v'.
  destruct (in_bounds self _ _); [|auto].
  destruct (getitem (fuel self) _ _) as [f|]; bind_step; [|reflexivity].
  destruct ((f =? 1) || (f =? 2)); [|auto].
  destruct (getitem ign _ _) as [old|]; bind_step; [|reflexivity].
  destruct (time_ltb _ old); [|auto].
  destruct (setitem ign _ _ _); bind_step; [auto | reflexivity].
Qed.

Lemma loop_rel_field sim (x : option (result (loop_state G)))
    (y : option (result (loop_state G'))) :
  loop_rel sim x y ->
  field_of (match x with
            | None => None
            | Some (Raise e) => Some (Raise e)
            | Some (Ok st) => Some (Ok (ls_ignition_time st, ls_rng st))
            end)
  = field_of (match y with
              | None => None
              | Some (Raise e) => Some (Raise e)
              | Some (Ok st) => Some (Ok (ls_ignition_time st, ls_rng st))
              end).
Proof.
  unfold loop_rel. destruct x as [[st|e]|], y as [[st'|e']|]; simpl; try contradiction.
  - intros (-> & _). reflexivity.
  - intros ->. reflexivity.
  - reflexivity.
Qed.

Lemma run_simulation_bisimilar sim (g : G) (g' : G') :
  bisimulation R R' sim -> sim g g' ->
  field_of (run_simulation R L self max_time g)
  = field_of (run_simulation R' L self max_time g').
Proof.
  intros HB Hg. unfold run_simulation. apply (loop_rel_field sim).
  apply run_loop_rel; [|exact Hg]. intros r c. apply bisimulation_ember_ok. exact HB.
Qed.

(** Spotting from a cell that is not Forest, or in a wind of at most
    5 m/s, draws nothing. *)
Lemma ember_spotting_quiet t r c ign pq (g : G) :
  (wind_speed self <= 5)%Q \/ getitem (fuel self) r c <> Ok 2 ->
  ember_spotting R L self t r c ign pq g
  = (_ ← getitem (fuel self) r c; Ok (ign, pq, g)).
Proof.
  intros Hq. unfold ember_spotting.
  destruct (getitem (fuel self) r c) as [fh|]; bind_step; [|reflexivity].
  destruct (Z.eqb_spec fh 2) as [->|Hne]; simpl; [|reflexivity].
  destruct (Qltb 5.0 (wind_speed self)) eqn:Hws; [|reflexivity].
  apply Qltb_lt in Hws. destruct Hq as [Hq|Hq]; [lra | congruence].
Qed.

End Reproducibility.

Lemma ember_ok_quiet {G G'} (R : Generator G) (R' : Generator G') (L : Libm)
    (self : FireModel) (sim : G -> G' -> Prop) (r c : Z) :
  (wind_speed self <= 5)%Q \/ getitem (fuel self) r c <> Ok 2 ->
  ember_ok R R' L self sim r c.
Proof.
  intros Hq t ign pq g g' Hg. unfold ember_rel.
  rewrite (ember_spotting_quiet R L self t r c ign pq g Hq).
  rewrite (ember_spotting_quiet R' L self t r c ign pq g' Hq).
  destruct (getitem (fuel self) r c); bind_step; [auto | reflexivity].
Qed.

(** C1, as the code has it: the generator is numpy's process-global one,
    so the field is a function of the construction inputs and of the draws
    that global generator delivers; two runs constructed with identical
    inputs under identically seeded sources (generators in states that
    deliver the same draws) return identical fields, or raise the same
    exception. *)
Theorem same_draws_same_field {G G'} (R : Generator G) (R' : Generator G')
    (sim : G -> G' -> Prop) (L : Libm)
    (elevation_map : list (list Q)) (fuel_map : list (list Z))
    (wind_speed wind_dir cell_size : Q) (seeds : list (Z * Z * time))
    (max_time : time) (g : G) (g' : G') :
  bisimulation R R' sim -> sim g g' ->
  field_of (simulation R L elevation_map fuel_map wind_speed wind_dir cell_size
              seeds max_time g)
  = field_of (simulation R' L elevation_map fuel_map wind_speed wind_dir cell_size
                seeds max_time g').
Proof.
  intros HB Hg. unfold simulation.
  destruct (ignite_all _ seeds) as [self|e]; [|reflexivity].
  eapply run_simulation_bisimilar; eauto.
Qed.

(** C9: in a wind of at most 5 m/s, or when the run settles no Forest
    cell, the run draws nothing: under any other generator in any state it
    has the same outcome and hands that generator back untouched (so,
    under its own, the generator is left as it was). *)
Theorem no_spotting_no_randomness {G G'} (R : Generator G) (R' : Generator G')
    (L : Libm) (self : FireModel) (max_time : time) (g : G) (g' : G') :
  (wind_speed self <= 5)%Q
  \/ (exists st, run_loop R L self max_time g = Some (Ok st)
        /\ forall r c, getitem (ls_visited st) r c = Ok true ->
                       getitem (fuel self) r c <> Ok 2) ->
  run_simulation R' L self max_time g'
  = with_generator g' (run_simulation R L self max_time g).
Proof.
  intros Hquiet.
  set (sim := fun (g1 : G) (g1' : G') => g1 = g /\ g1' = g').
  pose proof (fun r c => ember_ok_quiet R R' L self sim r c) as Hok.
  assert (Hg : sim g g') by (split; reflexivity).
  unfold run_simulation. destruct Hquiet as [Hws|(st & Hrun & Hvis)].
  - pose proof (run_loop_rel R R' L self max_time sim g g'
                  (fun r c => Hok r c (or_introl Hws)) Hg) as Hrel.
    unfold loop_rel in Hrel.
    destruct (run_loop R L self max_time g) as [[st|e]|],
             (run_loop R' L self max_time g') as [[st'|e']|];
      simpl; try contradiction; try reflexivity.
    + destruct Hrel as (-> & _ & _ & _ & _ & ->). reflexivity.
    + subst. reflexivity.
  - destruct (run_loop_rel_settled R R' L self max_time sim g g' st Hg Hrun
                (fun r c Hv => Hok r c (or_intror (Hvis r c Hv))))
      as (st' & Hrun' & Hrel).
    rewrite Hrun, Hrun'. simpl.
    destruct Hrel as (-> & _ & _ & _ & _ & ->). reflexivity.
Qed.

(** ** Runs that do not raise *)

Section NoRaise.

Context {G : Type}.
Variable R : Generator G.
Variable L : Libm.
Variable self : FireModel.
Variable max_time : time.
Hypothesis Hwf : wf_model self.

(** The winds in which the distance draw has a non-empty range whenever
    spotting is attempted. *)
Definition spotting_safe : Prop :=
  (wind_speed self <= 5)%Q \/ (6 <= wind_speed self)%Q.

Hypothesis Hwind : spotting_safe.

Lemma relax_no_raise visited t0 r0 c0 elev0 ign pq nb :
  has_shape visited (rows self) (cols self) ->
  has_shape ign (rows self) (cols self) ->
  exists ign' pq', relax L self visited t0 r0 c0 elev0 (ign, pq) nb = Ok (ign', pq')
                /\ has_shape ign' (rows self) (cols self).
Proof.
  intros Hv Hi. destruct nb as [[dr dc] dm]. unfold relax.
  destruct (in_bounds self (r0 + dr) (c0 + dc)) eqn:Hb; [|eauto].
  pose proof Hb as Hb'. apply in_bounds_spec in Hb'.
  destruct (in_bounds_cell self visited _ _ Hv Hb) as [v Hcv].
  destruct (in_bounds_cell self (fuel self) _ _ (wf_fuel _ Hwf) Hb) as [f Hcf].
  destruct (in_bounds_cell self (elevation self) _ _ (wf_elevation _ Hwf) Hb) as [e Hce].
  destruct (in_bounds_cell self ign _ _ Hi Hb) as [old Hco].
  rewrite !getitem_cell by lia. rewrite Hcv. bind_step.
  destruct v; [eauto|]. rewrite Hcf. bind_step.
  destruct (f =? 3); [eauto|]. rewrite Hce. bind_step. rewrite Hco. bind_step.
  destruct (time_ltb _ old); [|eauto].
  rewrite setitem_cell by lia. rewrite Hco. bind_step.
  do 2 eexists. split; [reflexivity|]. apply update_shape. exact Hi.
Qed.

Lemma foldM_relax_no_raise visited t0 r0 c0 elev0 nbs ign pq :
  has_shape visited (rows self) (cols self) ->
  has_shape ign (rows self) (cols self) ->
  exists ign' pq',
    foldM (relax L self visited t0 r0 c0 elev0) (ign, pq) nbs = Ok (ign', pq')
    /\ has_shape ign' (rows self) (cols self).
Proof.
  intros Hv. revert ign pq. induction nbs as [|nb nbs IH]; intros ign pq Hi; simpl.
  - eauto.
  - destruct (relax_no_raise visited t0 r0 c0 elev0 ign pq nb Hv Hi)
      as (ign1 & pq1 & -> & Hi1).
    bind_step. apply IH. exact Hi1.
Qed.

Lemma ember_spotting_no_raise t0 r0 c0 ign pq g :
  in_bounds self r0 c0 = true ->
  has_shape ign (rows self) (cols self) ->
  exists res, ember_spotting R L self t0 r0 c0 ign pq g = Ok res.
Proof.
  intros Hb Hi. unfold ember_spotting.
  pose proof Hb as Hb'. apply in_bounds_spec in Hb'.
  destruct (in_bounds_cell self (fuel self) _ _ (wf_fuel _ Hwf) Hb) as [fh Hfh].
  rewrite getitem_cell by lia. rewrite Hfh. bind_step.
  destruct (fh =? 2); simpl; [|eauto].
  destruct (Qltb 5.0 (wind_speed self)) eqn:Hws; [|eauto].
  apply Qltb_lt in Hws.
  assert (H6 : (6 <= wind_speed self)%Q) by (destruct Hwind; [lra | assumption]).
  destruct (gen_random R g) as [u g1]. destruct (Qltb u 0.02); [|eauto].
  unfold spot_dist_px, np_random_randint.
  assert (Hhi : 3 <= py_int (wind_speed self * 0.5)).
  { rewrite py_int_nonneg by lra. apply Qfloor_ge. change (inject_Z 3) with 3%Q. lra. }
  destruct (Z.ltb_spec 2 (py_int (wind_speed self * 0.5))); [|lia].
  destruct (gen_randint R 2 _ g1) as [k g2]. bind_step.
  destruct (gen_normal R 0 0.3 g2) as [z g3]. destruct (gen_random R g3) as [u' g4].
  match goal with |- context [in_bounds self ?a ?b] =>
    set (sp_r := a); set (sp_c := b) end.
  destruct (in_bounds self sp_r sp_c) eqn:Hsb; [|eauto].
  pose proof Hsb as Hsb'. apply in_bounds_spec in Hsb'.
  destruct (in_bounds_cell self (fuel self) _ _ (wf_fuel _ Hwf) Hsb) as [f Hf].
  destruct (in_bounds_cell self ign _ _ Hi Hsb) as [old Hold].
  rewrite !getitem_cell by lia. rewrite Hf. bind_step.
  destruct ((f =? 1) || (f =? 2)); [|eauto]. rewrite Hold. bind_step.
  destruct (time_ltb _ old); [|eauto].
  rewrite setitem_cell by lia. rewrite Hold. bind_step. eauto.
Qed.

Lemma loop_body_no_raise (st : loop_state G) :
  basic_inv self st -> ls_pq st <> [] ->
  exists ctl st', loop_body R L self max_time st = Ok (ctl, st').
Proof.
  intros [Hi Hv Hpq] Hne. unfold loop_body.
  destruct (heappop_nonempty _ Hne) as (e & pq1 & Hpop). rewrite Hpop. bind_step.
  destruct (heappop_in_bounds self _ _ _ Hpq Hpop) as [Hb _].
  destruct e as [[t r] c]. unfold ev_row, ev_col in Hb. simpl in Hb.
  pose proof Hb as Hb'. apply in_bounds_spec in Hb'.
  destruct (time_ltb max_time t); [eauto|].
  destruct (in_bounds_cell self (ls_visited st) _ _ Hv Hb) as [v Hcv].
  destruct (in_bounds_cell self (elevation self) _ _ (wf_elevation _ Hwf) Hb) as [e0 He0].
  rewrite (getitem_cell (ls_visited st)) by lia. rewrite Hcv. bind_step.
  destruct v; [eauto|].
  rewrite setitem_cell by lia. rewrite Hcv. bind_step.
  rewrite (getitem_cell (elevation self)) by lia. rewrite He0. bind_step.
  destruct (foldM_relax_no_raise (update (ls_visited st) r c true) t r c e0 neighbors
              (ls_ignition_time st) pq1 (update_shape _ _ _ _ _ _ Hv) Hi)
    as (ign1 & pq2 & -> & Hi1).
  bind_step.
  destruct (ember_spotting_no_raise t r c ign1 pq2 (ls_rng st) Hb Hi1) as ([[ign' pq'] g'] & ->).
  bind_step. eauto.
Qed.

Lemma while_loop_no_raise n (st : loop_state G) e :
  basic_inv self st -> while_loop R L self max_time n st <> Some (Raise e).
Proof.
  revert st. induction n as [|n IH]; intros st Hb; simpl.
  - destruct (ls_pq st); discriminate.
  - destruct (ls_pq st) as [|e0 pq0] eqn:Hpq; [discriminate|].
    destruct (loop_body_no_raise st Hb) as (ctl & st' & Hbody); [congruence|].
    rewrite Hbody. destruct ctl; [|discriminate].
    apply IH. eapply body_case_basic; [exact Hb|].
    apply loop_body_cases; [apply (bi_pq _ _ Hb) | exact Hbody].
Qed.

(** On a well-formed object, in a wind of at most 5 or at least 6 m/s,
    [run_simulation] returns. *)
Lemma run_loop_returns (g : G) :
  exists st, run_loop R L self max_time g = Some (Ok st).
Proof.
  pose proof (run_loop_terminates R L self max_time g) as Hterm.
  destruct (run_loop R L self max_time g) as [[st|e]|] eqn:Hrun; [eauto| |congruence].
  exfalso. unfold run_loop in Hrun.
  destruct (start_state_spec self g) as (pq & Hst & _). rewrite Hst in Hrun.
  revert Hrun. apply while_loop_no_raise.
  apply (start_state_basic self Hwf g). exact Hst.
Qed.

End NoRaise.

(** ** The horizon [max_time = 0] *)

(** [(r', c')] is one of the eight neighbours of [(r, c)]. *)
Definition adjacent (r c r' c' : Z) : Prop :=
  exists dr dc dm, (dr, dc, dm) ∈ neighbors /\ r' = r + dr /\ c' = c + dc.

Lemma updates_preserve (self : FireModel) (K : event -> Prop)
    (P : list (list time) * list event -> Prop) acc acc' :
  (forall ign pq e old,
     P (ign, pq) -> K e -> in_bounds self (ev_row e) (ev_col e) = true ->
     cell ign (ev_row e) (ev_col e) = Some old -> time_lt (ev_time e) old ->
     P (update ign (ev_row e) (ev_col e) (ev_time e), e :: pq)) ->
  updates self K acc acc' -> P acc -> P acc'.
Proof.
  intros Hstep. induction 1 as [|ign pq e old acc' HK Hb Hold Hlt _ IH]; [auto|].
  intros HP. apply IH. eapply Hstep; eauto.
Qed.



Section HorizonZero.

Context {G : Type}.
Variable R : Generator G.
Variable L : Libm.
Variable self : FireModel.
Hypothesis Hwf : wf_model self.
Hypothesis Hcell : (0 < cell_size self)%Q.
Hypothesis HR : GeneratorSpec R.

(** Every seed was ignited at time 0. *)
Hypothesis Hzero : forall r c t,
  cell (ignition_time self) r c = Some t -> t = Infinity \/ t = Finite 0.










(** After a [break] the last event popped lies beyond the horizon. *)
Lemma steps_stop_popped max_time st0 st :
  steps R L self max_time st0 Stop st ->
  exists p rest, ls_popped st = p :: rest /\ time_lt max_time (ev_time p).
Proof.
  intros Hsteps. inversion Hsteps as [|st1 ctl st' _ _ Hbody]; subst.
  destruct (loop_body_pops R L self max_time st1 st Stop Hbody) as (e & pq1 & Hpop & Hp).
  destruct (loop_body_visited R L self max_time st1 st Stop Hbody)
    as (e' & pq1' & Hpop' & [(_ & Hlt & _)|[(Hc & _)|(Hc & _)]]); try discriminate.
  rewrite Hpop in Hpop'. inversion Hpop'; subst e' pq1'.
  exists e, (ls_popped st1). split; [exact Hp|]. apply time_ltb_lt. exact Hlt.
Qed.


End HorizonZero.

(** ** Seeding *)










(** ** Water and reachability *)

Section WaterBarrier.

Context {G : Type}.
Variable R : Generator G.
Variable L : Libm.
Variable self : FireModel.
Variable max_time : time.
Hypothesis Hwf : wf_model self.












End WaterBarrier.

(** ** The fire reaches every reachable cell *)

Section Spread.

Context {G : Type}.
Variable R : Generator G.
Variable L : Libm.
Variable self : FireModel.
Hypothesis Hwf : wf_model self.


Definition finite_event (x : event) : Prop := exists q, ev_time x = Finite q.









Lemma adjacent_ne r c r' c' : adjacent r c r' c' -> (r, c) <> (r', c').
Proof.
  intros (dr & dc & dm & Hnb & -> & ->) [= Hr Hc].
  revert Hnb. unfold neighbors. rewrite !elem_of_cons, elem_of_nil.
  intros Hnb. repeat (destruct Hnb as [Hnb|Hnb]; [inversion Hnb; subst; lia|]).
  contradiction.
Qed.





(** A pass looks at the horizon only to compare it with the popped
    time. *)
Lemma loop_body_horizon m1 m2 (st : loop_state G) :
  (forall e pq1, heappop (ls_pq st) = Ok (e, pq1) ->
     time_ltb m1 (ev_time e) = time_ltb m2 (ev_time e)) ->
  loop_body R L self m1 st = loop_body R L self m2 st.
Proof.
  intros H. unfold loop_body.
  destruct (heappop (ls_pq st)) as [[e pq1]|]; bind_step; [|reflexivity].
  specialize (H e pq1 eq_refl). destruct e as [[t r] c].
  unfold ev_time in H. simpl in H. rewrite H. reflexivity.
Qed.





End Spread.


(** ** Runs with nothing to burn *)

Lemma while_loop_empty {G} (R : Generator G) (L : Libm) (self : FireModel)
    (max_time : time) (n : nat) (st : loop_state G) :
  ls_pq st = [] -> while_loop R L self max_time n st = Some (Ok st).
Proof. intros Hpq. destruct n; simpl; rewrite Hpq; reflexivity. Qed.

(** With no cell seeded, the queue starts empty and the field comes back
    as it is, whatever the object. *)
Lemma run_without_seeds {G} (R : Generator G) (L : Libm) (self : FireModel)
    (max_time : time) (g : G) :
  (forall r c t, cell (ignition_time self) r c = Some t -> t = Infinity) ->
  run_simulation R L self max_time g = Some (Ok (ignition_time self, g)).
Proof.
  intros Hnever. unfold run_simulation, run_loop.
  destruct (start_state_spec self g) as (pq & Hst & Hmem). rewrite Hst.
  assert (Hpq : pq = []).
  { destruct pq as [|e pq]; [reflexivity|]. exfalso.
    destruct (proj1 (Hmem e) (list_elem_of_here _ _)) as (_ & _ & Ht & Hlt).
    apply Hnever in Ht. rewrite Ht in Hlt. apply Hlt. exact I. }
  subst pq. rewrite while_loop_empty by reflexivity. reflexivity.
Qed.

(** A run with zero seeds returns the all-"never" field. *)
Lemma zero_seed_run {G} (R : Generator G) (L : Libm)
    (elevation_map : list (list Q)) (fuel_map : list (list Z)) (ws wd cs : Q)
    (max_time : time) (g : G) :
  simulation R L elevation_map fuel_map ws wd cs [] max_time g
  = Some (Ok (np_full (shape elevation_map).1 (shape elevation_map).2 Infinity, g)).
Proof.
  unfold simulation. simpl. rewrite run_without_seeds; [reflexivity|].
  intros r c t Ht. eapply cell_np_full. exact Ht.
Qed.

(** On an all-Water grid every [ignite] is a no-op and the run returns the
    all-"never" field. *)
Lemma all_water_run {G} (R : Generator G) (L : Libm)
    (elevation_map : list (list Q)) (fuel_map : list (list Z)) (ws wd cs : Q)
    (seeds : list (Z * Z * time)) (max_time : time) (g : G) :
  same_shape elevation_map fuel_map ->
  (forall r c f, cell fuel_map r c = Some f -> f = 3) ->
  simulation R L elevation_map fuel_map ws wd cs seeds max_time g
  = Some (Ok (np_full (shape elevation_map).1 (shape elevation_map).2 Infinity, g)).
Proof.
  intros Hshape Hwater. unfold simulation.
  set (self0 := __init__ L elevation_map fuel_map ws wd cs).
  assert (Hwf0 : wf_model self0) by (apply init_wf; exact Hshape).
  assert (Hign : ignite_all self0 seeds = Ok self0).
  { induction seeds as [|[[r c] t] seeds IH]; simpl; [reflexivity|].
    destruct (ignite_result self0 r c t Hwf0) as [(Hb & Hf & _)|(_ & ->)].
    - exfalso. destruct (in_bounds_cell self0 _ r c (wf_fuel _ Hwf0) Hb) as [f Hcf].
      apply Hf. rewrite Hcf. f_equal. apply (Hwater r c). exact Hcf.
    - bind_step. exact IH. }
  rewrite Hign. rewrite run_without_seeds; [reflexivity|].
  intros r c t Ht. eapply cell_np_full. exact Ht.
Qed.

(** ** Runs evaluated *)

(** The object after [ignite(r, c)] on a cell that takes the seed. *)
Definition seeded (self : FireModel) (r c : Z) : FireModel :=
  set_ignition_time self (update (ignition_time self) r c (Finite 0)).

Lemma windy_column_ignite :
  ignite windy_column 0 0 (Finite 0) = Ok (seeded windy_column 0 0).
Proof. reflexivity. Qed.

Lemma windy_column_wf : wf_model (seeded windy_column 0 0).
Proof.
  apply (ignite_wf windy_column _ 0 0 (Finite 0)); [|exact windy_column_ignite].
  apply init_wf. repeat split; simpl; repeat constructor.
Qed.

(** The tape on which the seed of [windy_column] throws an ember three
    cells downwind, over the Water cell, with a flight of 20 minutes. *)
Definition ember_tape : list Q := [0.01%Q; 0%Q; 0%Q; 0.5%Q].

Lemma pop_times_nondecreasing_witness :
  match run_loop scripted rational_libm (seeded windy_column 0 0) (Finite 1000) ember_tape with
  | Some (Ok st) =>
      StronglySorted (fun a b => time_le (ev_time a) (ev_time b)) (reverse (ls_popped st))
  | _ => False
  end.
Proof.
  destruct (run_loop scripted rational_libm (seeded windy_column 0 0) (Finite 1000) ember_tape)
    as [[st|e]|] eqn:Hrun.
  - destruct (run_loop_steps _ _ _ _ _ _ Hrun) as (st0 & ctl & Hs & Hsteps & _).
    apply (pop_times_nondecreasing scripted rational_libm (seeded windy_column 0 0)
             (Finite 1000) windy_column_wf eq_refl scripted_spec ember_tape st0 ctl st
             Hs Hsteps).
  - vm_compute in Hrun. discriminate.
  - vm_compute in Hrun. discriminate.
Defined.

(** Three events of equal time pending on a 2 x 2 Forest grid. *)
Definition tie_model : FireModel :=
  __init__ rational_libm [[0%Q; 0%Q]; [0%Q; 0%Q]] [[2; 2]; [2; 2]] 0 0 30.

Definition tie_state : loop_state (list Q) :=
  {| ls_ignition_time := [[Infinity; Finite 0]; [Finite 0; Finite 0]];
     ls_visited := [[false; false]; [false; false]];
     ls_pq := [(Finite 0, 1, 1); (Finite 0, 1, 0); (Finite 0, 0, 1)];
     ls_rng := [];
     ls_popped := [] |}.

Lemma equal_times_pop_row_major_witness :
  match loop_body scripted rational_libm tie_model (Finite 1000) tie_state with
  | Ok (ctl, st') =>
      exists e, ls_popped st' = e :: ls_popped tie_state
        /\ e ∈ ls_pq tie_state
        /\ forall e', e' ∈ ls_pq tie_state -> time_eqb (ev_time e) (ev_time e') = true ->
             ev_row e < ev_row e' \/ (ev_row e = ev_row e' /\ ev_col e <= ev_col e')
  | Raise _ => False
  end.
Proof.
  destruct (loop_body scripted rational_libm tie_model (Finite 1000) tie_state)
    as [[ctl st']|e] eqn:Hbody.
  - exact (equal_times_pop_row_major scripted rational_libm tie_model (Finite 1000)
             tie_state st' ctl Hbody).
  - vm_compute in Hbody. discriminate.
Defined.

(** The pass above pops [(0, 0, 1)], the least row of the three. *)
Example tie_state_pops_row_0 :
  (fun r => match r with Ok (_, st') => ls_popped st' | Raise _ => [] end)
    (loop_body scripted rational_libm tie_model (Finite 1000) tie_state)
  = [(Finite 0, 0, 1)].
Proof. vm_compute. reflexivity. Qed.

(** Tapes that differ by trailing zeros deliver the same draws. *)
Definition same_tape (t t' : list Q) : Prop := exists k, t' = t ++ replicate k 0%Q.

Lemma next_draw_same_tape (t t' : list Q) :
  same_tape t t' ->
  (next_draw t).1 = (next_draw t').1 /\ same_tape (next_draw t).2 (next_draw t').2.
Proof.
  intros [k ->]. destruct t as [|v t]; simpl.
  - destruct k as [|k]; simpl; split; try reflexivity.
    + exists O. reflexivity.
    + exists k. reflexivity.
  - split; [reflexivity|]. exists k. reflexivity.
Qed.

Lemma scripted_bisimulation : bisimulation scripted scripted same_tape.
Proof.
  split; intros; simpl;
    match goal with H : same_tape ?g ?g' |- _ =>
      destruct (next_draw_same_tape g g' H) as [Hv Ht];
      destruct (next_draw g) as [v t1], (next_draw g') as [v' t1'];
      simpl in *; subst v'; split; [reflexivity | exact Ht]
    end.
Qed.

Lemma same_draws_same_field_witness :
  field_of (simulation scripted rational_libm [[0%Q]; [0%Q]; [0%Q]; [0%Q]; [0%Q]]
              [[2]; [3]; [2]; [2]; [2]] 10 0 30 [(0, 0, Finite 0)] (Finite 1000)
              ember_tape)
  = field_of (simulation scripted rational_libm [[0%Q]; [0%Q]; [0%Q]; [0%Q]; [0%Q]]
                [[2]; [3]; [2]; [2]; [2]] 10 0 30 [(0, 0, Finite 0)] (Finite 1000)
                (ember_tape ++ [0%Q; 0%Q])).
Proof.
  apply (same_draws_same_field scripted scripted same_tape).
  - exact scripted_bisimulation.
  - exists 2%nat. reflexivity.
Defined.

(** C1 as stated fails: the constructor takes no generator; two runs
    constructed and seeded with identical inputs return different fields
    when the global generator is in different states. *)
Lemma global_generator_decides_field :
  field_of (simulation scripted rational_libm [[0%Q]; [0%Q]; [0%Q]; [0%Q]; [0%Q]]
              [[2]; [3]; [2]; [2]; [2]] 10 0 30 [(0, 0, Finite 0)] (Finite 1000)
              ember_tape)
  <> field_of (simulation scripted rational_libm [[0%Q]; [0%Q]; [0%Q]; [0%Q]; [0%Q]]
                 [[2]; [3]; [2]; [2]; [2]] 10 0 30 [(0, 0, Finite 0)] (Finite 1000)
                 [0.5%Q]).
Proof. vm_compute. discriminate. Qed.

Lemma one_forest_cell_wf : wf_model (seeded one_forest_cell 0 0).
Proof.
  apply (ignite_wf one_forest_cell _ 0 0 (Finite 0)); [|reflexivity].
  apply init_wf. repeat split; simpl; repeat constructor.
Qed.

Lemma no_spotting_no_randomness_witness :
  run_simulation scripted rational_libm (seeded one_forest_cell 0 0) (Finite 1000) []
  = with_generator []
      (run_simulation scripted rational_libm (seeded one_forest_cell 0 0) (Finite 1000)
         ember_tape).
Proof.
  apply (no_spotting_no_randomness scripted scripted rational_libm
           (seeded one_forest_cell 0 0) (Finite 1000) ember_tape []).
  left. vm_compute. discriminate.
Defined.

(** C4 fails on a well-formed input: a single Forest cell in a wind of
    5.5 m/s, seeded at time 0; when the first [random()] is below 0.02 the
    run calls [randint(2, 2)], which raises [ValueError]. *)
Theorem run_raises_in_wind_5_5 :
  simulation scripted rational_libm [[0%Q]] [[2]] 5.5 0 30 [(0, 0, Finite 0)]
    (Finite 1000) [0.01%Q]
  = Some (Raise ValueError).
Proof. vm_compute. reflexivity. Qed.



(** The 5 x 5 flat Forest grid of the isotropic baseline. *)
Definition isotropic_grid : FireModel :=
  __init__ rational_libm (replicate 5 (replicate 5 0%Q)) (replicate 5 (replicate 5 2))
    0 0 30.

(** The cell is settled and its time equals [q]. *)
Definition settled_at {G} (st : loop_state G) (r c : Z) (q : Q) : Prop :=
  cell (ls_visited st) r c = Some true
  /\ exists t, cell (ls_ignition_time st) r c = Some (Finite t) /\ (t == q)%Q.

(** C6, as the code has it: on the 5 x 5 flat Forest grid with no wind and
    cells of 30 m, seeded at (2, 2) at time 0, the run (whatever the
    generator) settles the four orthogonal neighbours at [30 / 0.5 = 60]
    and the four diagonal neighbours at [30 * 1.414 / 0.5 = 84.84]: the
    diagonal step is [1.414] cells, not the square root of 2. *)
Theorem isotropic_baseline {G} (R : Generator G) (g : G) :
  exists self st,
    ignite isotropic_grid 2 2 (Finite 0) = Ok self
    /\ run_loop R rational_libm self (Finite 1000) g = Some (Ok st)
    /\ Forall (fun rc => settled_at st rc.1 rc.2 (30 / 0.5))
              [(1, 2); (3, 2); (2, 1); (2, 3)]
    /\ Forall (fun rc => settled_at st rc.1 rc.2 (30 * 1.414 / 0.5))
              [(1, 1); (1, 3); (3, 1); (3, 3)].
Proof.
  exists (seeded isotropic_grid 2 2).
  pose proof (run_loop_rel scripted R rational_libm (seeded isotropic_grid 2 2)
                (Finite 1000) (fun _ _ => True) [] g) as Hrel.
  destruct (run_loop scripted rational_libm (seeded isotropic_grid 2 2) (Finite 1000) [])
    as [[st0|e]|] eqn:H0; vm_compute in H0; [|discriminate H0|discriminate H0].
  inversion H0 as [Hst0]. clear H0.
  assert (Hok : forall r c, ember_ok scripted R rational_libm (seeded isotropic_grid 2 2)
                              (fun _ _ => True) r c).
  { intros r c. apply ember_ok_quiet. left. vm_compute. discriminate. }
  specialize (Hrel Hok I). unfold loop_rel in Hrel.
  destruct (run_loop R rational_libm (seeded isotropic_grid 2 2) (Finite 1000) g)
    as [[st|e]|]; try contradiction.
  destruct Hrel as (Hi & Hv & _). exists st.
  split; [reflexivity|]. split; [reflexivity|].
  unfold settled_at. rewrite <- Hi, <- Hv, <- Hst0.
  cbn [ls_visited ls_ignition_time].
  split;
    repeat (constructor;
            [split; [reflexivity
                    | eexists; split; [reflexivity | vm_compute; reflexivity]]|]);
    constructor.
Qed.

(** C6 as stated fails on the diagonal: the time of (1, 1) is 84.84, whose
    square is not that of [30 * sqrt(2) / 0.5], and which lies below
    84.845. *)
Lemma diagonal_time_is_not_sqrt2 :
  match run_simulation scripted rational_libm (seeded isotropic_grid 2 2) (Finite 1000) [] with
  | Some (Ok (field, _)) =>
      exists t, cell field 1 1 = Some (Finite t)
        /\ ~ (t * t == (30 / 0.5) * (30 / 0.5) * 2)%Q
        /\ (t < 84.845)%Q
  | _ => False
  end.
Proof.
  vm_compute. eexists. split; [reflexivity|]. split; [discriminate | reflexivity].
Qed.




(** * Further properties of [run_simulation] *)


(** ** Settled cells and the horizon *)

(** The two floats compare equal. *)
Definition time_eq (a b : time) : Prop := time_le a b /\ time_le b a.

Lemma time_lt_le (a b : time) : time_lt a b -> time_le a b.
Proof.
  unfold time_lt. intros H. destruct (time_le_total a b); [assumption | contradiction].
Qed.

Lemma time_le_lt_trans (a b c : time) : time_le a b -> time_lt b c -> time_lt a c.
Proof.
  unfold time_lt. intros H1 H2 H3. apply H2. eapply time_le_trans; eassumption.
Qed.

Lemma time_lt_le_trans (a b c : time) : time_lt a b -> time_le b c -> time_lt a c.
Proof.
  unfold time_lt. intros H1 H2 H3. apply H1. eapply time_le_trans; eassumption.
Qed.

Lemma time_lt_irrefl (a : time) : ~ time_lt a a.
Proof. intros H. apply H. apply time_le_refl. Qed.

Lemma event_eta (x : event) : x = (ev_time x, ev_row x, ev_col x).
Proof. destruct x as [[t r] c]. reflexivity. Qed.

Section Frontier.

Context {G : Type}.
Variable R : Generator G.
Variable L : Libm.
Variable self : FireModel.
Variable max_time : time.
Hypothesis Hwf : wf_model self.
Hypothesis Hcell : (0 < cell_size self)%Q.
Hypothesis HR : GeneratorSpec R.

(** What holds of the field, the queue and the settled cells between two
    passes. *)
Record front_inv (st : loop_state G) : Prop := {
  fi_finite : forall e, e ∈ ls_pq st -> finite_event e;
  fi_pq : forall e, e ∈ ls_pq st ->
    exists t, cell (ls_ignition_time st) (ev_row e) (ev_col e) = Some t
              /\ time_le t (ev_time e);
  fi_pending : forall r c t, 0 <= r -> 0 <= c ->
    cell (ls_visited st) r c = Some false ->
    cell (ls_ignition_time st) r c = Some t -> time_lt t Infinity ->
    (t, r, c) ∈ ls_pq st \/ time_lt max_time t;
  fi_settled : forall r c, 0 <= r -> 0 <= c ->
    cell (ls_visited st) r c = Some true ->
    exists p t, p ∈ ls_popped st /\ ev_row p = r /\ ev_col p = c
      /\ cell (ls_ignition_time st) r c = Some t
      /\ time_eq t (ev_time p) /\ time_le (ev_time p) max_time /\ finite_event p
}.

Lemma front_inv_start (g : G) st0 : start_state self g = Ok st0 -> front_inv st0.
Proof.
  destruct (start_state_spec self g) as (pq & Hst & Hmem). rewrite Hst.
  intros [= <-]. split; simpl.
  - intros e He. apply Hmem in He as (_ & _ & _ & Hlt).
    unfold finite_event. destruct (ev_time e) as [q|]; [eauto|].
    exfalso. apply Hlt. exact I.
  - intros e He. apply Hmem in He as (_ & _ & Ht & _).
    exists (ev_time e). split; [exact Ht | apply time_le_refl].
  - intros r c t Hr Hc _ Ht Hlt. left. apply Hmem. unfold seed_event. simpl. auto.
  - intros r c _ _ Hv. apply cell_visited0 in Hv. discriminate.
Qed.

(** The part of the invariant that the assignments of a settling pass
    touch; [V] is [visited] during the pass and [e] the event being
    settled. *)
Definition front_fields (V : list (list bool)) (e : event) (ign0 : list (list time))
    (acc : list (list time) * list event) : Prop :=
  (forall x, x ∈ acc.2 -> finite_event x)
  /\ (forall x, x ∈ acc.2 ->
        0 <= ev_row x /\ 0 <= ev_col x
        /\ exists t, cell acc.1 (ev_row x) (ev_col x) = Some t /\ time_le t (ev_time x))
  /\ (forall r c t, 0 <= r -> 0 <= c -> cell V r c = Some false ->
        cell acc.1 r c = Some t -> time_lt t Infinity ->
        (t, r, c) ∈ acc.2 \/ time_lt max_time t)
  /\ (forall r c, 0 <= r -> 0 <= c -> cell V r c = Some true ->
        cell acc.1 r c = cell ign0 r c)
  /\ (forall r c t, 0 <= r -> 0 <= c -> cell acc.1 r c = Some t ->
        exists t0, cell ign0 r c = Some t0 /\ time_le t t0).

Lemma front_fields_updates V e ign0 (K : event -> Prop) acc acc' :
  finite_event e ->
  (forall x, K x -> exists d, (0 < d)%Q /\ ev_time x = time_add (ev_time e) d) ->
  (forall r c t, 0 <= r -> 0 <= c -> cell V r c = Some true ->
     cell ign0 r c = Some t -> time_le t (ev_time e)) ->
  updates self K acc acc' -> front_fields V e ign0 acc -> front_fields V e ign0 acc'.
Proof.
  intros [qe Hqe] HK Hsettled. apply updates_preserve.
  intros ign pq x old (Hfin & Hpq & Hpend & Hfrozen & Hmono) Hx Hb Hold Hlt.
  simpl in Hfin, Hpq, Hpend, Hfrozen, Hmono.
  destruct (HK x Hx) as (d & Hd & Htx). apply in_bounds_spec in Hb.
  assert (Hxr : 0 <= ev_row x) by lia. assert (Hxc : 0 <= ev_col x) by lia.
  assert (Hxfin : finite_event x).
  { unfold finite_event. rewrite Htx, Hqe. simpl. eauto. }
  assert (Hlater : time_lt (ev_time e) (ev_time x)).
  { rewrite Htx. apply time_add_lt; [exact Hd | rewrite Hqe; discriminate]. }
  assert (Hunv : cell V (ev_row x) (ev_col x) <> Some true).
  { intros Hv. pose proof (Hfrozen _ _ Hxr Hxc Hv) as Hf.
    rewrite Hold in Hf. symmetry in Hf.
    apply (time_lt_irrefl (ev_time x)).
    eapply time_lt_le_trans; [exact Hlt|].
    eapply time_le_trans; [|apply time_lt_le; exact Hlater].
    apply (Hsettled (ev_row x) (ev_col x) old); try lia; assumption. }
  unfold front_fields. simpl. split; [|split; [|split; [|split]]].
  - intros y Hy. apply elem_of_cons in Hy as [->|Hy]; auto.
  - intros y Hy.
    assert (Hy0 : 0 <= ev_row y /\ 0 <= ev_col y).
    { apply elem_of_cons in Hy as [->|Hy]; [lia|]. destruct (Hpq y Hy) as (? & ? & _). lia. }
    split; [lia|]. split; [lia|].
    destruct (decide ((ev_row x, ev_col x) = (ev_row y, ev_col y))) as [Heq|Hne].
    + injection Heq as Hr Hc. rewrite <- Hr, <- Hc.
      rewrite cell_update_same by eauto. eexists. split; [reflexivity|].
      apply elem_of_cons in Hy as [->|Hy]; [apply time_le_refl|].
      destruct (Hpq y Hy) as (_ & _ & t & Ht & Hle). rewrite <- Hr, <- Hc, Hold in Ht.
      inversion Ht; subst t. apply time_lt_le.
      eapply time_lt_le_trans; eassumption.
    + rewrite cell_update_other by (try lia; exact Hne).
      apply elem_of_cons in Hy as [->|Hy]; [congruence|].
      destruct (Hpq y Hy) as (_ & _ & Ht). exact Ht.
  - intros r c t Hr Hc Hv Ht Hfinite.
    destruct (decide ((ev_row x, ev_col x) = (r, c))) as [Heq|Hne].
    + inversion Heq; subst r c. rewrite cell_update_same in Ht by eauto.
      inversion Ht; subst t. left. rewrite <- event_eta. left.
    + rewrite cell_update_other in Ht by (try lia; exact Hne).
      destruct (Hpend r c t Hr Hc Hv Ht Hfinite) as [Hin|Hbeyond]; [|auto].
      left. right. exact Hin.
  - intros r c Hr Hc Hv.
    destruct (decide ((ev_row x, ev_col x) = (r, c))) as [Heq|Hne].
    + inversion Heq; subst r c. contradiction.
    + rewrite cell_update_other by (try lia; exact Hne). auto.
  - intros r c t Hr Hc Ht.
    destruct (decide ((ev_row x, ev_col x) = (r, c))) as [Heq|Hne].
    + inversion Heq; subst r c. rewrite cell_update_same in Ht by eauto.
      inversion Ht; subst t.
      destruct (Hmono _ _ old Hxr Hxc Hold) as (t0 & Ht0 & Hle).
      exists t0. split; [exact Ht0|].
      eapply time_le_trans; [apply time_lt_le; exact Hlt | exact Hle].
    + rewrite cell_update_other in Ht by (try lia; exact Hne). auto.
Qed.

(** [visited] after [visited[r0, c0] = True]. *)
Lemma cell_update_true (V : list (list bool)) (r0 c0 r c : Z) :
  is_Some (cell V r0 c0) -> 0 <= r0 -> 0 <= c0 -> 0 <= r -> 0 <= c ->
  (cell (update V r0 c0 true) r c = Some true <->
   (r, c) = (r0, c0) \/ cell V r c = Some true)
  /\ (cell (update V r0 c0 true) r c = Some false ->
      (r, c) <> (r0, c0) /\ cell V r c = Some false).
Proof.
  intros Hsome Hr0 Hc0 Hr Hc.
  destruct (decide ((r0, c0) = (r, c))) as [Heq|Hne].
  - inversion Heq; subst r c. rewrite cell_update_same by exact Hsome.
    split; [tauto | discriminate].
  - rewrite cell_update_other by (try lia; exact Hne). split.
    + split; [auto|]. intros [Heq|Hv]; [congruence | exact Hv].
    + intros Hv. split; [congruence | exact Hv].
Qed.

(** A settling pass: the cell holds the popped time, no settled cell
    holds a later one, and the assignments keep [front_fields]. *)
Lemma settle_front st e pq1 elev0 ign1 pq2 ign' pq' g' :
  basic_inv self st -> pop_inv st -> front_inv st ->
  heappop (ls_pq st) = Ok (e, pq1) ->
  time_le (ev_time e) max_time ->
  cell (ls_visited st) (ev_row e) (ev_col e) = Some false ->
  cell (elevation self) (ev_row e) (ev_col e) = Some elev0 ->
  foldM (relax L self (update (ls_visited st) (ev_row e) (ev_col e) true)
           (ev_time e) (ev_row e) (ev_col e) elev0)
        (ls_ignition_time st, pq1) neighbors = Ok (ign1, pq2) ->
  ember_spotting R L self (ev_time e) (ev_row e) (ev_col e) ign1 pq2 (ls_rng st)
    = Ok (ign', pq', g') ->
  exists te,
    cell (ls_ignition_time st) (ev_row e) (ev_col e) = Some te
    /\ time_eq te (ev_time e) /\ finite_event e
    /\ (forall r c t, 0 <= r -> 0 <= c ->
          cell (update (ls_visited st) (ev_row e) (ev_col e) true) r c = Some true ->
          cell (ls_ignition_time st) r c = Some t -> time_le t (ev_time e))
    /\ front_fields (update (ls_visited st) (ev_row e) (ev_col e) true) e
         (ls_ignition_time st) (ign', pq').
Proof.
  intros Hbasic [_ Hpop_le] [Jfin Jpq Jpend Jset] Hpop Hmax Hvis Hel Hfold Hem.
  destruct (heappop_in_bounds self _ _ _ (bi_pq _ _ Hbasic) Hpop) as [Hb _].
  pose proof (heappop_spec _ _ _ Hpop) as [Hperm Hmin].
  pose proof Hb as Hb'. apply in_bounds_spec in Hb'.
  assert (Her : 0 <= ev_row e) by lia. assert (Hec : 0 <= ev_col e) by lia.
  assert (He : e ∈ ls_pq st) by (rewrite Hperm; left).
  pose proof (Jfin e He) as Hefin.
  destruct (Jpq e He) as (te & Hte & Hte_le).
  assert (Hte_eq : time_eq te (ev_time e)).
  { split; [exact Hte_le|].
    assert (Htefin : time_lt te Infinity).
    { destruct Hefin as [q Hq]. rewrite Hq in Hte_le. destruct te; simpl in *;
        [unfold time_lt; simpl; tauto | contradiction]. }
    destruct (Jpend _ _ te Her Hec Hvis Hte Htefin) as [Hin|Hbeyond].
    - rewrite Forall_forall in Hmin. apply (event_le_time e (te, ev_row e, ev_col e)).
      apply Hmin. exact Hin.
    - exfalso. apply Hbeyond. eapply time_le_trans; eassumption. }
  set (V := update (ls_visited st) (ev_row e) (ev_col e) true) in *.
  assert (HV : forall r c, 0 <= r -> 0 <= c ->
            (cell V r c = Some true <->
             (r, c) = (ev_row e, ev_col e) \/ cell (ls_visited st) r c = Some true)
            /\ (cell V r c = Some false ->
                (r, c) <> (ev_row e, ev_col e) /\ cell (ls_visited st) r c = Some false)).
  { intros r c Hr Hc. apply cell_update_true; eauto. }
  pose proof (settle_updates R L self st e pq1 elev0 ign1 pq2 ign' pq' g' Hb Hel Hfold Hem)
    as Hu.
  assert (Hsettled : forall r c t, 0 <= r -> 0 <= c -> cell V r c = Some true ->
            cell (ls_ignition_time st) r c = Some t -> time_le t (ev_time e)).
  { intros r c t Hr Hc Hv Ht. apply (HV r c Hr Hc) in Hv as [Heq|Hv].
    - inversion Heq; subst r c. rewrite Hte in Ht. inversion Ht; subst t. exact Hte_le.
    - destruct (Jset r c Hr Hc Hv) as (p & t' & Hp & _ & _ & Ht' & [Hle _] & _ & _).
      rewrite Ht in Ht'. inversion Ht'; subst t'.
      eapply time_le_trans; [exact Hle|]. apply Hpop_le; assumption. }
  exists te. split; [exact Hte|]. split; [exact Hte_eq|]. split; [exact Hefin|].
  split; [exact Hsettled|].
  eapply front_fields_updates; [exact Hefin | | exact Hsettled | exact Hu |].
  - intros x Hx. apply (pushed_event_later R L self Hwf Hcell HR V e x Hx).
  - split; [|split; [|split; [|split]]]; simpl.
    + intros x Hx. apply Jfin. rewrite Hperm. right. exact Hx.
    + intros x Hx.
      assert (Hx' : x ∈ ls_pq st) by (rewrite Hperm; right; exact Hx).
      pose proof (bi_pq _ _ Hbasic) as Hpqb. unfold pq_in_bounds in Hpqb.
      rewrite Forall_forall in Hpqb. specialize (Hpqb x Hx').
      apply in_bounds_spec in Hpqb.
      split; [lia|]. split; [lia|]. apply Jpq. exact Hx'.
    + intros r c t Hr Hc Hv Ht Hfinite.
      apply (HV r c Hr Hc) in Hv as [Hne Hv].
      destruct (Jpend r c t Hr Hc Hv Ht Hfinite) as [Hin|Hbeyond]; [|auto].
      rewrite Hperm in Hin. apply elem_of_cons in Hin as [Heq|Hin]; [|auto].
      exfalso. apply Hne. subst e. reflexivity.
    + reflexivity.
    + intros r c t _ _ Ht. exists t. split; [exact Ht | apply time_le_refl].
Qed.

(** One pass: the invariant is kept, no time of the field grows, and the
    cells settled before the pass keep their times. *)
Lemma front_inv_step st ctl st' :
  basic_inv self st -> pop_inv st -> front_inv st ->
  body_case R L self max_time st ctl st' ->
  front_inv st'
  /\ (forall r c, 0 <= r -> 0 <= c -> cell (ls_visited st) r c = Some true ->
        cell (ls_ignition_time st') r c = cell (ls_ignition_time st) r c)
  /\ (forall r c t, 0 <= r -> 0 <= c -> cell (ls_ignition_time st') r c = Some t ->
        exists t0, cell (ls_ignition_time st) r c = Some t0 /\ time_le t t0).
Proof.
  intros Hbasic Hpinv Hfinv Hcase.
  pose proof Hfinv as [Jfin Jpq Jpend Jset].
  destruct Hcase as [e pq1 Hpop Hmax | e pq1 Hpop Hmax Hvis
                    | e pq1 elev0 ign1 pq2 ign' pq' g' Hpop Hmax Hvis Hel Hfold Hem];
    destruct (heappop_in_bounds self _ _ _ (bi_pq _ _ Hbasic) Hpop) as [Hb _];
    pose proof (heappop_spec _ _ _ Hpop) as [Hperm Hmin];
    pose proof Hb as Hb'; apply in_bounds_spec in Hb';
    assert (Her : 0 <= ev_row e) by lia; assert (Hec : 0 <= ev_col e) by lia.
  - split; [|split; [auto | intros r c t _ _ Ht; exists t; split;
                              [exact Ht | apply time_le_refl]]].
    split; simpl.
    + intros x Hx. apply Jfin. rewrite Hperm. right. exact Hx.
    + intros x Hx. apply Jpq. rewrite Hperm. right. exact Hx.
    + intros r c t Hr Hc Hv Ht Hfinite.
      destruct (Jpend r c t Hr Hc Hv Ht Hfinite) as [Hin|Hbeyond]; [|auto].
      rewrite Hperm in Hin. apply elem_of_cons in Hin as [Heq|Hin]; [|auto].
      right. subst e. exact Hmax.
    + intros r c Hr Hc Hv. destruct (Jset r c Hr Hc Hv) as (p & t & Hp & Hrest).
      exists p, t. split; [right; exact Hp | exact Hrest].
  - split; [|split; [auto | intros r c t _ _ Ht; exists t; split;
                              [exact Ht | apply time_le_refl]]].
    split; simpl.
    + intros x Hx. apply Jfin. rewrite Hperm. right. exact Hx.
    + intros x Hx. apply Jpq. rewrite Hperm. right. exact Hx.
    + intros r c t Hr Hc Hv Ht Hfinite.
      destruct (Jpend r c t Hr Hc Hv Ht Hfinite) as [Hin|Hbeyond]; [|auto].
      rewrite Hperm in Hin. apply elem_of_cons in Hin as [Heq|Hin]; [|auto].
      exfalso. subst e. unfold ev_row, ev_col in Hvis. simpl in Hvis. congruence.
    + intros r c Hr Hc Hv. destruct (Jset r c Hr Hc Hv) as (p & t & Hp & Hrest).
      exists p, t. split; [right; exact Hp | exact Hrest].
  - destruct (settle_front st e pq1 elev0 ign1 pq2 ign' pq' g'
                Hbasic Hpinv Hfinv Hpop Hmax Hvis Hel Hfold Hem)
      as (te & Hte & Hte_eq & Hefin & _ & Ffin & Fpq & Fpend & Ffrozen & Fmono).
    simpl in *.
    assert (HV : forall r c, 0 <= r -> 0 <= c ->
              (cell (update (ls_visited st) (ev_row e) (ev_col e) true) r c = Some true <->
               (r, c) = (ev_row e, ev_col e) \/ cell (ls_visited st) r c = Some true)).
    { intros r c Hr Hc. apply cell_update_true; eauto. }
    split; [|split].
    + split; simpl; try assumption.
      { intros x Hx. destruct (Fpq x Hx) as (_ & _ & Ht). exact Ht. }
      intros r c Hr Hc Hv. rewrite (Ffrozen r c Hr Hc Hv).
      apply (HV r c Hr Hc) in Hv as [Heq|Hv].
      * inversion Heq; subst r c. exists e, te. split; [left|].
        split; [reflexivity|]. split; [reflexivity|]. auto 6.
      * destruct (Jset r c Hr Hc Hv) as (p & t & Hp & Hrest).
        exists p, t. split; [right; exact Hp | exact Hrest].
    + intros r c Hr Hc Hv. apply Ffrozen; try assumption.
      apply (HV r c Hr Hc). right. exact Hv.
    + exact Fmono.
Qed.

(** The cells settled before a pass are settled after it. *)
Lemma body_case_visited st ctl st' r c :
  body_case R L self max_time st ctl st' -> 0 <= r -> 0 <= c ->
  pq_in_bounds self (ls_pq st) ->
  cell (ls_visited st) r c = Some true -> cell (ls_visited st') r c = Some true.
Proof.
  intros Hcase Hr Hc Hpq Hv.
  destruct Hcase as [e pq1 Hpop Hmax | e pq1 Hpop Hmax Hvis
                    | e pq1 elev0 ign1 pq2 ign' pq' g' Hpop Hmax Hvis Hel Hfold Hem];
    simpl; try exact Hv.
  destruct (heappop_in_bounds self _ _ _ Hpq Hpop) as [Hb _]. apply in_bounds_spec in Hb.
  destruct (decide ((ev_row e, ev_col e) = (r, c))) as [Heq|Hne].
  - inversion Heq; subst r c. congruence.
  - rewrite cell_update_other by (try lia; exact Hne). exact Hv.
Qed.

(** The same facts along any number of passes, from any state [st1] that
    meets the invariants. *)
Record since (st1 st : loop_state G) : Prop := {
  sn_pop : pop_inv st;
  sn_front : front_inv st;
  sn_visited : forall r c, 0 <= r -> 0 <= c ->
    cell (ls_visited st1) r c = Some true -> cell (ls_visited st) r c = Some true;
  sn_frozen : forall r c, 0 <= r -> 0 <= c ->
    cell (ls_visited st1) r c = Some true ->
    cell (ls_ignition_time st) r c = cell (ls_ignition_time st1) r c;
  sn_mono : forall r c t, 0 <= r -> 0 <= c ->
    cell (ls_ignition_time st) r c = Some t ->
    exists t1, cell (ls_ignition_time st1) r c = Some t1 /\ time_le t t1
}.

Lemma steps_since st1 ctl st :
  basic_inv self st1 -> pop_inv st1 -> front_inv st1 ->
  steps R L self max_time st1 ctl st -> since st1 st.
Proof.
  intros Hb1 Hp1 Hf1 Hsteps.
  refine (steps_invariant R L self max_time (since st1) st1 Hb1 _ _ ctl st Hsteps).
  - split; auto. intros r c t _ _ Ht. exists t. split; [exact Ht | apply time_le_refl].
  - clear ctl st Hsteps. intros st ctl st' Hb [Hp Hf Hv Hfr Hm] Hcase.
    destruct (front_inv_step st ctl st' Hb Hp Hf Hcase) as (Hf' & Hfr' & Hm').
    split.
    + eapply pop_inv_step; eauto.
    + exact Hf'.
    + intros r c Hr Hc Hv1. eapply body_case_visited; eauto. apply (bi_pq _ _ Hb).
    + intros r c Hr Hc Hv1. rewrite Hfr' by auto. auto.
    + intros r c t Hr Hc Ht. destruct (Hm' r c t Hr Hc Ht) as (t0 & Ht0 & Hle0).
      destruct (Hm r c t0 Hr Hc Ht0) as (t1 & Ht1 & Hle1).
      exists t1. split; [exact Ht1 | eapply time_le_trans; eassumption].
Qed.

Lemma start_since (g : G) st0 ctl st :
  start_state self g = Ok st0 -> steps R L self max_time st0 ctl st -> since st0 st.
Proof.
  intros Hs0 Hsteps. apply (steps_since st0 ctl st); [| | |exact Hsteps].
  - apply (start_state_basic self Hwf g). exact Hs0.
  - apply (steps_pop_inv R L self max_time Hwf Hcell HR g st0 Next st0 Hs0).
    apply steps_start.
  - apply (front_inv_start g). exact Hs0.
Qed.

(** After [break] every pending event lies beyond the horizon. *)
Lemma stop_pending_beyond (g : G) st0 st :
  start_state self g = Ok st0 -> steps R L self max_time st0 Stop st ->
  forall x, x ∈ ls_pq st -> time_lt max_time (ev_time x).
Proof.
  intros Hs0 Hsteps x Hx.
  destruct (steps_stop_popped R L self max_time st0 st Hsteps) as (p & rest & Hp & Hlt).
  destruct (steps_pop_inv R L self max_time Hwf Hcell HR g st0 Stop st Hs0 Hsteps)
    as [_ Hle].
  eapply time_lt_le_trans; [exact Hlt|]. apply Hle; [rewrite Hp; left | exact Hx].
Qed.

(** At the end of a run: a settled cell holds a time within the horizon,
    every other cell holds "never" or a time beyond the horizon. *)
Lemma run_loop_horizon_split (g : G) st :
  run_loop R L self max_time g = Some (Ok st) ->
  forall r c, in_bounds self r c = true ->
    exists t, cell (ls_ignition_time st) r c = Some t
      /\ ((cell (ls_visited st) r c = Some true
           /\ time_le t max_time /\ time_lt t Infinity)
          \/ (cell (ls_visited st) r c = Some false
              /\ (t = Infinity \/ time_lt max_time t))).
Proof.
  intros Hrun r c Hb.
  destruct (run_loop_steps R L self max_time g st Hrun) as (st0 & ctl & Hs0 & Hsteps & Hend).
  pose proof (start_state_basic self Hwf g st0 Hs0) as Hb0.
  pose proof (steps_basic R L self max_time st0 ctl st Hb0 Hsteps) as Hbasic.
  destruct (start_since g st0 ctl st Hs0 Hsteps) as [Hp Hf _ _ _].
  pose proof Hb as Hb'. apply in_bounds_spec in Hb'.
  destruct (in_bounds_cell self _ r c (bi_ignition_time _ _ Hbasic) Hb) as [t Ht].
  destruct (in_bounds_cell self _ r c (bi_visited _ _ Hbasic) Hb) as [v Hv].
  exists t. split; [exact Ht|]. destruct v.
  - left. split; [exact Hv|].
    destruct (fi_settled _ Hf r c) as (p & t' & _ & _ & _ & Ht' & [Hle Hge] & Hmax & [q Hq]);
      try lia; try exact Hv.
    rewrite Ht in Ht'. inversion Ht'; subst t'. split.
    + eapply time_le_trans; eassumption.
    + rewrite Hq in Hle. destruct t; simpl in Hle; [|contradiction].
      unfold time_lt. simpl. tauto.
  - right. split; [exact Hv|].
    destruct t as [q|]; [right | left; reflexivity].
    destruct (fi_pending _ Hf r c (Finite q)) as [Hin|Hbeyond]; try lia; try assumption.
    + unfold time_lt. simpl. tauto.
    + destruct Hend as [->|Hnil].
      * apply (stop_pending_beyond g st0 st Hs0 Hsteps _ Hin).
      * rewrite Hnil in Hin. apply elem_of_nil in Hin. contradiction.
Qed.

End Frontier.


(** ** Two horizons *)

Section Truncation.

Context {G : Type}.
Variable R : Generator G.
Variable L : Libm.
Variable self : FireModel.
Variables m1 m2 : time.
Hypothesis Hwf : wf_model self.
Hypothesis Hcell : (0 < cell_size self)%Q.
Hypothesis HR : GeneratorSpec R.
Hypothesis Hm : time_le m1 m2.

(** Up to its [break], the run with the nearer horizon is the run with the
    farther one. *)
Lemma steps_prefix st0 ctl st :
  basic_inv self st0 ->
  steps R L self m1 st0 ctl st ->
  (ctl = Next /\ steps R L self m2 st0 Next st)
  \/ (ctl = Stop /\ exists st1 e pq1,
        steps R L self m2 st0 Next st1
        /\ heappop (ls_pq st1) = Ok (e, pq1) /\ time_lt m1 (ev_time e)
        /\ ls_ignition_time st = ls_ignition_time st1
        /\ ls_visited st = ls_visited st1).
Proof.
  intros Hb0. induction 1 as [|st1 ctl st' Hst IH Hne Hbody].
  - left. split; [reflexivity | apply steps_start].
  - destruct IH as [[_ IH]|[Hc _]]; [|discriminate].
    pose proof (steps_basic R L self m1 st0 Next st1 Hb0 Hst) as Hb1.
    pose proof (loop_body_cases R L self m1 st1 ctl st' (bi_pq _ _ Hb1) Hbody) as Hcase.
    assert (Hnext : forall e pq1, heappop (ls_pq st1) = Ok (e, pq1) ->
              time_le (ev_time e) m1 -> ctl = Next ->
              steps R L self m2 st0 Next st').
    { intros e pq1 Hpop Hle ->. apply (steps_next R L self m2 st0 st1 Next st' IH Hne).
      rewrite (loop_body_horizon R L self m2 m1 st1); [exact Hbody|].
      intros e' pq1' Hpop'. rewrite Hpop in Hpop'. inversion Hpop'; subst e' pq1'.
      rewrite (proj2 (time_ltb_ge m1 (ev_time e)) Hle).
      apply time_ltb_ge. eapply time_le_trans; eassumption. }
    destruct Hcase as [e pq1 Hpop Hmax | e pq1 Hpop Hmax Hvis
                      | e pq1 elev0 ign1 pq2 ign' pq' g' Hpop Hmax Hvis Hel Hfold Hem].
    + right. split; [reflexivity|]. exists st1, e, pq1. auto.
    + left. split; [reflexivity|]. eapply Hnext; eauto.
    + left. split; [reflexivity|]. eapply Hnext; eauto.
Qed.

(** A run that goes through [st1] ends as the run resumed from [st1]. *)
Lemma steps_resume st0 ctl st1 n r :
  steps R L self m2 st0 ctl st1 -> ctl = Next ->
  while_loop R L self m2 n st0 = Some (Ok r) ->
  exists n', while_loop R L self m2 n' st1 = Some (Ok r).
Proof.
  induction 1 as [|st1 ctl st' Hst IH Hne Hbody]; intros Hctl Hloop.
  - eauto.
  - subst ctl. destruct (IH eq_refl Hloop) as [n1 Hn1].
    destruct n1 as [|n1]; simpl in Hn1;
      destruct (ls_pq st1) eqn:Hpq; try congruence.
    rewrite Hbody in Hn1. eauto.
Qed.

(** From a state where every pending event lies beyond [m1], the cells not
    yet settled never get a time within [m1]. *)
Definition beyond (st1 st : loop_state G) : Prop :=
  (forall x, x ∈ ls_pq st -> time_lt m1 (ev_time x))
  /\ (forall r c t, 0 <= r -> 0 <= c -> cell (ls_visited st1) r c = Some false ->
        cell (ls_ignition_time st) r c = Some t -> t = Infinity \/ time_lt m1 t).

Lemma beyond_step st1 st ctl st' :
  basic_inv self st -> beyond st1 st ->
  body_case R L self m2 st ctl st' -> beyond st1 st'.
Proof.
  intros Hbasic [Hpq Hcells] Hcase.
  destruct Hcase as [e pq1 Hpop Hmax | e pq1 Hpop Hmax Hvis
                    | e pq1 elev0 ign1 pq2 ign' pq' g' Hpop Hmax Hvis Hel Hfold Hem];
    pose proof (heappop_spec _ _ _ Hpop) as [Hperm _];
    destruct (heappop_in_bounds self _ _ _ (bi_pq _ _ Hbasic) Hpop) as [Hb _];
    try (split; simpl; [intros x Hx; apply Hpq; rewrite Hperm; right; exact Hx
                       | exact Hcells]).
  pose proof (settle_updates R L self st e pq1 elev0 ign1 pq2 ign' pq' g' Hb Hel Hfold Hem)
    as Hu.
  assert (He : time_lt m1 (ev_time e)) by (apply Hpq; rewrite Hperm; left).
  refine (updates_preserve self _
           (fun acc => (forall x, x ∈ acc.2 -> time_lt m1 (ev_time x))
                       /\ (forall r c t, 0 <= r -> 0 <= c ->
                             cell (ls_visited st1) r c = Some false ->
                             cell acc.1 r c = Some t -> t = Infinity \/ time_lt m1 t))
           (ls_ignition_time st, pq1) (ign', pq') _ Hu _).
  - intros ign pq x old [Hq Hc] Hx Hxb Hold Hlt. simpl in *.
    destruct (pushed_event_later R L self Hwf Hcell HR _ e x Hx) as (d & Hd & Ht).
    assert (Hxl : time_lt m1 (ev_time x)).
    { eapply time_lt_le_trans; [exact He|]. rewrite Ht. apply time_add_le. lra. }
    apply in_bounds_spec in Hxb. split.
    + intros y Hy. apply elem_of_cons in Hy as [->|Hy]; auto.
    + intros r c t Hr Hc0 Hv Hcell'.
      destruct (decide ((ev_row x, ev_col x) = (r, c))) as [Heq|Hne].
      * inversion Heq; subst r c. rewrite cell_update_same in Hcell' by eauto.
        inversion Hcell'; subst t. right. exact Hxl.
      * rewrite cell_update_other in Hcell' by (try lia; exact Hne). eauto.
  - split; simpl; [|exact Hcells].
    intros x Hx. apply Hpq. rewrite Hperm. right. exact Hx.
Qed.

(** The run with horizon [m1] against the run with the farther horizon
    [m2], both from the same object and generator: a cell that the first
    leaves with a time within [m1] has that very time in the second; any
    other cell has a time beyond [m1] (or "never") in both; and no time of
    the second exceeds that of the first. *)
Lemma run_loop_truncation (g : G) (st_1 st_2 : loop_state G) :
  run_loop R L self m1 g = Some (Ok st_1) ->
  run_loop R L self m2 g = Some (Ok st_2) ->
  forall r c t1, in_bounds self r c = true ->
    cell (ls_ignition_time st_1) r c = Some t1 ->
    exists t2, cell (ls_ignition_time st_2) r c = Some t2
      /\ time_le t2 t1
      /\ (time_le t1 m1 -> time_lt t1 Infinity -> t2 = t1)
      /\ (time_lt m1 t1 -> time_lt m1 t2).
Proof.
  intros Hrun1 Hrun2 r c t1 Hb Ht1.
  pose proof Hb as Hb'. apply in_bounds_spec in Hb'.
  destruct (run_loop_horizon_split R L self m1 Hwf Hcell HR g st_1 Hrun1 r c Hb)
    as (t1' & Ht1' & Hsplit).
  rewrite Ht1 in Ht1'. inversion Ht1'; subst t1'. clear Ht1'.
  destruct (run_loop_steps R L self m1 g st_1 Hrun1) as (st0 & ctl & Hs0 & Hsteps1 & Hend).
  pose proof (start_state_basic self Hwf g st0 Hs0) as Hb0.
  assert (Hsame : forall st1, steps R L self m2 st0 Next st1 ->
            ls_pq st1 = [] -> ls_ignition_time st_1 = ls_ignition_time st1 ->
            exists t2, cell (ls_ignition_time st_2) r c = Some t2
              /\ time_le t2 t1
              /\ (time_le t1 m1 -> time_lt t1 Infinity -> t2 = t1)
              /\ (time_lt m1 t1 -> time_lt m1 t2)).
  { intros st1 Hst1 Hnil Hign. unfold run_loop in Hrun2. rewrite Hs0 in Hrun2.
    destruct (steps_resume st0 Next st1 _ st_2 Hst1 eq_refl Hrun2) as [n' Hn'].
    rewrite while_loop_empty in Hn' by exact Hnil. inversion Hn'; subst st_2.
    exists t1. rewrite <- Hign. split; [exact Ht1|].
    split; [apply time_le_refl | auto]. }
  destruct (steps_prefix st0 ctl st_1 Hb0 Hsteps1)
    as [[-> Hst]|[-> (st1 & e & pq1 & Hst1 & Hpop & Hlate & Hign & Hvis)]].
  { destruct Hend as [Hc|Hnil]; [discriminate|]. apply (Hsame st_1 Hst Hnil eq_refl). }
  unfold run_loop in Hrun2. rewrite Hs0 in Hrun2.
  destruct (steps_resume st0 Next st1 _ st_2 Hst1 eq_refl Hrun2) as [n' Hn'].
  destruct (while_loop_steps R L self m2 st1 n' st1 st_2 (steps_start _ _ _ _ _) Hn')
    as (ctl2 & Hsteps2 & _).
  pose proof (steps_basic R L self m2 st0 Next st1 Hb0 Hst1) as Hbasic1.
  destruct (start_since R L self m2 Hwf Hcell HR g st0 Next st1 Hs0 Hst1)
    as [Hp1 Hf1 _ _ _].
  destruct (steps_since R L self m2 Hwf Hcell HR st1 ctl2 st_2 Hbasic1 Hp1 Hf1 Hsteps2)
    as [_ _ _ Hfrozen Hmono].
  pose proof (steps_basic R L self m2 st1 ctl2 st_2 Hbasic1 Hsteps2) as Hbasic2.
  destruct (in_bounds_cell self _ r c (bi_ignition_time _ _ Hbasic2) Hb) as [t2 Ht2].
  exists t2. split; [exact Ht2|].
  destruct (Hmono r c t2) as (t1' & Ht1' & Hle); try lia; try exact Ht2.
  rewrite <- Hign, Ht1 in Ht1'. inversion Ht1'; subst t1'. clear Ht1'.
  split; [exact Hle|]. split.
  - intros Hin Hfin. destruct Hsplit as [(Hv & _)|(Hv & [->|Hbeyond])].
    + rewrite Hvis in Hv. rewrite (Hfrozen r c) in Ht2 by (try lia; exact Hv).
      rewrite <- Hign, Ht1 in Ht2. congruence.
    + exfalso. apply Hfin. exact I.
    + contradiction.
  - intros Hout. destruct Hsplit as [(_ & Hin & _)|(Hv & _)]; [contradiction|].
    assert (Hfinal : beyond st1 st_2).
    { refine (steps_invariant R L self m2 (beyond st1) st1 Hbasic1 _ _ ctl2 st_2 Hsteps2).
      - pose proof (heappop_spec _ _ _ Hpop) as [Hperm Hmin].
        rewrite Forall_forall in Hmin.
        assert (Hall : forall x, x ∈ ls_pq st1 -> time_lt m1 (ev_time x)).
        { intros x Hx. eapply time_lt_le_trans; [exact Hlate|].
          apply event_le_time. apply Hmin. exact Hx. }
        split; [exact Hall|].
        intros r' c' t Hr' Hc' Hv' Ht. destruct t as [q|]; [right | left; reflexivity].
        destruct (fi_pending _ _ Hf1 r' c' (Finite q) Hr' Hc' Hv' Ht) as [Hin|Hbeyond].
        + unfold time_lt. simpl. tauto.
        + apply (Hall _ Hin).
        + eapply time_le_lt_trans; eassumption.
      - intros st ctl' st' Hbs Hbe Hcase. eapply beyond_step; eauto. }
    destruct Hfinal as [_ Hcells]. rewrite Hvis in Hv.
    destruct (Hcells r c t2) as [->|Hlt]; try lia; try assumption.
    unfold time_lt in *. destruct m1, t1; simpl in *; tauto.
Qed.

End Truncation.


(** ** The equations of the field *)

Lemma time_add_le_compat (a b : time) (d : Q) :
  time_le a b -> time_le (time_add a d) (time_add b d).
Proof. destruct a, b; simpl; try easy. lra. Qed.

Lemma time_eq_finite (a b : time) : time_eq a b -> finite_event (b, 0, 0) -> time_lt a Infinity.
Proof.
  intros [H _] [q Hq]. unfold ev_time in Hq. simpl in Hq. subst b.
  destruct a; simpl in H; [unfold time_lt; simpl; tauto | contradiction].
Qed.

(** An upper bound on a cell outlives the assignments. *)
Lemma updates_bound (self : FireModel) (K : event -> Prop) acc acc' r c b :
  updates self K acc acc' -> 0 <= r -> 0 <= c ->
  (exists t, cell acc.1 r c = Some t /\ time_le t b) ->
  exists t, cell acc'.1 r c = Some t /\ time_le t b.
Proof.
  intros Hu Hr Hc. revert Hu.
  apply (updates_preserve self K
           (fun acc => exists t, cell acc.1 r c = Some t /\ time_le t b)).
  intros ign pq x old (t & Ht & Hle) Hx Hb Hold Hlt. simpl in *.
  apply in_bounds_spec in Hb.
  destruct (decide ((ev_row x, ev_col x) = (r, c))) as [Heq|Hne].
  - inversion Heq; subst r c. rewrite cell_update_same by eauto.
    eexists. split; [reflexivity|]. rewrite Hold in Ht. inversion Ht; subst t.
    eapply time_le_trans; [apply time_lt_le; exact Hlt | exact Hle].
  - rewrite cell_update_other by (try lia; exact Hne). eauto.
Qed.

Section Bellman.

Context {G : Type}.
Variable R : Generator G.
Variable L : Libm.
Variable self : FireModel.
Variable max_time : time.
Hypothesis Hwf : wf_model self.
Hypothesis Hcell : (0 < cell_size self)%Q.
Hypothesis HR : GeneratorSpec R.

(** The time the front takes from [(r, c)] to its neighbour at offset
    [(dr, dc)], when both are cells of the grid. *)
Definition edge_time (r c : Z) (nb : Z * Z * Q) : option Q :=
  let '(dr, dc, dm) := nb in
  f ← cell (fuel self) (r + dr) (c + dc);
  elev0 ← cell (elevation self) r c;
  elev ← cell (elevation self) (r + dr) (c + dc);
  Some (travel_time L self f elev0 elev dr dc dm).

(** No neighbour of [(r, c)] that is not Water holds a time later than the
    front from [(r, c)] would bring. *)
Definition edges_relaxed (ign : list (list time)) (r c : Z) : Prop :=
  forall t dr dc dm d,
    cell ign r c = Some t ->
    (dr, dc, dm) ∈ neighbors ->
    in_bounds self (r + dr) (c + dc) = true ->
    cell (fuel self) (r + dr) (c + dc) <> Some 3 ->
    edge_time r c (dr, dc, dm) = Some d ->
    exists tn, cell ign (r + dr) (c + dc) = Some tn /\ time_le tn (time_add t d).

(** [t] is the time the front brings to [(r, c)] from a settled
    neighbour. *)
Definition spread_from (V : list (list bool)) (ign : list (list time))
    (r c : Z) (t : time) : Prop :=
  exists r0 c0 t0 dr dc dm d,
    0 <= r0 /\ 0 <= c0 /\ cell V r0 c0 = Some true /\ cell ign r0 c0 = Some t0
    /\ (dr, dc, dm) ∈ neighbors /\ r = r0 + dr /\ c = c0 + dc
    /\ cell (fuel self) r c <> Some 3
    /\ edge_time r0 c0 (dr, dc, dm) = Some d
    /\ time_eq t (time_add t0 d).

(** [t] is the landing time of an ember thrown from a settled Forest
    cell, after a flight of 10 to 30 minutes. *)
Definition spotted_from (V : list (list bool)) (ign : list (list time))
    (r c : Z) (t : time) : Prop :=
  exists r0 c0 t0 f u,
    0 <= r0 /\ 0 <= c0 /\ cell V r0 c0 = Some true /\ cell ign r0 c0 = Some t0
    /\ cell (fuel self) r0 c0 = Some 2 /\ (5 < wind_speed self)%Q
    /\ cell (fuel self) r c = Some f /\ (f = 1 \/ f = 2)
    /\ (0 <= u < 1)%Q /\ time_eq t (time_add t0 (10.0 + u * 20.0)).

Record bellman_inv (st : loop_state G) : Prop := {
  bl_edges : forall r c, 0 <= r -> 0 <= c ->
    cell (ls_visited st) r c = Some true -> edges_relaxed (ls_ignition_time st) r c;
  bl_arrival : forall r c t, 0 <= r -> 0 <= c ->
    cell (ls_ignition_time st) r c = Some t -> time_lt t Infinity ->
    cell (ignition_time self) r c = Some t
    \/ spread_from (ls_visited st) (ls_ignition_time st) r c t
    \/ spotted_from (ls_visited st) (ls_ignition_time st) r c t
}.

Lemma relax_bounds V t0 r0 c0 elev0 ign pq dr dc dm f elev ign' pq' :
  relax L self V t0 r0 c0 elev0 (ign, pq) (dr, dc, dm) = Ok (ign', pq') ->
  in_bounds self (r0 + dr) (c0 + dc) = true ->
  cell V (r0 + dr) (c0 + dc) = Some false ->
  cell (fuel self) (r0 + dr) (c0 + dc) = Some f -> f <> 3 ->
  cell (elevation self) (r0 + dr) (c0 + dc) = Some elev ->
  exists tn, cell ign' (r0 + dr) (c0 + dc) = Some tn
    /\ time_le tn (time_add t0 (travel_time L self f elev0 elev dr dc dm)).
Proof.
  intros H Hb Hv Hf Hf3 He. unfold relax in H. rewrite Hb in H.
  pose proof Hb as Hb'. apply in_bounds_spec in Hb'.
  rewrite !getitem_cell in H by lia. rewrite Hv in H. revert H. bind_step.
  rewrite Hf. bind_step. destruct (Z.eqb_spec f 3) as [->|_]; [congruence|].
  rewrite He. bind_step.
  destruct (cell ign (r0 + dr) (c0 + dc)) as [old|] eqn:Hold; bind_step; [|discriminate].
  destruct (time_ltb _ old) eqn:Hlt.
  - rewrite setitem_cell by lia. rewrite Hold. bind_step. intros [= <- <-].
    eexists. rewrite cell_update_same by eauto. split; [reflexivity | apply time_le_refl].
  - intros [= <- <-]. exists old. split; [exact Hold|]. apply time_ltb_ge. exact Hlt.
Qed.

Lemma foldM_relax_bounds V t0 r0 c0 elev0 nbs acc acc' :
  foldM (relax L self V t0 r0 c0 elev0) acc nbs = Ok acc' ->
  nbs ⊆ neighbors ->
  cell (elevation self) r0 c0 = Some elev0 ->
  forall dr dc dm f elev, (dr, dc, dm) ∈ nbs ->
    in_bounds self (r0 + dr) (c0 + dc) = true ->
    cell V (r0 + dr) (c0 + dc) = Some false ->
    cell (fuel self) (r0 + dr) (c0 + dc) = Some f -> f <> 3 ->
    cell (elevation self) (r0 + dr) (c0 + dc) = Some elev ->
    exists tn, cell acc'.1 (r0 + dr) (c0 + dc) = Some tn
      /\ time_le tn (time_add t0 (travel_time L self f elev0 elev dr dc dm)).
Proof.
  revert acc. induction nbs as [|nb nbs IH];
    intros acc H Hsub Hel dr dc dm f elev Hin Hb Hv Hf Hf3 He.
  - apply elem_of_nil in Hin. contradiction.
  - simpl in H.
    destruct (relax L self V t0 r0 c0 elev0 acc nb) as [acc1|] eqn:H1;
      revert H; bind_step; [|discriminate].
    intros H.
    assert (Hsub' : nbs ⊆ neighbors) by (intros x Hx; apply Hsub; right; exact Hx).
    apply elem_of_cons in Hin as [<-|Hin].
    + pose proof Hb as Hb'. apply in_bounds_spec in Hb'.
      pose proof (foldM_relax_updates L self V t0 r0 c0 elev0 nbs acc1 acc' H Hsub' Hel)
        as Hu.
      apply (updates_bound self _ acc1 acc' _ _ _ Hu); try lia.
      destruct acc as [ign pq], acc1 as [ign1 pq1]. simpl.
      eapply relax_bounds; eauto.
    + eapply IH; eauto.
Qed.

Lemma edge_time_spec r c dr dc dm d :
  edge_time r c (dr, dc, dm) = Some d <->
  exists f elev0 elev,
    cell (fuel self) (r + dr) (c + dc) = Some f
    /\ cell (elevation self) r c = Some elev0
    /\ cell (elevation self) (r + dr) (c + dc) = Some elev
    /\ d = travel_time L self f elev0 elev dr dc dm.
Proof.
  unfold edge_time.
  destruct (cell (fuel self) (r + dr) (c + dc)) as [f|]; simpl;
    [|split; [discriminate | intros (? & ? & ? & ? & _); discriminate]].
  destruct (cell (elevation self) r c) as [e0|]; simpl;
    [|split; [discriminate | intros (? & ? & ? & _ & ? & _); discriminate]].
  destruct (cell (elevation self) (r + dr) (c + dc)) as [e1|]; simpl;
    [|split; [discriminate | intros (? & ? & ? & _ & _ & ? & _); discriminate]].
  split.
  - intros [= <-]. eauto 10.
  - intros (f' & e0' & e1' & [= <-] & [= <-] & [= <-] & ->). reflexivity.
Qed.

Lemma edge_time_pos r c dr dc dm d :
  (dr, dc, dm) ∈ neighbors ->
  cell (fuel self) (r + dr) (c + dc) <> Some 3 ->
  edge_time r c (dr, dc, dm) = Some d -> (0 < d)%Q.
Proof.
  intros Hnb Hf3 Hd. apply edge_time_spec in Hd as (f & e0 & e1 & Hf & _ & _ & ->).
  apply travel_time_pos; try assumption.
  - congruence.
  - eapply neighbors_dist_mult. exact Hnb.
Qed.

Lemma bellman_inv_step st ctl st' :
  basic_inv self st -> pop_inv st -> front_inv max_time st -> bellman_inv st ->
  body_case R L self max_time st ctl st' -> bellman_inv st'.
Proof.
  intros Hbasic Hpinv Hfinv [Bedges Barr] Hcase.
  pose proof (body_case_basic R L self max_time st ctl st' Hbasic Hcase) as Hbasic'.
  destruct Hcase as [e pq1 Hpop Hmax | e pq1 Hpop Hmax Hvis
                    | e pq1 elev0 ign1 pq2 ign' pq' g' Hpop Hmax Hvis Hel Hfold Hem];
    try (split; simpl; assumption).
  destruct (heappop_in_bounds self _ _ _ (bi_pq _ _ Hbasic) Hpop) as [Hb _].
  pose proof Hb as Hb'. apply in_bounds_spec in Hb'.
  assert (Her : 0 <= ev_row e) by lia. assert (Hec : 0 <= ev_col e) by lia.
  destruct (settle_front R L self max_time Hwf Hcell HR st e pq1 elev0 ign1 pq2 ign' pq' g'
              Hbasic Hpinv Hfinv Hpop Hmax Hvis Hel Hfold Hem)
    as (te & Hte & [Hte_le Hte_ge] & Hefin & Hsettled & Ffin & Fpq & Fpend & Ffrozen & Fmono).
  simpl in Ffin, Fpq, Fpend, Ffrozen, Fmono.
  set (V := update (ls_visited st) (ev_row e) (ev_col e) true) in *.
  assert (HV : forall r c, 0 <= r -> 0 <= c ->
            (cell V r c = Some true <->
             (r, c) = (ev_row e, ev_col e) \/ cell (ls_visited st) r c = Some true)
            /\ (cell V r c = Some false ->
                (r, c) <> (ev_row e, ev_col e) /\ cell (ls_visited st) r c = Some false)).
  { intros r c Hr Hc. apply cell_update_true; eauto. }
  pose proof (foldM_relax_updates L self V (ev_time e) (ev_row e) (ev_col e) elev0
                neighbors _ _ Hfold (fun x Hx => Hx) Hel) as Hu1.
  pose proof (ember_spotting_updates R L self _ _ _ _ _ _ _ _ _ Hem Her Hec) as [Hu2 _].
  pose proof (settle_updates R L self st e pq1 elev0 ign1 pq2 ign' pq' g' Hb Hel Hfold Hem)
    as Hu.
  split; simpl.
  - intros r c Hr Hc Hv t dr dc dm d Ht Hnb Hnb_b Hnf Hd.
    pose proof Hnb_b as Hnb_b'. apply in_bounds_spec in Hnb_b'.
    rewrite (Ffrozen r c Hr Hc Hv) in Ht.
    pose proof (edge_time_pos r c dr dc dm d Hnb Hnf Hd) as Hdpos.
    destruct (in_bounds_cell self _ _ _ (bi_visited _ _ Hbasic) Hnb_b) as [vn Hvn].
    destruct (in_bounds_cell self _ _ _ (bi_ignition_time _ _ Hbasic) Hnb_b) as [tn Htn].
    destruct (in_bounds_cell self _ _ _ (bi_ignition_time _ _ Hbasic') Hnb_b) as [tn' Htn'].
    simpl in Htn'. exists tn'. split; [exact Htn'|].
    destruct (Fmono _ _ tn' (proj1 (proj1 Hnb_b')) (proj1 (proj2 Hnb_b')) Htn')
      as (tn0 & Htn0 & Hle0).
    rewrite Htn in Htn0. inversion Htn0; subst tn0. clear Htn0.
    apply (HV r c Hr Hc) in Hv as [Heq|Hv].
    + inversion Heq; subst r c. rewrite Hte in Ht. inversion Ht; subst t. clear Ht.
      destruct vn.
      * eapply time_le_trans; [exact Hle0|].
        eapply time_le_trans; [|apply time_add_le; lra].
        eapply time_le_trans; [|exact Hte_ge].
        apply (Hsettled (ev_row e + dr) (ev_col e + dc) tn); try lia; [|exact Htn].
        apply HV; try lia. right. exact Hvn.
      * apply edge_time_spec in Hd as (f & e0 & e1 & Hf & He0 & He1 & ->).
        rewrite Hel in He0. inversion He0; subst e0.
        assert (HVn : cell V (ev_row e + dr) (ev_col e + dc) = Some false).
        { unfold V. rewrite cell_update_other; try lia; [exact Hvn|].
          apply (adjacent_ne (ev_row e) (ev_col e)). exists dr, dc, dm. auto. }
        destruct (foldM_relax_bounds V (ev_time e) (ev_row e) (ev_col e) elev0 neighbors
                    _ _ Hfold (fun x Hx => Hx) Hel dr dc dm f e1 Hnb Hnb_b HVn Hf
                    ltac:(congruence) He1) as (t1 & Ht1 & Hle1).
        destruct (updates_bound self _ _ _ _ _ _ Hu2 (proj1 (proj1 Hnb_b'))
                    (proj1 (proj2 Hnb_b')) (ex_intro _ t1 (conj Ht1 Hle1)))
          as (t2 & Ht2 & Hle2).
        simpl in Ht2. rewrite Htn' in Ht2. inversion Ht2; subst t2.
        eapply time_le_trans; [exact Hle2|]. apply time_add_le_compat. exact Hte_ge.
    + destruct (Bedges r c Hr Hc Hv t dr dc dm d Ht Hnb Hnb_b Hnf Hd) as (tn0 & Htn0 & Hb0).
      rewrite Htn in Htn0. inversion Htn0; subst tn0.
      eapply time_le_trans; eassumption.
  - assert (Hkeep : forall r c t,
              spread_from (ls_visited st) (ls_ignition_time st) r c t ->
              spread_from V (ls_ignition_time st) r c t).
    { intros r c t (r0 & c0 & t0 & dr & dc & dm & d & Hr0 & Hc0 & Hv0 & Hrest).
      exists r0, c0, t0, dr, dc, dm, d. split; [exact Hr0|]. split; [exact Hc0|].
      split; [|exact Hrest]. apply HV; auto. }
    assert (Hkeep' : forall r c t,
              spotted_from (ls_visited st) (ls_ignition_time st) r c t ->
              spotted_from V (ls_ignition_time st) r c t).
    { intros r c t (r0 & c0 & t0 & f & u & Hr0 & Hc0 & Hv0 & Hrest).
      exists r0, c0, t0, f, u. split; [exact Hr0|]. split; [exact Hc0|].
      split; [|exact Hrest]. apply HV; auto. }
    assert (HVe : cell V (ev_row e) (ev_col e) = Some true).
    { apply HV; auto. }
    assert (HP : forall r c t, 0 <= r -> 0 <= c -> cell ign' r c = Some t ->
              time_lt t Infinity ->
              cell (ignition_time self) r c = Some t
              \/ spread_from V (ls_ignition_time st) r c t
              \/ spotted_from V (ls_ignition_time st) r c t).
    { refine (updates_preserve self _
                (fun acc => forall r c t, 0 <= r -> 0 <= c -> cell acc.1 r c = Some t ->
                   time_lt t Infinity ->
                   cell (ignition_time self) r c = Some t
                   \/ spread_from V (ls_ignition_time st) r c t
                   \/ spotted_from V (ls_ignition_time st) r c t)
                (ls_ignition_time st, pq1) (ign', pq') _ Hu _).
      - intros ign pq x old HPacc Hx Hxb Hold Hlt r c t Hr Hc Ht Hfin. simpl in *.
        apply in_bounds_spec in Hxb.
        destruct (decide ((ev_row x, ev_col x) = (r, c))) as [Heq|Hne];
          [|rewrite cell_update_other in Ht by (try lia; exact Hne); eauto].
        inversion Heq; subst r c. rewrite cell_update_same in Ht by eauto.
        inversion Ht; subst t. right.
        destruct Hx as [(dr & dc & dm & f & e0 & e1 & Hnb & Hxr & Hxc & _ & Hf & Hf3
                         & He0 & He1 & Htx)
                       |(Hf2 & Hws & f & g & Hf & Hf12 & Htx)].
        + left. exists (ev_row e), (ev_col e), te, dr, dc, dm,
            (travel_time L self f e0 e1 dr dc dm).
          split; [exact Her|]. split; [exact Hec|]. split; [exact HVe|].
          split; [exact Hte|]. split; [exact Hnb|]. split; [exact Hxr|].
          split; [exact Hxc|]. split; [rewrite Hf; congruence|]. split.
          * apply edge_time_spec. exists f, e0, e1. rewrite <- Hxr, <- Hxc. auto.
          * rewrite Htx. split; apply time_add_le_compat; assumption.
        + right. exists (ev_row e), (ev_col e), te, f, (gen_random R g).1.
          split; [exact Her|]. split; [exact Hec|]. split; [exact HVe|].
          split; [exact Hte|]. split; [exact Hf2|]. split; [exact Hws|].
          split; [exact Hf|]. split; [exact Hf12|].
          split; [apply (gen_random_range R HR g)|].
          rewrite Htx.
          split; apply time_add_le_compat; assumption.
      - simpl. intros r c t Hr Hc Ht Hfin.
        destruct (Barr r c t Hr Hc Ht Hfin) as [H|[H|H]]; auto. }
    intros r c t Hr Hc Ht Hfin.
    destruct (HP r c t Hr Hc Ht Hfin)
      as [H|[(r0 & c0 & t0 & dr & dc & dm & d & Hr0 & Hc0 & Hv0 & Ht0 & Hrest)
            |(r0 & c0 & t0 & f & u & Hr0 & Hc0 & Hv0 & Ht0 & Hrest)]]; [auto| |].
    + right. left. exists r0, c0, t0, dr, dc, dm, d.
      rewrite (Ffrozen r0 c0 Hr0 Hc0 Hv0). auto.
    + right. right. exists r0, c0, t0, f, u.
      rewrite (Ffrozen r0 c0 Hr0 Hc0 Hv0). auto.
Qed.

Lemma bellman_inv_start (g : G) st0 : start_state self g = Ok st0 -> bellman_inv st0.
Proof.
  destruct (start_state_spec self g) as (pq & Hst & Hmem). rewrite Hst.
  intros [= <-]. split; simpl.
  - intros r c _ _ Hv. apply cell_visited0 in Hv. discriminate.
  - auto.
Qed.

Lemma steps_bellman_inv (g : G) st0 ctl st :
  start_state self g = Ok st0 -> steps R L self max_time st0 ctl st ->
  bellman_inv st.
Proof.
  intros Hs0 Hsteps.
  pose proof (start_state_basic self Hwf g st0 Hs0) as Hb0.
  assert (H : pop_inv st /\ front_inv max_time st /\ bellman_inv st).
  { refine (steps_invariant R L self max_time
              (fun s => pop_inv s /\ front_inv max_time s /\ bellman_inv s)
              st0 Hb0 _ _ ctl st Hsteps).
    - split; [|split].
      + apply (steps_pop_inv R L self max_time Hwf Hcell HR g st0 Next st0 Hs0).
        apply steps_start.
      + apply (front_inv_start self max_time g). exact Hs0.
      + apply (bellman_inv_start g). exact Hs0.
    - intros s c1 s' Hbs (Hp & Hf & Hbl) Hcase. split; [|split].
      + eapply pop_inv_step; eauto.
      + apply (front_inv_step R L self max_time Hwf Hcell HR s c1 s'); assumption.
      + eapply bellman_inv_step; eauto. }
  apply H.
Qed.

End Bellman.


(** ** The number of passes *)

Lemma np_size_shape {A} (a : list (list A)) (rows cols : Z) :
  has_shape a rows cols -> Z.of_nat (np_size a) = rows * cols.
Proof.
  intros [Hlen Hall]. subst rows. unfold np_size.
  induction Hall as [|row a Hrow _ IH]; simpl; [lia|].
  rewrite length_app. lia.
Qed.

Lemma length_argwhere_row {A} (p : A -> bool) (r c : Z) (row : list A) :
  (length (argwhere_row p r c row) <= length row)%nat.
Proof.
  revert c. induction row as [|x row IH]; intros c; simpl; [lia|].
  specialize (IH (c + 1)). destruct (p x); simpl; lia.
Qed.

Lemma length_np_argwhere {A} (p : A -> bool) (a : list (list A)) :
  (length (np_argwhere p a) <= np_size a)%nat.
Proof.
  unfold np_argwhere, np_size. generalize 0.
  induction a as [|row a IH]; intros r; simpl; [lia|].
  rewrite !length_app. pose proof (length_argwhere_row p r 0 row).
  specialize (IH (r + 1)). lia.
Qed.

Lemma start_queue_length (self : FireModel) (pq : list event) :
  start_queue self = Ok pq -> (length pq <= np_size (ignition_time self))%nat.
Proof.
  unfold start_queue.
  pose proof (length_np_argwhere (fun t => time_ltb t Infinity) (ignition_time self)) as Hle.
  revert Hle. generalize (np_argwhere (fun t => time_ltb t Infinity) (ignition_time self)).
  intros l Hle H.
  assert (Hgen : forall l acc pq,
            foldM (fun pq '(r, c) => t ← getitem (ignition_time self) r c;
                                     Ok (heappush pq (t, r, c))) acc l = Ok pq ->
            length pq = (length acc + length l)%nat).
  { clear. induction l as [|[r c] l IH]; intros acc pq; simpl.
    - intros [= <-]. lia.
    - destruct (getitem (ignition_time self) r c) as [t|]; bind_step; [|discriminate].
      intros H. apply IH in H. simpl in H. lia. }
  apply Hgen in H. simpl in H. lia.
Qed.

Section Passes.

Context {G : Type}.
Variable R : Generator G.
Variable L : Libm.
Variable self : FireModel.
Variable max_time : time.

(** Every pass pops one event and lowers [measure]. *)
Lemma loop_body_pass (st st' : loop_state G) ctl :
  loop_body R L self max_time st = Ok (ctl, st') ->
  length (ls_popped st') = S (length (ls_popped st))
  /\ (measure st' < measure st)%nat.
Proof.
  intros Hbody. split.
  - destruct (loop_body_pops R L self max_time st st' ctl Hbody) as (e & pq1 & _ & ->).
    reflexivity.
  - destruct ctl; [exact (loop_body_measure R L self max_time st st' Hbody)|].
    destruct (loop_body_visited R L self max_time st st' Stop Hbody)
      as (e & pq1 & Hpop & [(_ & Hlt & Hv)|[(Hc & _)|(Hc & _)]]); try discriminate.
    revert Hbody. unfold loop_body. rewrite Hpop. bind_step.
    destruct e as [[t r] c]. unfold ev_time in Hlt. simpl in Hlt. rewrite Hlt.
    intros [= <-]. unfold measure. simpl.
    apply heappop_spec in Hpop as [Hperm _]. rewrite Hperm. simpl. lia.
Qed.

Lemma while_loop_passes n (st r : loop_state G) :
  while_loop R L self max_time n st = Some (Ok r) ->
  (length (ls_popped r) + measure r <= length (ls_popped st) + measure st)%nat.
Proof.
  revert st. induction n as [|n IH]; intros st; simpl.
  - destruct (ls_pq st); [|discriminate]. intros [= <-]. lia.
  - destruct (ls_pq st); [intros [= <-]; lia|].
    destruct (loop_body R L self max_time st) as [[[|] st1]|] eqn:Hbody; [| |discriminate].
    + intros Hloop. apply IH in Hloop. apply loop_body_pass in Hbody. lia.
    + intros [= <-]. apply loop_body_pass in Hbody. lia.
Qed.

End Passes.

(** ** The exceptions of a run *)

Section Exceptions.

Context {G : Type}.
Variable R : Generator G.
Variable L : Libm.
Variable self : FireModel.
Variable max_time : time.
Hypothesis Hwf : wf_model self.

(** The winds in which [np.random.randint(2, int(wind_speed * 0.5))] has
    an empty range when spotting is attempted. *)
Definition wind_gap : Prop := (5 < wind_speed self)%Q /\ (wind_speed self < 6)%Q.

Lemma ember_spotting_raises t0 r0 c0 ign pq g e :
  in_bounds self r0 c0 = true ->
  has_shape ign (rows self) (cols self) ->
  ember_spotting R L self t0 r0 c0 ign pq g = Raise e ->
  e = ValueError /\ wind_gap.
Proof.
  intros Hb Hi Hraise.
  destruct (Qlt_le_dec 5 (wind_speed self)) as [H5|H5];
    [destruct (Qlt_le_dec (wind_speed self) 6) as [H6|H6]|].
  - split; [|split; assumption].
    revert Hraise. unfold ember_spotting.
    pose proof Hb as Hb'. apply in_bounds_spec in Hb'.
    destruct (in_bounds_cell self (fuel self) _ _ (wf_fuel _ Hwf) Hb) as [fh Hfh].
    rewrite getitem_cell by lia. rewrite Hfh. bind_step.
    destruct ((fh =? 2) && Qltb 5.0 (wind_speed self)); [|discriminate].
    destruct (gen_random R g) as [u g1]. destruct (Qltb u 0.02); [|discriminate].
    unfold spot_dist_px, np_random_randint.
    destruct (2 <? py_int (wind_speed self * 0.5)); bind_step; [|congruence].
    destruct (gen_randint R 2 _ g1) as [k g2]. bind_step.
    destruct (gen_normal R 0 0.3 g2) as [z g3]. destruct (gen_random R g3) as [u' g4].
    match goal with |- context [in_bounds self ?a ?b] =>
      set (sp_r := a); set (sp_c := b) end.
    destruct (in_bounds self sp_r sp_c) eqn:Hsb; [|discriminate].
    pose proof Hsb as Hsb'. apply in_bounds_spec in Hsb'.
    destruct (in_bounds_cell self (fuel self) _ _ (wf_fuel _ Hwf) Hsb) as [f Hf].
    destruct (in_bounds_cell self ign _ _ Hi Hsb) as [old Hold].
    rewrite !getitem_cell by lia. rewrite Hf. bind_step.
    destruct ((f =? 1) || (f =? 2)); [|discriminate]. rewrite Hold. bind_step.
    destruct (time_ltb _ old); [|discriminate].
    rewrite setitem_cell by lia. rewrite Hold. bind_step. discriminate.
  - destruct (ember_spotting_no_raise R L self Hwf (or_intror H6) t0 r0 c0 ign pq g Hb Hi)
      as [res Hres]. congruence.
  - destruct (ember_spotting_no_raise R L self Hwf (or_introl H5) t0 r0 c0 ign pq g Hb Hi)
      as [res Hres]. congruence.
Qed.

Lemma loop_body_raises (st : loop_state G) e :
  basic_inv self st -> ls_pq st <> [] ->
  loop_body R L self max_time st = Raise e ->
  e = ValueError /\ wind_gap.
Proof.
  intros [Hi Hv Hpq] Hne. unfold loop_body.
  destruct (heappop_nonempty _ Hne) as (e0 & pq1 & Hpop). rewrite Hpop. bind_step.
  destruct (heappop_in_bounds self _ _ _ Hpq Hpop) as [Hb _].
  destruct e0 as [[t r] c]. unfold ev_row, ev_col in Hb. simpl in Hb.
  pose proof Hb as Hb'. apply in_bounds_spec in Hb'.
  destruct (time_ltb max_time t); [discriminate|].
  destruct (in_bounds_cell self (ls_visited st) _ _ Hv Hb) as [v Hcv].
  destruct (in_bounds_cell self (elevation self) _ _ (wf_elevation _ Hwf) Hb) as [e0 He0].
  rewrite (getitem_cell (ls_visited st)) by lia. rewrite Hcv. bind_step.
  destruct v; [discriminate|].
  rewrite setitem_cell by lia. rewrite Hcv. bind_step.
  rewrite (getitem_cell (elevation self)) by lia. rewrite He0. bind_step.
  destruct (foldM_relax_no_raise L self Hwf (update (ls_visited st) r c true) t r c e0
              neighbors (ls_ignition_time st) pq1 (update_shape _ _ _ _ _ _ Hv) Hi)
    as (ign1 & pq2 & -> & Hi1).
  bind_step.
  destruct (ember_spotting R L self t r c ign1 pq2 (ls_rng st)) as [[[ign' pq'] g']|e'] eqn:Hem;
    bind_step; [discriminate|].
  intros [= <-]. eapply ember_spotting_raises; eauto.
Qed.

Lemma while_loop_raises n (st : loop_state G) e :
  basic_inv self st ->
  while_loop R L self max_time n st = Some (Raise e) ->
  e = ValueError /\ wind_gap.
Proof.
  revert st. induction n as [|n IH]; intros st Hb; simpl.
  - destruct (ls_pq st); discriminate.
  - destruct (ls_pq st) as [|e0 pq0] eqn:Hpq; [discriminate|].
    destruct (loop_body R L self max_time st) as [[[|] st']|e'] eqn:Hbody.
    + apply IH. eapply body_case_basic; [exact Hb|].
      apply loop_body_cases; [apply (bi_pq _ _ Hb) | exact Hbody].
    + discriminate.
    + intros [= <-]. eapply loop_body_raises; eauto. congruence.
Qed.

End Exceptions.


(** ** A second run on the same object *)

(** Only [start_queue] reads [self.ignition_time]; the loop works on the
    array it was handed. *)
Lemma loop_body_set_ignition_time {G} (R : Generator G) (L : Libm) (self : FireModel)
    (a : list (list time)) (max_time : time) (st : loop_state G) :
  loop_body R L (set_ignition_time self a) max_time st = loop_body R L self max_time st.
Proof. destruct self. reflexivity. Qed.

Lemma updates_none (self : FireModel) (K : event -> Prop) acc acc' :
  (forall x old, K x -> in_bounds self (ev_row x) (ev_col x) = true ->
     cell acc.1 (ev_row x) (ev_col x) = Some old -> time_lt (ev_time x) old -> False) ->
  updates self K acc acc' -> acc' = acc.
Proof.
  intros Hno Hu. destruct Hu as [|ign pq x old acc' HK Hb Hold Hlt _]; [reflexivity|].
  exfalso. eapply Hno; eauto.
Qed.

Section Rerun.

Context {G : Type}.
Variable R : Generator G.
Variable L : Libm.
Variable self : FireModel.
Variables m m' : time.
Hypothesis Hwf : wf_model self.
Hypothesis Hcell : (0 < cell_size self)%Q.
Hypothesis HR : GeneratorSpec R.
Hypothesis Hcalm : (wind_speed self <= 5)%Q.
Hypothesis Hm : time_le m' m.

Variable g : G.
Variable st1 : loop_state G.
Hypothesis Hrun : run_loop R L self m g = Some (Ok st1).

(** The field that the first run leaves in the object. *)
Let F := ls_ignition_time st1.
Let self2 := set_ignition_time self F.

Lemma first_run_shape : has_shape F (rows self) (cols self).
Proof.
  destruct (run_loop_steps R L self m g st1 Hrun) as (st0 & ctl & Hs0 & Hsteps & _).
  pose proof (start_state_basic self Hwf g st0 Hs0) as Hb0.
  apply (bi_ignition_time _ _ (steps_basic R L self m st0 ctl st1 Hb0 Hsteps)).
Qed.

Lemma self2_wf : wf_model self2.
Proof.
  destruct Hwf. split; simpl; try assumption. apply first_run_shape.
Qed.

(** The cells that hold a time within [m] were settled by the first run,
    and their edges are relaxed. *)
Lemma first_run_relaxed r c t :
  in_bounds self r c = true -> cell F r c = Some t ->
  time_le t m -> time_lt t Infinity ->
  edges_relaxed L self F r c.
Proof.
  intros Hb Ht Hle Hfin.
  destruct (run_loop_steps R L self m g st1 Hrun) as (st0 & ctl & Hs0 & Hsteps & _).
  destruct (run_loop_horizon_split R L self m Hwf Hcell HR g st1 Hrun r c Hb)
    as (t' & Ht' & Hsplit).
  fold F in Ht'. rewrite Ht in Ht'. inversion Ht'; subst t'.
  destruct Hsplit as [(Hv & _)|(_ & [->|Hbeyond])].
  - apply in_bounds_spec in Hb.
    apply (bl_edges _ _ _ (steps_bellman_inv R L self m Hwf Hcell HR g st0 ctl st1 Hs0 Hsteps));
      try lia. exact Hv.
  - exfalso. apply Hfin. exact I.
  - contradiction.
Qed.

(** What the second run keeps. *)
Definition rerun_inv (g' : G) (st : loop_state G) : Prop :=
  ls_ignition_time st = F /\ ls_rng st = g'
  /\ forall e, e ∈ ls_pq st ->
       cell F (ev_row e) (ev_col e) = Some (ev_time e) /\ time_lt (ev_time e) Infinity.

Lemma rerun_inv_step g' st ctl st' :
  basic_inv self st -> rerun_inv g' st ->
  body_case R L self m' st ctl st' -> rerun_inv g' st'.
Proof.
  intros Hbasic (Hign & Hrng & Hpq) Hcase.
  destruct Hcase as [e pq1 Hpop Hmax | e pq1 Hpop Hmax Hvis
                    | e pq1 elev0 ign1 pq2 ign' pq' g'' Hpop Hmax Hvis Hel Hfold Hem];
    pose proof (heappop_spec _ _ _ Hpop) as [Hperm _];
    destruct (heappop_in_bounds self _ _ _ (bi_pq _ _ Hbasic) Hpop) as [Hb _];
    assert (Hpq1 : forall x, x ∈ pq1 ->
              cell F (ev_row x) (ev_col x) = Some (ev_time x) /\ time_lt (ev_time x) Infinity)
      by (intros x Hx; apply Hpq; rewrite Hperm; right; exact Hx);
    try (split; [exact Hign | split; [exact Hrng | exact Hpq1]]).
  pose proof Hb as Hb'. apply in_bounds_spec in Hb'.
  destruct (Hpq e) as [Hte Hfin]; [rewrite Hperm; left|].
  assert (Hrel : edges_relaxed L self F (ev_row e) (ev_col e)).
  { apply (first_run_relaxed _ _ (ev_time e)); try assumption.
    eapply time_le_trans; eassumption. }
  pose proof (foldM_relax_updates L self _ _ _ _ _ neighbors _ _ Hfold
                (fun x Hx => Hx) Hel) as Hu1.
  apply updates_none in Hu1.
  - inversion Hu1; subst ign1 pq2. clear Hu1.
    apply ember_spotting_updates in Hem as [Hu2 Hg]; try lia.
    apply updates_none in Hu2.
    + inversion Hu2; subst ign' pq'.
      split; [exact Hign|]. split; [|exact Hpq1]. simpl.
      destruct Hg as [->|[_ Hws]]; [exact Hrng | lra].
    + intros x old (_ & Hws & _) _ _ _. lra.
  - simpl. rewrite Hign.
    intros x old (dr & dc & dm & f & e0 & e1 & Hnb & Hxr & Hxc & _ & Hf & Hf3
                  & He0 & He1 & Htx) Hxb Hold Hlt.
    change (ev_row (ev_time e, ev_row e, ev_col e)) with (ev_row e) in *.
    change (ev_col (ev_time e, ev_row e, ev_col e)) with (ev_col e) in *.
    change (ev_time (ev_time e, ev_row e, ev_col e)) with (ev_time e) in *.
    rewrite Hxr, Hxc in Hxb, Hold, Hf, He1.
    destruct (Hrel (ev_time e) dr dc dm (travel_time L self f e0 e1 dr dc dm))
      as (tn & Htn & Hle); try assumption.
    + rewrite Hf. congruence.
    + apply edge_time_spec. exists f, e0, e1. auto.
    + rewrite Hold in Htn. inversion Htn; subst tn.
      apply Hlt. rewrite Htx. exact Hle.
Qed.

(** A second [run_simulation] on the object, with a horizon no farther
    than that of the first, returns the field as the first left it and
    draws nothing. *)
Lemma second_run (g' : G) :
  run_simulation R L self2 m' g' = Some (Ok (F, g')).
Proof.
  assert (Hsafe : spotting_safe self2) by (left; exact Hcalm).
  destruct (run_loop_returns R L self2 m' self2_wf Hsafe g') as (st2 & Hrun2).
  unfold run_simulation. rewrite Hrun2.
  destruct (run_loop_steps R L self2 m' g' st2 Hrun2) as (st0 & ctl & Hs0 & Hsteps & _).
  pose proof (start_state_basic self2 self2_wf g' st0 Hs0) as Hb0.
  assert (Hsteps' : steps R L self m' st0 ctl st2).
  { clear -Hsteps. induction Hsteps as [|st ctl st' _ IH Hne Hbody]; [apply steps_start|].
    eapply steps_next; [exact IH | exact Hne|].
    unfold self2 in Hbody. rewrite loop_body_set_ignition_time in Hbody. exact Hbody. }
  assert (Hb0' : basic_inv self st0).
  { destruct Hb0 as [H1 H2 H3]. split; [exact H1 | exact H2|].
    unfold pq_in_bounds in *. exact H3. }
  assert (Hinv : rerun_inv g' st2).
  { refine (steps_invariant R L self m' (rerun_inv g') st0 Hb0' _ _ ctl st2 Hsteps').
    - destruct (start_state_spec self2 g') as (pq & Hst & Hmem).
      rewrite Hst in Hs0. inversion Hs0; subst st0. split; [reflexivity|].
      split; [reflexivity|]. simpl. intros e He.
      apply Hmem in He as (_ & _ & Ht & Hlt). auto.
    - intros s c1 s' Hbs Hs Hcase. eapply rerun_inv_step; eauto. }
  destruct Hinv as (-> & -> & _). reflexivity.
Qed.

End Rerun.


(** ** What a run guarantees *)

(** X1: on a well-formed object the [while] loop of [run_simulation] ends
    within ten passes per cell of the grid, for every horizon and
    generator: allowed that many passes or more it returns or raises, and
    however many passes it is allowed, a run that returns has popped at
    most that many events (one per seed, and at most nine per cell
    settled). *)
Theorem run_passes_bounded {G} (R : Generator G) (L : Libm) (self : FireModel)
    (max_time : time) (g : G) :
  wf_model self ->
  exists st0, start_state self g = Ok st0
    /\ (forall n, 10 * (rows self * cols self) <= Z.of_nat n ->
          while_loop R L self max_time n st0 <> None)
    /\ (forall n st, while_loop R L self max_time n st0 = Some (Ok st) ->
          Z.of_nat (length (ls_popped st)) <= 10 * (rows self * cols self)).
Proof.
  intros Hwf. destruct (start_state self g) as [st0|e] eqn:Hs0.
  2:{ destruct (start_state_spec self g) as (pq & Hst & _). congruence. }
  exists st0. split; [reflexivity|].
  unfold start_state in Hs0.
  destruct (start_queue self) as [pq|] eqn:Hq; [|discriminate].
  revert Hs0. bind_step. intros [= <-].
  pose proof (start_queue_length self pq Hq) as Hpq.
  pose proof (unsettled_le_size (visited0 self)) as Hun.
  pose proof (np_size_shape _ _ _ (wf_ignition_time _ Hwf)) as Hsz1.
  pose proof (np_size_shape _ _ _ (visited0_shape self Hwf)) as Hsz2.
  split.
  - intros n Hn. apply while_loop_terminates. unfold measure. simpl. lia.
  - intros n st Hrun. apply while_loop_passes in Hrun.
    unfold measure in Hrun. simpl in Hrun. lia.
Qed.

Lemma run_passes_bounded_witness :
  exists st0, start_state (seeded windy_column 0 0) ember_tape = Ok st0
    /\ (forall n, 10 * (5 * 1) <= Z.of_nat n ->
          while_loop scripted rational_libm (seeded windy_column 0 0) (Finite 1000) n st0
          <> None)
    /\ (forall n st,
          while_loop scripted rational_libm (seeded windy_column 0 0) (Finite 1000) n st0
          = Some (Ok st) ->
          Z.of_nat (length (ls_popped st)) <= 10 * (5 * 1)).
Proof.
  exact (run_passes_bounded scripted rational_libm (seeded windy_column 0 0) (Finite 1000)
           ember_tape windy_column_wf).
Defined.

(** X2: on a well-formed object, in a wind for which the upper bound
    [int(wind_speed * 0.5)] of the distance draw fits [int64],
    [run_simulation] raises nothing but the [ValueError] of
    [np.random.randint(2, 2)], and that only in a wind above 5 and below
    6 m/s.  (Beyond [int64], [np.random.randint] raises on the bound
    itself: see [np_random_randint_int64].) *)
Theorem run_raises_only_in_wind_gap {G} (R : Generator G) (L : Libm) (self : FireModel)
    (max_time : time) (g : G) (e : exn) :
  wf_model self ->
  py_int (wind_speed self * 0.5) - 1 <= int64_max ->
  run_simulation R L self max_time g = Some (Raise e) ->
  e = ValueError /\ (5 < wind_speed self)%Q /\ (wind_speed self < 6)%Q.
Proof.
  intros Hwf _. unfold run_simulation, run_loop.
  destruct (start_state_spec self g) as (pq & Hst & _). rewrite Hst.
  match goal with |- context [while_loop R L self max_time ?n ?s] =>
    destruct (while_loop R L self max_time n s) as [[st|e']|] eqn:Hloop end;
    try discriminate.
  intros [= <-].
  apply (while_loop_raises R L self max_time Hwf _ _ e') in Hloop; [exact Hloop|].
  apply (start_state_basic self Hwf g). exact Hst.
Qed.

(** A single Forest cell in a wind of 5.5 m/s, seeded at time 0. *)
Definition gap_cell : FireModel :=
  seeded (__init__ rational_libm [[0%Q]] [[2]] 5.5 0 30) 0 0.

Lemma gap_cell_wf : wf_model gap_cell.
Proof.
  apply (ignite_wf (__init__ rational_libm [[0%Q]] [[2]] 5.5 0 30) _ 0 0 (Finite 0));
    [|reflexivity].
  apply init_wf. repeat split; simpl; repeat constructor.
Qed.

Lemma run_raises_only_in_wind_gap_witness :
  ValueError = ValueError /\ (5 < wind_speed gap_cell)%Q /\ (wind_speed gap_cell < 6)%Q.
Proof.
  apply (run_raises_only_in_wind_gap scripted rational_libm gap_cell (Finite 1000)
           [0.01%Q] ValueError gap_cell_wf).
  - vm_compute. discriminate.
  - vm_compute. reflexivity.
Defined.

(** X3: a run never delays a cell: every time of the returned field is at
    most the time the cell held when [run_simulation] was called. *)
Theorem run_never_delays {G} (R : Generator G) (L : Libm) (self : FireModel)
    (max_time : time) (g g' : G) (field : list (list time)) :
  wf_model self ->
  run_simulation R L self max_time g = Some (Ok (field, g')) ->
  forall r c t0, in_bounds self r c = true ->
    cell (ignition_time self) r c = Some t0 ->
    exists t, cell field r c = Some t /\ time_le t t0.
Proof.
  intros Hwf Hrun r c t0 Hb Ht0. unfold run_simulation in Hrun.
  destruct (run_loop R L self max_time g) as [[st|e]|] eqn:Hloop; try discriminate.
  inversion Hrun; subst field g'. clear Hrun.
  destruct (run_loop_steps R L self max_time g st Hloop) as (st0 & ctl & Hs0 & Hsteps & _).
  pose proof (start_state_basic self Hwf g st0 Hs0) as Hb0.
  apply in_bounds_spec in Hb.
  refine (steps_invariant R L self max_time
            (fun s => exists t, cell (ls_ignition_time s) r c = Some t /\ time_le t t0)
            st0 Hb0 _ _ ctl st Hsteps).
  - destruct (start_state_spec self g) as (pq & Hst & _). rewrite Hst in Hs0.
    inversion Hs0; subst st0. simpl. exists t0. split; [exact Ht0 | apply time_le_refl].
  - intros s c1 s' Hbs Hs Hcase.
    destruct Hcase as [e pq1 Hpop Hmax | e pq1 Hpop Hmax Hvis
                      | e pq1 elev0 ign1 pq2 ign' pq' g'' Hpop Hmax Hvis Hel Hfold Hem];
      simpl; try exact Hs.
    destruct (heappop_in_bounds self _ _ _ (bi_pq _ _ Hbs) Hpop) as [Heb _].
    pose proof (settle_updates R L self s e pq1 elev0 ign1 pq2 ign' pq' g'' Heb Hel Hfold Hem)
      as Hu.
    apply (updates_bound self _ _ _ r c t0 Hu); try lia. exact Hs.
Qed.

Lemma run_never_delays_witness :
  match run_simulation scripted rational_libm (seeded windy_column 0 0) (Finite 1000)
          ember_tape with
  | Some (Ok (field, _)) => exists t, cell field 0 0 = Some t /\ time_le t (Finite 0)
  | _ => False
  end.
Proof.
  destruct (run_simulation scripted rational_libm (seeded windy_column 0 0) (Finite 1000)
              ember_tape) as [[[field g']|e]|] eqn:Hrun.
  - apply (run_never_delays scripted rational_libm (seeded windy_column 0 0) (Finite 1000)
             ember_tape g' field windy_column_wf Hrun 0 0 (Finite 0)); reflexivity.
  - vm_compute in Hrun. discriminate Hrun.
  - vm_compute in Hrun. discriminate Hrun.
Defined.

(** X4: when [run_simulation] returns, every cell it settled holds a time
    below [np.inf] that does not exceed [max_time], and every cell it did
    not settle holds [np.inf] or a candidate time beyond [max_time]: the
    final times are exactly the entries within the horizon. *)
Theorem settled_within_horizon {G} (R : Generator G) (L : Libm) (self : FireModel)
    (max_time : time) (g : G) (st : loop_state G) :
  wf_model self -> (0 < cell_size self)%Q -> GeneratorSpec R ->
  run_loop R L self max_time g = Some (Ok st) ->
  forall r c, in_bounds self r c = true ->
    exists t, cell (ls_ignition_time st) r c = Some t
      /\ ((cell (ls_visited st) r c = Some true
           /\ time_le t max_time /\ time_lt t Infinity)
          \/ (cell (ls_visited st) r c = Some false
              /\ (t = Infinity \/ time_lt max_time t))).
Proof.
  intros Hwf Hcell HR Hrun r c Hb.
  destruct (run_loop_horizon_split R L self max_time Hwf Hcell HR g st Hrun r c Hb)
    as (t & Ht & Hsplit).
  exists t. split; [exact Ht | exact Hsplit].
Qed.

Lemma settled_within_horizon_witness :
  match run_loop scripted rational_libm (seeded windy_column 0 0) (Finite 30) ember_tape with
  | Some (Ok st) =>
      forall r c, in_bounds (seeded windy_column 0 0) r c = true ->
        exists t, cell (ls_ignition_time st) r c = Some t
          /\ ((cell (ls_visited st) r c = Some true
               /\ time_le t (Finite 30) /\ time_lt t Infinity)
              \/ (cell (ls_visited st) r c = Some false
                  /\ (t = Infinity \/ time_lt (Finite 30) t)))
  | _ => False
  end.
Proof.
  destruct (run_loop scripted rational_libm (seeded windy_column 0 0) (Finite 30) ember_tape)
    as [[st|e]|] eqn:Hrun.
  - exact (settled_within_horizon scripted rational_libm (seeded windy_column 0 0) (Finite 30)
             ember_tape st windy_column_wf eq_refl scripted_spec Hrun).
  - vm_compute in Hrun. discriminate Hrun.
  - vm_compute in Hrun. discriminate Hrun.
Defined.

(** X5: two runs from the same object and generator state, with horizons
    [m1 <= m2]: a cell that the nearer horizon leaves with a time within
    [m1] holds that very time under the farther horizon; a cell it leaves
    beyond [m1] stays beyond [m1]; and no time under [m2] exceeds the time
    under [m1]. *)
Theorem horizon_truncation {G} (R : Generator G) (L : Libm) (self : FireModel)
    (m1 m2 : time) (g g1 g2 : G) (field1 field2 : list (list time)) :
  wf_model self -> (0 < cell_size self)%Q -> GeneratorSpec R ->
  time_le m1 m2 ->
  run_simulation R L self m1 g = Some (Ok (field1, g1)) ->
  run_simulation R L self m2 g = Some (Ok (field2, g2)) ->
  forall r c t1, in_bounds self r c = true ->
    cell field1 r c = Some t1 ->
    exists t2, cell field2 r c = Some t2
      /\ time_le t2 t1
      /\ (time_le t1 m1 -> time_lt t1 Infinity -> t2 = t1)
      /\ (time_lt m1 t1 -> time_lt m1 t2).
Proof.
  intros Hwf Hcell HR Hm Hrun1 Hrun2 r c t1 Hb Ht1.
  unfold run_simulation in Hrun1, Hrun2.
  destruct (run_loop R L self m1 g) as [[st1|e1]|] eqn:Hloop1; try discriminate.
  destruct (run_loop R L self m2 g) as [[st2|e2]|] eqn:Hloop2; try discriminate.
  inversion Hrun1; subst field1 g1. inversion Hrun2; subst field2 g2.
  exact (run_loop_truncation R L self m1 m2 Hwf Hcell HR Hm g st1 st2 Hloop1 Hloop2
           r c t1 Hb Ht1).
Qed.

Lemma horizon_truncation_witness :
  match run_simulation scripted rational_libm (seeded windy_column 0 0) (Finite 30) ember_tape,
        run_simulation scripted rational_libm (seeded windy_column 0 0) (Finite 1000) ember_tape
  with
  | Some (Ok (field1, _)), Some (Ok (field2, _)) =>
      forall r c t1, in_bounds (seeded windy_column 0 0) r c = true ->
        cell field1 r c = Some t1 ->
        exists t2, cell field2 r c = Some t2
          /\ time_le t2 t1
          /\ (time_le t1 (Finite 30) -> time_lt t1 Infinity -> t2 = t1)
          /\ (time_lt (Finite 30) t1 -> time_lt (Finite 30) t2)
  | _, _ => False
  end.
Proof.
  destruct (run_simulation scripted rational_libm (seeded windy_column 0 0) (Finite 30)
              ember_tape) as [[[field1 g1]|e1]|] eqn:Hrun1;
    [|vm_compute in Hrun1; discriminate Hrun1|vm_compute in Hrun1; discriminate Hrun1].
  destruct (run_simulation scripted rational_libm (seeded windy_column 0 0) (Finite 1000)
              ember_tape) as [[[field2 g2]|e2]|] eqn:Hrun2;
    [|vm_compute in Hrun2; discriminate Hrun2|vm_compute in Hrun2; discriminate Hrun2].
  apply (horizon_truncation scripted rational_libm (seeded windy_column 0 0)
           (Finite 30) (Finite 1000) ember_tape g1 g2 field1 field2
           windy_column_wf eq_refl scripted_spec); [|exact Hrun1|exact Hrun2].
  vm_compute. discriminate.
Defined.

(** X6: when [run_simulation] returns, no edge out of a settled cell can
    be relaxed: a neighbour in the grid that is not Water holds a time no
    later than the time of the settled cell plus the travel time of the
    edge. *)
Theorem settled_edges_relaxed {G} (R : Generator G) (L : Libm) (self : FireModel)
    (max_time : time) (g : G) (st : loop_state G) :
  wf_model self -> (0 < cell_size self)%Q -> GeneratorSpec R ->
  run_loop R L self max_time g = Some (Ok st) ->
  forall r c, in_bounds self r c = true ->
    cell (ls_visited st) r c = Some true ->
    forall t dr dc dm d,
      cell (ls_ignition_time st) r c = Some t ->
      (dr, dc, dm) ∈ neighbors ->
      in_bounds self (r + dr) (c + dc) = true ->
      cell (fuel self) (r + dr) (c + dc) <> Some 3 ->
      edge_time L self r c (dr, dc, dm) = Some d ->
      exists tn, cell (ls_ignition_time st) (r + dr) (c + dc) = Some tn
        /\ time_le tn (time_add t d).
Proof.
  intros Hwf Hcell HR Hrun r c Hb Hv.
  destruct (run_loop_steps R L self max_time g st Hrun) as (st0 & ctl & Hs0 & Hsteps & _).
  apply in_bounds_spec in Hb.
  apply (bl_edges _ _ _
           (steps_bellman_inv R L self max_time Hwf Hcell HR g st0 ctl st Hs0 Hsteps));
    try lia. exact Hv.
Qed.

Lemma settled_edges_relaxed_witness :
  match run_loop scripted rational_libm (seeded windy_column 0 0) (Finite 1000) ember_tape with
  | Some (Ok st) =>
      cell (ls_visited st) 3 0 = Some true ->
      forall t dr dc dm d,
        cell (ls_ignition_time st) 3 0 = Some t ->
        (dr, dc, dm) ∈ neighbors ->
        in_bounds (seeded windy_column 0 0) (3 + dr) (0 + dc) = true ->
        cell (fuel (seeded windy_column 0 0)) (3 + dr) (0 + dc) <> Some 3 ->
        edge_time rational_libm (seeded windy_column 0 0) 3 0 (dr, dc, dm) = Some d ->
        exists tn, cell (ls_ignition_time st) (3 + dr) (0 + dc) = Some tn
          /\ time_le tn (time_add t d)
  | _ => False
  end.
Proof.
  destruct (run_loop scripted rational_libm (seeded windy_column 0 0) (Finite 1000) ember_tape)
    as [[st|e]|] eqn:Hrun.
  - apply (settled_edges_relaxed scripted rational_libm (seeded windy_column 0 0)
             (Finite 1000) ember_tape st windy_column_wf eq_refl scripted_spec Hrun 3 0).
    reflexivity.
  - vm_compute in Hrun. discriminate Hrun.
  - vm_compute in Hrun. discriminate Hrun.
Defined.

(** X7: every time below [np.inf] in the returned field has a cause: it
    is the time the cell held when the run began, or the time of a settled
    neighbour plus the travel time of the edge between them, or the time
    of a settled Forest cell plus an ember flight of 10 to 30 minutes in a
    wind above 5 m/s. *)
Theorem finite_times_have_cause {G} (R : Generator G) (L : Libm) (self : FireModel)
    (max_time : time) (g : G) (st : loop_state G) :
  wf_model self -> (0 < cell_size self)%Q -> GeneratorSpec R ->
  run_loop R L self max_time g = Some (Ok st) ->
  forall r c t, in_bounds self r c = true ->
    cell (ls_ignition_time st) r c = Some t -> time_lt t Infinity ->
    cell (ignition_time self) r c = Some t
    \/ spread_from L self (ls_visited st) (ls_ignition_time st) r c t
    \/ spotted_from self (ls_visited st) (ls_ignition_time st) r c t.
Proof.
  intros Hwf Hcell HR Hrun r c t Hb Ht Hfin.
  destruct (run_loop_steps R L self max_time g st Hrun) as (st0 & ctl & Hs0 & Hsteps & _).
  apply in_bounds_spec in Hb.
  apply (bl_arrival _ _ _
           (steps_bellman_inv R L self max_time Hwf Hcell HR g st0 ctl st Hs0 Hsteps));
    try lia; assumption.
Qed.

Lemma finite_times_have_cause_witness :
  match run_loop scripted rational_libm (seeded windy_column 0 0) (Finite 1000) ember_tape with
  | Some (Ok st) =>
      forall t, cell (ls_ignition_time st) 3 0 = Some t -> time_lt t Infinity ->
        cell (ignition_time (seeded windy_column 0 0)) 3 0 = Some t
        \/ spread_from rational_libm (seeded windy_column 0 0)
             (ls_visited st) (ls_ignition_time st) 3 0 t
        \/ spotted_from (seeded windy_column 0 0)
             (ls_visited st) (ls_ignition_time st) 3 0 t
  | _ => False
  end.
Proof.
  destruct (run_loop scripted rational_libm (seeded windy_column 0 0) (Finite 1000) ember_tape)
    as [[st|e]|] eqn:Hrun.
  - intros t. apply (finite_times_have_cause scripted rational_libm (seeded windy_column 0 0)
             (Finite 1000) ember_tape st windy_column_wf eq_refl scripted_spec Hrun 3 0 t).
    reflexivity.
  - vm_compute in Hrun. discriminate Hrun.
  - vm_compute in Hrun. discriminate Hrun.
Defined.

(** X8: in a wind of at most 5 m/s, calling [run_simulation] again on the
    object (which now holds the field the first call returned), with a
    horizon no farther than the first, returns that same field and leaves
    the generator untouched. *)
Theorem second_run_changes_nothing {G} (R : Generator G) (L : Libm) (self : FireModel)
    (m m' : time) (g g1 g' : G) (field : list (list time)) :
  wf_model self -> (0 < cell_size self)%Q -> GeneratorSpec R ->
  (wind_speed self <= 5)%Q ->
  time_le m' m ->
  run_simulation R L self m g = Some (Ok (field, g1)) ->
  run_simulation R L (set_ignition_time self field) m' g' = Some (Ok (field, g')).
Proof.
  intros Hwf Hcell HR Hcalm Hm Hrun. unfold run_simulation in Hrun.
  destruct (run_loop R L self m g) as [[st1|e]|] eqn:Hloop; try discriminate.
  inversion Hrun; subst field g1.
  exact (second_run R L self m m' Hwf Hcell HR Hcalm Hm g st1 Hloop g').
Qed.

Lemma second_run_changes_nothing_witness :
  match run_simulation scripted rational_libm (seeded isotropic_grid 2 2) (Finite 100) [] with
  | Some (Ok (field, _)) =>
      run_simulation scripted rational_libm
        (set_ignition_time (seeded isotropic_grid 2 2) field) (Finite 100) [0.5%Q]
      = Some (Ok (field, [0.5%Q]))
  | _ => False
  end.
Proof.
  destruct (run_simulation scripted rational_libm (seeded isotropic_grid 2 2) (Finite 100) [])
    as [[[field g1]|e]|] eqn:Hrun.
  - apply (second_run_changes_nothing scripted rational_libm (seeded isotropic_grid 2 2)
             (Finite 100) (Finite 100) [] g1 [0.5%Q] field); try exact Hrun.
    + apply (ignite_wf isotropic_grid _ 2 2 (Finite 0)); [|reflexivity].
      apply init_wf. repeat split; simpl; repeat constructor.
    + reflexivity.
    + exact scripted_spec.
    + vm_compute. discriminate.
    + vm_compute. discriminate.
  - vm_compute in Hrun. discriminate Hrun.
  - vm_compute in Hrun. discriminate Hrun.
Defined.


(** * The other modules of [Antigravity] *)

From stdpp Require Import strings pretty.

Local Open Scope Z_scope.

(** ** More of numpy *)

(** [a <= b] on floats. *)
Definition Qleb (a b : Q) : bool := negb (Qltb b a).

(** [a[i]] on an array of dimension one. *)
Definition getitem1 {A} (a : list A) (i : Z) : result A :=
  match py_index (length a) i ≫= (a !!.) with
  | None => Raise IndexError
  | Some x => Ok x
  end.

(** [np.max] of an array of dimension one; it raises [ValueError] on an
    empty array. *)
Definition np_max (l : list Q) : result Q :=
  match l with
  | [] => Raise ValueError
  | x :: l' => Ok (fold_left (fun m y => if Qltb m y then y else m) l' x)
  end.

(** Python's [min(a, b)]: [b] only when [b < a]. *)
Definition py_min (a b : Q) : Q := if Qltb b a then b else a.

(** [np.arange(start, stop, step)] for [step] other than 0:
    [ceil((stop - start) / step)] elements [start + i * step]. *)
Definition np_arange (start stop step : Q) : list Q :=
  (fun i => (start + inject_Z i * step)%Q) <$> seqZ 0 (Qceiling ((stop - start) / step)).

(** [np.linspace(start, stop, num)] *)
Definition np_linspace (start stop : Q) (num : Z) : result (list Q) :=
  if num <? 0 then Raise ValueError
  else Ok ((fun i => (start + inject_Z i * ((stop - start) / inject_Z (num - 1)))%Q)
             <$> seqZ 0 num).

(** [np.pad(a, 1)] of an array of dimension two. *)
Definition np_pad (a : list (list Z)) : list (list Z) :=
  let border := replicate (Z.to_nat ((shape a).2 + 2)) 0 in
  border :: map (fun row => 0 :: row ++ [0]) a ++ [border].

(** [np.diff] of an array of dimension one. *)
Fixpoint diff (l : list Z) : list Z :=
  match l with
  | x :: (y :: _) as l' => (y - x) :: diff l'
  | _ => []
  end.

(** [np.diff(a, axis=0)] and [np.diff(a, axis=1)] *)
Fixpoint np_diff0 (a : list (list Z)) : list (list Z) :=
  match a with
  | row :: (row' :: _) as a' => zip_with (fun x y => y - x) row row' :: np_diff0 a'
  | _ => []
  end.

Definition np_diff1 (a : list (list Z)) : list (list Z) := map diff a.

Definition np_abs (a : list (list Z)) : list (list Z) := map (map Z.abs) a.

Definition np_sum (a : list (list Z)) : Z := foldr Z.add 0 (concat a).

(** [np.random.normal(loc, scale, n)]: [n] draws in a row. *)
Fixpoint normal_draws {G} (R : Generator G) (loc scale : Q) (n : nat) (g : G)
    : list Q * G :=
  match n with
  | O => ([], g)
  | S n' =>
      let '(x, g) := gen_normal R loc scale g in
      let '(xs, g) := normal_draws R loc scale n' g in
      (x :: xs, g)
  end.

Fixpoint normal_rows {G} (R : Generator G) (loc scale : Q) (rows cols : nat) (g : G)
    : list (list Q) * G :=
  match rows with
  | O => ([], g)
  | S rows' =>
      let '(row, g) := normal_draws R loc scale cols g in
      let '(a, g) := normal_rows R loc scale rows' cols g in
      (row :: a, g)
  end.

(** [np.random.normal(loc, scale, (rows, cols))]: the draws fill the array
    row by row; a negative dimension raises [ValueError]. *)
Definition np_random_normal {G} (R : Generator G) (loc scale : Q) (rows cols : Z) (g : G)
    : result (list (list Q) * G) :=
  if (rows <? 0) || (cols <? 0) then Raise ValueError
  else Ok (normal_rows R loc scale (Z.to_nat rows) (Z.to_nat cols) g).

(** [np.meshgrid(x, y)] *)
Definition np_meshgrid {A} (x y : list A) : list (list A) * list (list A) :=
  (replicate (length y) x, (fun yi => replicate (length x) yi) <$> y).

(** [np.maximum(a, b)] on two floats. *)
Definition np_maximum (a b : Q) : Q := if Qltb a b then b else a.

(** [a[mask] = v] for a mask of the shape of [a]. *)
Definition setitem_mask {A} (a : list (list A)) (mask : list (list bool)) (v : A)
    : list (list A) :=
  zip_with (zip_with (fun x (m : bool) => if m then v else x)) a mask.

(** [a[r0:r1, c0:c1] = v] for slice bounds that are not negative: the
    entries with indices in both ranges, as far as the array has them. *)
Definition setitem_block {A} (a : list (list A)) (r0 r1 c0 c1 : Z) (v : A)
    : list (list A) :=
  imap (fun i row =>
          if (r0 <=? Z.of_nat i) && (Z.of_nat i <? r1) then
            imap (fun j x => if (c0 <=? Z.of_nat j) && (Z.of_nat j <? c1) then v else x) row
          else row) a.

(** [np.gradient(f)] of an array of dimension one, unit spacing: central
    differences inside, one-sided differences at both ends. *)
Definition gradient1 (f : list Q) : list Q :=
  let at_ (k : nat) := default 0%Q (f !! k) in
  imap (fun i _ =>
          if (i =? 0)%nat then (at_ 1%nat - at_ 0%nat)%Q
          else if (i =? length f - 1)%nat then (at_ i - at_ (i - 1)%nat)%Q
          else ((at_ (i + 1)%nat - at_ (i - 1)%nat) / 2)%Q) f.

(** [np.gradient(a)] of an array of dimension two: the derivative along
    the rows' axis, then along the columns' axis; it raises [ValueError]
    when an axis has fewer than two entries. *)
Definition np_gradient (a : list (list Q)) : result (list (list Q) * list (list Q)) :=
  let '(rows, cols) := shape a in
  if (rows <? 2) || (cols <? 2) then Raise ValueError
  else
    let row (k : nat) := default [] (a !! k) in
    let axis0 :=
      imap (fun i _ =>
              if (i =? 0)%nat then zip_with Qminus (row 1%nat) (row 0%nat)
              else if (i =? length a - 1)%nat then zip_with Qminus (row i) (row (i - 1)%nat)
              else zip_with (fun hi lo => ((hi - lo) / 2)%Q) (row (i + 1)%nat) (row (i - 1)%nat))
        a in
    Ok (axis0, map gradient1 a).

(** An affine transform [Affine(a, b, c, d, e, f)]. *)
Record Affine := {
  af_a : Q; af_b : Q; af_c : Q;
  af_d : Q; af_e : Q; af_f : Q
}.

(** [rasterio.transform.xy(transform, row, col)]: the coordinates of the
    centre of the pixel. *)
Definition rasterio_transform_xy (t : Affine) (row col : Z) : Q * Q :=
  let x := (inject_Z col + 0.5)%Q in
  let y := (inject_Z row + 0.5)%Q in
  ((af_a t * x + af_b t * y + af_c t)%Q, (af_d t * x + af_e t * y + af_f t)%Q).

(** * [Antigravity/data_loader.py]

    The pure parts of the module: the names of the SRTM tiles, the fuel
    map drawn from an elevation array, and the synthetic maps.  Downloads
    and the reading and merging of rasters are not modelled. *)

Module data_loader.

Definition TOWNS : list (string * (Q * Q)) :=
  [("Melbourne", (144.963, -37.814)); ("Geelong", (144.361, -38.149));
   ("Ballarat", (143.850, -37.562)); ("Bendigo", (144.279, -36.757));
   ("Shepparton", (145.316, -36.384)); ("Mildura", (142.159, -34.208));
   ("Warrnambool", (142.484, -38.382)); ("Traralgon", (146.533, -38.196));
   ("Bairnsdale", (147.629, -37.825)); ("Horsham", (142.202, -36.711));
   ("Wodonga", (146.883, -36.124)); ("Echuca", (144.755, -36.140));
   ("Healesville", (145.518, -37.656)); ("Mansfield", (146.083, -37.050))]%Q.

Record water_body := {
  wb_name : string;
  wb_lat : Q;
  wb_lon : Q;
  wb_rad : Q
}.

Definition WATER_BODIES : list water_body :=
  [{| wb_name := "Port Phillip"; wb_lat := -38.0; wb_lon := 144.8; wb_rad := 0.25 |};
   {| wb_name := "Western Port"; wb_lat := -38.35; wb_lon := 145.35; wb_rad := 0.15 |};
   {| wb_name := "L. Eildon"; wb_lat := -37.15; wb_lon := 145.92; wb_rad := 0.1 |};
   {| wb_name := "L. Hume"; wb_lat := -36.10; wb_lon := 147.03; wb_rad := 0.08 |}]%Q.

(** [f"{n:0{width}d}"]: the decimal digits of [n], filled with zeros on
    the left up to [width] characters, the sign first. *)
Definition format_d (width : nat) (n : Z) : string :=
  let digits := pretty (Z.abs n) in
  if n <? 0 then
    "-" +:+ String.concat "" (replicate (width - 1 - String.length digits) "0") +:+ digits
  else String.concat "" (replicate (width - String.length digits) "0") +:+ digits.

(** [get_srtm_tile_name(lat, lon)] *)
Definition get_srtm_tile_name (lat lon : Q) : string :=
  let ns := if Qltb lat 0 then "S" else "N" in
  let ew := if Qltb lon 0 then "W" else "E" in
  let lat_floor := Qfloor lat in
  let lon_floor := Qfloor lon in
  let lat_val := Z.abs lat_floor in
  let lon_val := Z.abs lon_floor in
  ns +:+ format_d 2 lat_val +:+ ew +:+ format_d 3 lon_val.

(** Lines 109-124 of [get_data]: the names passed to [download_tile], in
    the order of the two loops. *)
Definition tile_names (bounds : Q * Q * Q * Q) : list string :=
  let '(min_lon, min_lat, max_lon, max_lat) := bounds in
  let start_lat := Qfloor min_lat in
  let end_lat := Qfloor max_lat in
  let start_lon := Qfloor min_lon in
  let end_lon := Qfloor max_lon in
  lat ← seqZ start_lat (end_lat + 1 - start_lat);
  lon ← seqZ start_lon (end_lon + 1 - start_lon);
  [get_srtm_tile_name (inject_Z lat + 0.5) (inject_Z lon + 0.5)].

(** The radius of a town (lines 198-203). *)
Definition town_radius (name : string) : Q :=
  if String.eqb name "Melbourne" then 0.25%Q
  else if existsb (String.eqb name) ["Geelong"; "Ballarat"; "Bendigo"] then 0.08%Q
  else 0.03%Q.

(** [((xs - tx)**2 + (ys - ty)**2) < rad**2] *)
Definition disc_mask (xs ys : list (list Q)) (tx ty rad : Q) : list (list bool) :=
  let dist_sq := zip_with (zip_with (fun x y => ((x - tx) ^ 2 + (y - ty) ^ 2)%Q)) xs ys in
  map (map (fun d => Qltb d (rad ^ 2))) dist_sq.

Section GenerateFuelMap.

(** [np.sqrt] *)
Variable np_sqrt : Q -> Q.

(** Lines 177-178: the slope. *)
Definition slope (elevation : list (list Q)) : result (list (list Q)) :=
  '(dy, dx) ← np_gradient elevation;
  Ok (map (map np_sqrt) (zip_with (zip_with (fun y x => (y ^ 2 + x ^ 2)%Q)) dy dx)).

(** [generate_fuel_map(elevation, transform)] *)
Definition generate_fuel_map (elevation : list (list Q)) (transform : Affine)
    : result (list (list Z)) :=
  let '(rows, cols) := shape elevation in
  let fuel_map := np_full rows cols 2 in
  slope ← slope elevation;
  let is_valley := map (map (fun e => Qltb e 200)) elevation in
  let is_flat_plateau :=
    zip_with (zip_with andb) (map (map (fun s => Qltb s 2.0)) slope)
      (map (map (fun e => Qltb e 400)) elevation) in
  let fuel_map := setitem_mask fuel_map (zip_with (zip_with orb) is_valley is_flat_plateau) 1 in
  let '(cols_grid, rows_grid) := np_meshgrid (seqZ 0 cols) (seqZ 0 rows) in
  let xs := zip_with (zip_with (fun r c => (rasterio_transform_xy transform r c).1))
              rows_grid cols_grid in
  let ys := zip_with (zip_with (fun r c => (rasterio_transform_xy transform r c).2))
              rows_grid cols_grid in
  let fuel_map :=
    fold_left (fun fuel_map '(name, (tx, ty)) =>
                 setitem_mask fuel_map (disc_mask xs ys tx ty (town_radius name)) 0)
      TOWNS fuel_map in
  let fuel_map :=
    fold_left (fun fuel_map wb =>
                 setitem_mask fuel_map (disc_mask xs ys (wb_lon wb) (wb_lat wb) (wb_rad wb)) 3)
      WATER_BODIES fuel_map in
  let is_mallee :=
    zip_with (zip_with andb) (map (map (fun y => Qltb (-36.0) y)) ys)
      (map (map (fun x => Qltb x 144.0)) xs) in
  let fuel_map := setitem_mask fuel_map is_mallee 1 in
  let is_alps :=
    zip_with (zip_with andb)
      (zip_with (zip_with andb) (map (map (fun x => Qltb 146.0 x)) xs)
         (map (map (fun y => Qltb (-37.5) y)) ys))
      (map (map (fun e => Qltb 400 e)) elevation) in
  let fuel_map := setitem_mask fuel_map is_alps 2 in
  let fuel_map := setitem_mask fuel_map (map (map (fun e => Qleb e 0)) elevation) 3 in
  Ok fuel_map.

End GenerateFuelMap.

(** [get_synthetic_data(width, height)], with numpy's global generator. *)
Definition get_synthetic_data {G} (R : Generator G) (L : Libm) (width height : Z) (g : G)
    : result (list (list Q) * list (list Z) * G) :=
  x ← np_linspace 0 10 width;
  y ← np_linspace 0 10 height;
  let '(X, Y) := np_meshgrid x y in
  let elevation_map :=
    zip_with (zip_with (fun Xv Yv => 300 * (np_sin L (Xv / 3) + np_cos L (Yv / 2)) + 400)%Q)
      X Y in
  '(noise, g) ← np_random_normal R 0 10 height width g;
  let elevation_map := zip_with (zip_with Qplus) elevation_map noise in
  let elevation_map := map (map (fun e => np_maximum e 0)) elevation_map in
  let fuel_map := np_full height width 2 in
  let fuel_map :=
    setitem_mask fuel_map (map (map (fun e => Qltb e 300)) elevation_map) 1 in
  let fuel_map := setitem_block fuel_map 80 120 80 120 0 in
  Ok (elevation_map, fuel_map, g).

End data_loader.

(** * [Antigravity/visualizer.py]

    The numbers of [create_animation]: the times of the frames and, for
    each frame, the statistics and the overlay that [update] computes.
    The calls into matplotlib are not modelled. *)

Module visualizer.

(** [t <= x] for an entry [t] of the field. *)
Definition time_leb (t : time) (x : Q) : bool :=
  match t with
  | Finite q => Qleb q x
  | Infinity => false
  end.

(** [ignition_times[ignition_times != np.inf]] *)
Definition finite_entries (a : list (list time)) : list Q :=
  t ← concat a; match t with Finite q => [q] | Infinity => [] end.

(** A float or [None] that counts as true in [if x:]. *)
Definition truthy (x : option Q) : option Q :=
  match x with
  | Some q => if Qeq_bool q 0 then None else Some q
  | None => None
  end.

(** Lines 72-77 of [create_animation]. *)
Definition max_time (ignition_times : list (list time)) (max_duration_hours : option Q)
    : result Q :=
  max_time_data ← np_max (finite_entries ignition_times);
  let max_time_data := if Qeq_bool max_time_data 0 then 1.0%Q else max_time_data in
  match truthy max_duration_hours with
  | Some d => Ok (py_min max_time_data (d * 60.0)%Q)
  | None => Ok max_time_data
  end.

(** Lines 72-86 of [create_animation]: the array [time_steps]. *)
Definition time_steps (ignition_times : list (list time)) (frames : Z)
    (time_step_hours max_duration_hours : option Q) : result (list Q) :=
  max_time ← max_time ignition_times max_duration_hours;
  match truthy time_step_hours with
  | Some h =>
      let step_min := (h * 60)%Q in
      let time_steps := np_arange 0 (max_time + 0.1)%Q step_min in
      last ← getitem1 time_steps (-1);
      Ok (if Qltb max_time last then removelast time_steps else time_steps)
  | None => np_linspace 0 (max_time * 1.0)%Q frames
  end.

(** [np.sum] of an array of booleans. *)
Definition count (a : list (list bool)) : Z :=
  Z.of_nat (length (filter (fun b => b = true) (concat a))).

(** Lines 107-115 of [update]: the number of cell sides between the
    ignited cells and the rest. *)
Definition perimeter_segments (is_ignited : list (list bool)) : Z :=
  let padded := np_pad (map (map (fun b : bool => if b then 1 else 0)) is_ignited) in
  let dy := np_abs (np_diff0 padded) in
  let dx := np_abs (np_diff1 padded) in
  np_sum dy + np_sum dx.

(** What [update] puts on a frame. *)
Record frame := {
  days : Z;
  hours : Z;
  total_ha : Q;
  active_ha : Q;
  perimeter_km : Q;
  overlay : list (list (Q * Q * Q * Q))
}.

(** [update(frame_idx)], with the variables of [create_animation] that it
    reads.  The text of the statistics is left as the numbers it
    formats; a mask that has not the shape of [overlay] raises
    [IndexError]. *)
Definition update (rows cols : Z) (ignition_times : list (list time)) (cell_size : Q)
    (time_steps : list Q) (frame_idx : Z) : result frame :=
  current_time ← getitem1 time_steps frame_idx;
  let burn_duration := (5 * 60)%Q in
  let is_ignited := map (map (fun t => time_leb t current_time)) ignition_times in
  let is_burnt_out :=
    map (map (fun t => time_leb t (current_time - burn_duration)%Q)) ignition_times in
  let is_active := zip_with (zip_with (fun a b => a && negb b)) is_ignited is_burnt_out in
  let cell_area_ha := (cell_size ^ 2 / 10000.0)%Q in
  let burnt_count := count is_ignited in
  let active_count := count is_active in
  let total_ha := (inject_Z burnt_count * cell_area_ha)%Q in
  let active_ha := (inject_Z active_count * cell_area_ha)%Q in
  let perimeter_km := (inject_Z (perimeter_segments is_ignited) * cell_size / 1000.0)%Q in
  let days := Qfloor (current_time / (24 * 60)) in
  let hours :=
    py_int ((current_time - inject_Z (Qfloor (current_time / (24 * 60))) * (24 * 60))
            / 60)%Q in
  let overlay := np_full rows cols (0.0, 0.0, 0.0, 0.0)%Q in
  if negb ((Z.of_nat (length ignition_times) =? rows)
           && forallb (fun row => Z.of_nat (length row) =? cols) ignition_times)
  then Raise IndexError
  else
    let overlay := setitem_mask overlay is_ignited (0.0, 0.0, 0.0, 0.6)%Q in
    let overlay := setitem_mask overlay is_active (1.0, 0.0, 0.0, 1.0)%Q in
    Ok {| days := days; hours := hours; total_ha := total_ha; active_ha := active_ha;
          perimeter_km := perimeter_km; overlay := overlay |}.

End visualizer.

(** * [Antigravity/main.py]

    The part of [main] between the loading of the maps and the animation:
    the wind, the object, the ignition and the run.  The arrays are those
    [data_loader.get_data] returned and [cell_size] is the value of lines
    24-31. *)

Module main.

Section Main.

Context {G : Type}.
Variable R : Generator G.
Variable L : Libm.
Variables (elevation_map : list (list Q)) (fuel_map : list (list Z)).

(** Lines 47-54, [for _ in range(n)]: the object after [ignite] when a
    pass found Grass or Forest and left the loop, [None] when no pass
    did. *)
Fixpoint attempts (rows cols : Z) (model : FireModel) (n : nat) (g : G)
    : result (option FireModel * G) :=
  match n with
  | O => Ok (None, g)
  | S n' =>
      '(r, g) ← np_random_randint R (rows / 4) (rows / 2) g;
      '(c, g) ← np_random_randint R (cols / 3) (2 * cols / 3) g;
      f ← getitem fuel_map r c;
      if (f =? 1) || (f =? 2) then
        _ ← getitem fuel_map r c;
        _ ← getitem elevation_map r c;
        model' ← ignite model r c (Finite 0);
        Ok (Some model', g)
      else attempts rows cols model n' g
  end.

(** Lines 45-58. *)
Definition ignition (model : FireModel) (g : G) : result (FireModel * G) :=
  let '(rows, cols) := shape elevation_map in
  '(found, g) ← attempts rows cols model 100 g;
  match found with
  | Some model' => Ok (model', g)
  | None =>
      model' ← ignite model (rows / 2) (cols / 2) (Finite 0);
      Ok (model', g)
  end.

(** Lines 36-58: the wind and the object with its seed. *)
Definition setup (cell_size : Q) (g : G) : result (Z * FireModel * G) :=
  let wind_speed := 20.0%Q in
  '(wind_dir, g) ← np_random_randint R 0 360 g;
  let model := __init__ L elevation_map fuel_map wind_speed (inject_Z wind_dir) cell_size in
  '(model, g) ← ignition model g;
  Ok (wind_dir, model, g).

(** Lines 36-66: the field [ignition_times], with the wind direction drawn
    and the generator afterwards. *)
Definition main (cell_size : Q) (g : G) : option (result (list (list time) * Z * G)) :=
  match setup cell_size g with
  | Raise e => Some (Raise e)
  | Ok (wind_dir, model, g) =>
      let sim_duration := 14 * 24 * 60 in
      match run_simulation R L model (Finite (inject_Z sim_duration)) g with
      | None => None
      | Some (Raise e) => Some (Raise e)
      | Some (Ok (ignition_times, g)) => Some (Ok (ignition_times, wind_dir, g))
      end
  end.

End Main.

End main.

Arguments main.attempts : simpl never.

(** * Properties of the other modules *)

(** ** Tile names *)

Lemma Qltb_floor (x : Q) : Qltb x 0 = (Qfloor x <? 0).
Proof.
  pose proof (Qfloor_le x) as Hle. pose proof (Qlt_floor x) as Hlt.
  destruct (Z.ltb_spec (Qfloor x) 0) as [H|H].
  - apply Qltb_lt.
    assert (Hz : (inject_Z (Qfloor x + 1) <= inject_Z 0)%Q) by (rewrite <- Zle_Qle; lia).
    change (inject_Z 0) with 0%Q in Hz. lra.
  - apply Qltb_ge.
    assert (Hz : (inject_Z 0 <= inject_Z (Qfloor x))%Q) by (rewrite <- Zle_Qle; lia).
    change (inject_Z 0) with 0%Q in Hz. lra.
Qed.

Lemma Qfloor_half (i : Z) : Qfloor (inject_Z i + 0.5) = i.
Proof.
  apply Z.le_antisymm.
  - apply Z.lt_succ_r. apply Qfloor_lt. unfold Z.succ. rewrite inject_Z_plus.
    change (inject_Z 1) with 1%Q. lra.
  - apply Qfloor_ge. lra.
Qed.

(** The name as a function of the two integer degrees. *)
Definition tile_of (i j : Z) : string :=
  (if i <? 0 then "S" else "N") +:+ data_loader.format_d 2 (Z.abs i)
  +:+ (if j <? 0 then "W" else "E") +:+ data_loader.format_d 3 (Z.abs j).

Lemma get_srtm_tile_name_floor (lat lon : Q) :
  data_loader.get_srtm_tile_name lat lon = tile_of (Qfloor lat) (Qfloor lon).
Proof.
  unfold data_loader.get_srtm_tile_name, tile_of. rewrite !Qltb_floor. reflexivity.
Qed.

Lemma append_inj_length (s1 s2 t1 t2 : string) :
  String.length s1 = String.length t1 -> s1 +:+ s2 = t1 +:+ t2 -> s1 = t1 /\ s2 = t2.
Proof.
  revert t1. induction s1 as [|a s1 IH]; intros [|b t1] Hlen H; simpl in *;
    try discriminate; [auto|].
  injection H as -> H. injection Hlen as Hlen.
  destruct (IH t1 Hlen H) as [-> ->]. auto.
Qed.

(** Below 100 the latitude field has two characters, below 1000 the
    longitude field has three, and different numbers give different
    fields. *)
Lemma format_d_2 :
  forallb (fun v => bool_decide (String.length (data_loader.format_d 2 v) = 2%nat))
    (seqZ 0 100) = true
  /\ bool_decide (NoDup (data_loader.format_d 2 <$> seqZ 0 100)) = true.
Proof. split; vm_compute; reflexivity. Qed.

Lemma format_d_3 :
  forallb (fun v => bool_decide (String.length (data_loader.format_d 3 v) = 3%nat))
    (seqZ 0 1000) = true
  /\ bool_decide (NoDup (data_loader.format_d 3 <$> seqZ 0 1000)) = true.
Proof. split; vm_compute; reflexivity. Qed.

Lemma format_d_field (w : nat) (n : Z) (v v' : Z) :
  forallb (fun v => bool_decide (String.length (data_loader.format_d w v) = w))
    (seqZ 0 n) = true
  /\ bool_decide (NoDup (data_loader.format_d w <$> seqZ 0 n)) = true ->
  0 <= v < n -> 0 <= v' < n ->
  String.length (data_loader.format_d w v) = w
  /\ (data_loader.format_d w v = data_loader.format_d w v' -> v = v').
Proof.
  intros [Hlen Hnd] Hv Hv'. split.
  - rewrite forallb_forall in Hlen. specialize (Hlen v).
    rewrite bool_decide_eq_true in Hlen. apply Hlen.
    apply list_elem_of_In. apply elem_of_seqZ. lia.
  - apply bool_decide_eq_true in Hnd. intros Heq.
    assert (Hi : seqZ 0 n !! Z.to_nat v = Some v) by (apply lookup_seqZ; lia).
    assert (Hi' : seqZ 0 n !! Z.to_nat v' = Some v') by (apply lookup_seqZ; lia).
    assert (Z.to_nat v = Z.to_nat v'); [|lia].
    eapply (NoDup_lookup _ _ _ (data_loader.format_d w v) Hnd);
      rewrite list_lookup_fmap; [rewrite Hi | rewrite Hi', Heq]; reflexivity.
Qed.

Lemma tile_of_inj (i j i' j' : Z) :
  -100 < i < 100 -> -1000 < j < 1000 -> -100 < i' < 100 -> -1000 < j' < 1000 ->
  tile_of i j = tile_of i' j' -> i = i' /\ j = j'.
Proof.
  intros Hi Hj Hi' Hj'. unfold tile_of. intros H.
  destruct (format_d_field 2 100 (Z.abs i) (Z.abs i') format_d_2) as [Hl2 Hinj2];
    [lia | lia |].
  destruct (format_d_field 2 100 (Z.abs i') (Z.abs i) format_d_2) as [Hl2' _];
    [lia | lia |].
  destruct (format_d_field 3 1000 (Z.abs j) (Z.abs j') format_d_3) as [Hl3 Hinj3];
    [lia | lia |].
  assert (Hns : (i <? 0) = (i' <? 0)
                /\ data_loader.format_d 2 (Z.abs i)
                   +:+ (if j <? 0 then "W" else "E") +:+ data_loader.format_d 3 (Z.abs j)
                   = data_loader.format_d 2 (Z.abs i')
                     +:+ (if j' <? 0 then "W" else "E") +:+ data_loader.format_d 3 (Z.abs j')).
  { destruct (i <? 0), (i' <? 0); simpl in H; injection H as H; try discriminate; auto. }
  destruct Hns as [Hsi H2].
  apply append_inj_length in H2 as [Ha H3]; [|congruence].
  assert (Hew : (j <? 0) = (j' <? 0)
                /\ data_loader.format_d 3 (Z.abs j) = data_loader.format_d 3 (Z.abs j')).
  { destruct (j <? 0), (j' <? 0); simpl in H3; injection H3 as H3; try discriminate; auto. }
  destruct Hew as [Hsj Hb].
  apply Hinj2 in Ha. apply Hinj3 in Hb.
  destruct (Z.ltb_spec i 0), (Z.ltb_spec i' 0), (Z.ltb_spec j 0), (Z.ltb_spec j' 0);
    try discriminate; lia.
Qed.

(** X9: within 100 degrees of latitude and 1000 of longitude, two points
    get the same SRTM tile name exactly when they lie in the same
    one-degree square (same floor of the latitude and of the longitude). *)
Theorem tile_name_identifies_square (lat lon lat' lon' : Q) :
  -100 < Qfloor lat < 100 -> -1000 < Qfloor lon < 1000 ->
  -100 < Qfloor lat' < 100 -> -1000 < Qfloor lon' < 1000 ->
  (data_loader.get_srtm_tile_name lat lon = data_loader.get_srtm_tile_name lat' lon'
   <-> Qfloor lat = Qfloor lat' /\ Qfloor lon = Qfloor lon').
Proof.
  intros H1 H2 H3 H4. rewrite !get_srtm_tile_name_floor. split.
  - apply tile_of_inj; assumption.
  - intros [-> ->]. reflexivity.
Qed.

Lemma tile_name_identifies_square_witness :
  data_loader.get_srtm_tile_name (-37.7) 145.5 = data_loader.get_srtm_tile_name (-37.2) 145.9
  <-> Qfloor (-37.7) = Qfloor (-37.2) /\ Qfloor 145.5 = Qfloor 145.9.
Proof.
  apply (tile_name_identifies_square (-37.7) 145.5 (-37.2) 145.9); vm_compute; split;
    reflexivity.
Defined.

(** X10: for a box with [min <= max] on both axes, the tiles that
    [get_data] asks [download_tile] for are exactly the tiles of the
    points of the box. *)
Theorem tile_names_cover_box (min_lon min_lat max_lon max_lat : Q) (s : string) :
  (min_lat <= max_lat)%Q -> (min_lon <= max_lon)%Q ->
  (s ∈ data_loader.tile_names (min_lon, min_lat, max_lon, max_lat)
   <-> exists lat lon, (min_lat <= lat <= max_lat)%Q /\ (min_lon <= lon <= max_lon)%Q
         /\ s = data_loader.get_srtm_tile_name lat lon).
Proof.
  intros Hlat Hlon. unfold data_loader.tile_names.
  rewrite list_elem_of_bind. setoid_rewrite list_elem_of_bind.
  setoid_rewrite list_elem_of_singleton. setoid_rewrite elem_of_seqZ.
  assert (Hpoint : forall (lo hi : Q) (i : Z), (lo <= hi)%Q ->
            Qfloor lo <= i < Qfloor lo + (Qfloor hi + 1 - Qfloor lo) ->
            exists x, (lo <= x <= hi)%Q /\ Qfloor x = i).
  { intros lo hi i Hle Hi. destruct (Z.eq_dec i (Qfloor lo)) as [->|Hne].
    - exists lo. split; [lra | reflexivity].
    - exists (inject_Z i). split; [|apply Qfloor_Z]. split.
      + pose proof (Qlt_floor lo) as Hlt.
        assert (Hz : (inject_Z (Qfloor lo + 1) <= inject_Z i)%Q) by (rewrite <- Zle_Qle; lia).
        lra.
      + pose proof (Qfloor_le hi) as Hfl.
        assert (Hz : (inject_Z i <= inject_Z (Qfloor hi))%Q) by (rewrite <- Zle_Qle; lia).
        lra. }
  split.
  - intros (i & (j & -> & Hj) & Hi).
    destruct (Hpoint min_lat max_lat i Hlat Hi) as (lat & Hlat' & Hfl).
    destruct (Hpoint min_lon max_lon j Hlon Hj) as (lon & Hlon' & Hfo).
    exists lat, lon. split; [exact Hlat'|]. split; [exact Hlon'|].
    rewrite !get_srtm_tile_name_floor, !Qfloor_half. congruence.
  - intros (lat & lon & [Hl1 Hl2] & [Ho1 Ho2] & ->).
    exists (Qfloor lat). split.
    + exists (Qfloor lon). split.
      * rewrite !get_srtm_tile_name_floor, !Qfloor_half. reflexivity.
      * pose proof (Qfloor_resp_le _ _ Ho1). pose proof (Qfloor_resp_le _ _ Ho2). lia.
    + pose proof (Qfloor_resp_le _ _ Hl1). pose proof (Qfloor_resp_le _ _ Hl2). lia.
Qed.

Lemma tile_names_cover_box_witness :
  "S38E145" ∈ data_loader.tile_names (145.30, -37.80, 145.70, -37.50)%Q
  <-> exists lat lon, (-37.80 <= lat <= -37.50)%Q /\ (145.30 <= lon <= 145.70)%Q
        /\ "S38E145" = data_loader.get_srtm_tile_name lat lon.
Proof.
  apply (tile_names_cover_box 145.30 (-37.80) 145.70 (-37.50) "S38E145");
    vm_compute; discriminate.
Defined.

(** ** Entries and shapes of the arrays built cell by cell *)

Lemma cell_zip_with {A B C} (f : A -> B -> C) (a : list (list A)) (b : list (list B))
    (r c : Z) :
  cell (zip_with (zip_with f) a b) r c
  = x ← cell a r c; y ← cell b r c; Some (f x y).
Proof.
  unfold cell. rewrite lookup_zip_with.
  destruct (a !! Z.to_nat r) as [ra|]; simpl; [|reflexivity].
  destruct (b !! Z.to_nat r) as [rb|]; simpl.
  - rewrite lookup_zip_with. reflexivity.
  - destruct (ra !! Z.to_nat c); reflexivity.
Qed.

Lemma cell_map {A B} (f : A -> B) (a : list (list A)) (r c : Z) :
  cell (map (map f) a) r c = f <$> cell a r c.
Proof.
  unfold cell. change (map (map f) a) with (map f <$> a). rewrite list_lookup_fmap.
  destruct (a !! Z.to_nat r) as [ra|]; simpl; [|reflexivity].
  change (map f ra) with (f <$> ra). apply list_lookup_fmap.
Qed.

Lemma cell_setitem_block {A} (a : list (list A)) (r0 r1 c0 c1 : Z) (v : A) (r c : Z) :
  0 <= r -> 0 <= c ->
  cell (setitem_block a r0 r1 c0 c1 v) r c
  = (fun x => if (r0 <=? r) && (r <? r1) && (c0 <=? c) && (c <? c1) then v else x)
      <$> cell a r c.
Proof.
  intros Hr Hc. unfold cell, setitem_block. rewrite list_lookup_imap.
  destruct (a !! Z.to_nat r) as [ra|]; simpl; [|reflexivity].
  rewrite !Z2Nat.id by lia.
  destruct ((r0 <=? r) && (r <? r1)); simpl.
  - rewrite list_lookup_imap. rewrite !Z2Nat.id by lia.
    destruct (ra !! Z.to_nat c); reflexivity.
  - destruct (ra !! Z.to_nat c); reflexivity.
Qed.

Lemma zip_with_shape {A B C} (f : A -> B -> C) (a : list (list A)) (b : list (list B))
    (rows cols : Z) :
  has_shape a rows cols -> has_shape b rows cols ->
  has_shape (zip_with (zip_with f) a b) rows cols.
Proof.
  intros [Ha1 Ha2] [Hb1 Hb2]. split.
  - rewrite length_zip_with. lia.
  - apply Forall_lookup. intros i row Hrow.
    apply lookup_zip_with_Some in Hrow as (ra & rb & -> & Hra & Hrb).
    rewrite Forall_lookup in Ha2. rewrite Forall_lookup in Hb2.
    specialize (Ha2 _ _ Hra). specialize (Hb2 _ _ Hrb).
    simpl in *. rewrite length_zip_with. lia.
Qed.

Lemma map_shape {A B} (f : A -> B) (a : list (list A)) (rows cols : Z) :
  has_shape a rows cols -> has_shape (map (map f) a) rows cols.
Proof.
  intros [Ha1 Ha2]. split.
  - rewrite length_map. exact Ha1.
  - apply Forall_map. eapply Forall_impl; [exact Ha2|].
    intros row Hrow. simpl in *. rewrite length_map. exact Hrow.
Qed.

Lemma setitem_block_shape {A} (a : list (list A)) (r0 r1 c0 c1 : Z) (v : A)
    (rows cols : Z) :
  has_shape a rows cols -> has_shape (setitem_block a r0 r1 c0 c1 v) rows cols.
Proof.
  intros [Ha1 Ha2]. unfold setitem_block. split.
  - rewrite length_imap. exact Ha1.
  - apply Forall_lookup. intros i row Hrow.
    rewrite list_lookup_imap in Hrow.
    destruct (a !! i) as [ra|] eqn:Hra; simpl in Hrow; [|discriminate].
    rewrite Forall_lookup in Ha2. specialize (Ha2 _ _ Hra). simpl in Ha2.
    injection Hrow as <-. destruct (_ && _); [rewrite length_imap|]; exact Ha2.
Qed.

Lemma normal_draws_length {G} (R : Generator G) (loc scale : Q) (n : nat) (g : G) :
  length (normal_draws R loc scale n g).1 = n.
Proof.
  revert g. induction n as [|n IH]; intros g; [reflexivity|].
  cbn [normal_draws]. destruct (gen_normal R loc scale g) as [x g1].
  specialize (IH g1). destruct (normal_draws R loc scale n g1) as [xs g2].
  simpl in *. lia.
Qed.

Lemma normal_rows_shape {G} (R : Generator G) (loc scale : Q) (rows cols : nat) (g : G) :
  has_shape (normal_rows R loc scale rows cols g).1 (Z.of_nat rows) (Z.of_nat cols).
Proof.
  revert g. induction rows as [|rows IH]; intros g; [split; [reflexivity | constructor]|].
  cbn [normal_rows]. pose proof (normal_draws_length R loc scale cols g) as Hrow.
  destruct (normal_draws R loc scale cols g) as [row g1].
  specialize (IH g1). destruct (normal_rows R loc scale rows cols g1) as [a g2].
  destruct IH as [H1 H2]. simpl in *. split.
  - simpl. lia.
  - constructor; [lia | exact H2].
Qed.

Lemma np_linspace_length (start stop : Q) (num : Z) :
  0 <= num ->
  exists l, np_linspace start stop num = Ok l /\ Z.of_nat (length l) = num.
Proof.
  intros Hnum. unfold np_linspace.
  destruct (Z.ltb_spec num 0); [lia|]. eexists. split; [reflexivity|].
  rewrite length_fmap, length_seqZ. lia.
Qed.

Lemma np_meshgrid_shape {A} (x y : list A) :
  has_shape (np_meshgrid x y).1 (Z.of_nat (length y)) (Z.of_nat (length x))
  /\ has_shape (np_meshgrid x y).2 (Z.of_nat (length y)) (Z.of_nat (length x)).
Proof.
  unfold np_meshgrid. simpl. split; split.
  - rewrite length_replicate. reflexivity.
  - apply Forall_replicate. reflexivity.
  - rewrite length_fmap. reflexivity.
  - apply Forall_fmap. apply Forall_forall. intros yi _. simpl.
    rewrite length_replicate. reflexivity.
Qed.

(** X17: for sizes that are not negative [get_synthetic_data] returns two
    arrays of [height] rows and [width] columns; no elevation is negative,
    and the fuel of a cell is Urban in the block of rows and columns 80 to
    119 (as far as the map reaches it), and elsewhere Grass where the
    elevation is below 300 and Forest where it is not; no cell is
    Water. *)
Theorem synthetic_map {G} (R : Generator G) (L : Libm) (width height : Z) (g : G) :
  0 <= width -> 0 <= height ->
  exists elevation_map fuel_map g',
    data_loader.get_synthetic_data R L width height g = Ok (elevation_map, fuel_map, g')
    /\ has_shape elevation_map height width
    /\ has_shape fuel_map height width
    /\ forall r c, 0 <= r < height -> 0 <= c < width ->
         exists e, cell elevation_map r c = Some e
           /\ (0 <= e)%Q
           /\ cell fuel_map r c
              = Some (if (80 <=? r) && (r <? 120) && (80 <=? c) && (c <? 120) then 0
                      else if Qltb e 300 then 1 else 2).
Proof.
  intros Hw Hh. unfold data_loader.get_synthetic_data.
  destruct (np_linspace_length 0 10 width Hw) as (x & -> & Hx).
  destruct (np_linspace_length 0 10 height Hh) as (y & -> & Hy). bind_step.
  destruct (np_meshgrid_shape x y) as [HX HY]. rewrite Hx, Hy in HX, HY.
  destruct (np_meshgrid x y) as [X Y]. cbn [fst snd] in HX, HY.
  unfold np_random_normal.
  destruct (Z.ltb_spec height 0); [lia|]. destruct (Z.ltb_spec width 0); [lia|].
  cbn [orb].
  pose proof (normal_rows_shape R 0 10 (Z.to_nat height) (Z.to_nat width) g) as Hnoise.
  rewrite !Z2Nat.id in Hnoise by lia.
  destruct (normal_rows R 0 10 (Z.to_nat height) (Z.to_nat width) g) as [noise g'].
  cbn [fst] in Hnoise. bind_step.
  set (base := zip_with
                 (zip_with (fun Xv Yv => 300 * (np_sin L (Xv / 3) + np_cos L (Yv / 2)) + 400)%Q)
                 X Y).
  set (noisy := zip_with (zip_with Qplus) base noise).
  assert (Hnoisy : has_shape noisy height width).
  { apply zip_with_shape; [apply zip_with_shape; assumption | exact Hnoise]. }
  set (elev := map (map (fun e => np_maximum e 0)) noisy).
  assert (Helev : has_shape elev height width) by (apply map_shape; exact Hnoisy).
  exists elev, (setitem_block
                  (setitem_mask (np_full height width 2)
                     (map (map (fun e => Qltb e 300)) elev) 1) 80 120 80 120 0), g'.
  split; [reflexivity|]. split; [exact Helev|].
  assert (Hfull : has_shape (np_full height width 2) height width)
    by (apply np_full_shape; lia).
  split.
  { apply setitem_block_shape. apply zip_with_shape; [exact Hfull|].
    apply map_shape. exact Helev. }
  intros r c Hr Hc.
  destruct (proj2 (cell_is_Some noisy height width r c Hnoisy (proj1 Hr) (proj1 Hc)))
    as [e0 He0]; [lia|].
  destruct (proj2 (cell_is_Some _ height width r c Hfull (proj1 Hr) (proj1 Hc)))
    as [f0 Hf0]; [lia|].
  pose proof (cell_np_full _ _ _ _ _ _ Hf0) as ->.
  assert (He : cell elev r c = Some (np_maximum e0 0)).
  { unfold elev. rewrite cell_map, He0. reflexivity. }
  exists (np_maximum e0 0). split; [exact He|]. split.
  { unfold np_maximum. destruct (Qltb e0 0) eqn:Hlt; [apply Qle_refl|].
    apply Qltb_ge in Hlt. exact Hlt. }
  rewrite cell_setitem_block by lia. unfold setitem_mask.
  rewrite cell_zip_with, Hf0, cell_map, He. simpl.
  destruct ((80 <=? r) && (r <? 120) && (80 <=? c) && (c <? 120)); [reflexivity|].
  destruct (Qltb (np_maximum e0 0) 300); reflexivity.
Qed.

Lemma synthetic_map_witness :
  exists elevation_map fuel_map g',
    data_loader.get_synthetic_data scripted rational_libm 2 1 [] = Ok (elevation_map, fuel_map, g')
    /\ has_shape elevation_map 1 2
    /\ has_shape fuel_map 1 2
    /\ forall r c, 0 <= r < 1 -> 0 <= c < 2 ->
         exists e, cell elevation_map r c = Some e
           /\ (0 <= e)%Q
           /\ cell fuel_map r c
              = Some (if (80 <=? r) && (r <? 120) && (80 <=? c) && (c <? 120) then 0
                      else if Qltb e 300 then 1 else 2).
Proof.
  apply (synthetic_map scripted rational_libm 2 1 []); lia.
Defined.

(** ** The layers of the fuel map *)

Lemma has_shape_shape {A} (a : list (list A)) (rows cols : Z) :
  has_shape a rows cols -> (shape a).1 = rows /\ (1 <= rows -> (shape a).2 = cols).
Proof.
  intros [Hlen Hall]. unfold shape. simpl. split; [exact Hlen|].
  intros Hrows. destruct a as [|row a]; [simpl in Hlen; lia|].
  apply Forall_cons in Hall as [Hrow _]. exact Hrow.
Qed.

Lemma has_shape_row {A} (a : list (list A)) (rows cols : Z) (k : nat) :
  has_shape a rows cols -> (k < length a)%nat ->
  Z.of_nat (length (default [] (a !! k))) = cols.
Proof.
  intros [_ Hall] Hk. destruct (lookup_lt_is_Some_2 a k Hk) as [row Hrow].
  rewrite Hrow. rewrite Forall_lookup in Hall. exact (Hall k row Hrow).
Qed.

Lemma np_gradient_shape (a : list (list Q)) (rows cols : Z) :
  has_shape a rows cols -> 2 <= rows -> 2 <= cols ->
  exists dy dx, np_gradient a = Ok (dy, dx)
    /\ has_shape dy rows cols /\ has_shape dx rows cols.
Proof.
  intros Hs Hrows Hcols. unfold np_gradient.
  destruct (has_shape_shape a rows cols Hs) as [E1 E2]. specialize (E2 ltac:(lia)).
  destruct (shape a) as [rws cls]. simpl in E1, E2. subst rws cls.
  destruct (Z.ltb_spec rows 2); [lia|]. destruct (Z.ltb_spec cols 2); [lia|]. cbn [orb].
  eexists _, _. split; [reflexivity|].
  pose proof Hs as [Hlen Hall]. split; split.
  - rewrite length_imap. exact Hlen.
  - apply Forall_lookup. intros i row Hrow.
    rewrite list_lookup_imap in Hrow.
    destruct (a !! i) as [ra|] eqn:Hra; simpl in Hrow; [|discriminate].
    pose proof (lookup_lt_Some _ _ _ Hra) as Hi.
    injection Hrow as <-. simpl.
    assert (Hrow : forall k, (k < length a)%nat ->
              Z.of_nat (length (default [] (a !! k))) = cols)
      by (intros k Hk; exact (has_shape_row a rows cols k Hs Hk)).
    destruct (Nat.eqb_spec i 0) as [E0|E0];
      [|destruct (Nat.eqb_spec i (length a - 1)) as [En|En]]; rewrite length_zip_with.
    + pose proof (Hrow 1%nat ltac:(lia)). pose proof (Hrow 0%nat ltac:(lia)). lia.
    + rewrite Forall_lookup in Hall. pose proof (Hall i ra Hra) as Hra'. simpl in Hra'.
      pose proof (Hrow (i - 1)%nat ltac:(lia)). lia.
    + pose proof (Hrow (i + 1)%nat ltac:(lia)). pose proof (Hrow (i - 1)%nat ltac:(lia)). lia.
  - rewrite length_map. exact Hlen.
  - apply Forall_map. eapply Forall_impl; [exact Hall|].
    intros row Hrow. simpl in *. unfold gradient1. rewrite length_imap. exact Hrow.
Qed.

Lemma np_gradient_small (a : list (list Q)) (rows cols : Z) :
  has_shape a rows cols -> rows < 2 \/ cols < 2 -> np_gradient a = Raise ValueError.
Proof.
  intros Hs Hsmall. unfold np_gradient.
  destruct (has_shape_shape a rows cols Hs) as [E1 E2].
  destruct (shape a) as [rws cls]. simpl in E1, E2. subst rws.
  destruct (Z.ltb_spec rows 2); [reflexivity|]. rewrite E2 by lia.
  destruct (Z.ltb_spec cols 2); [reflexivity | lia].
Qed.

Lemma cell_setitem_mask {A} (a : list (list A)) (mask : list (list bool)) (v : A) (r c : Z) :
  cell (setitem_mask a mask v) r c
  = x ← cell a r c; m ← cell mask r c; Some (if m : bool then v else x).
Proof. unfold setitem_mask. apply cell_zip_with. Qed.

Lemma setitem_mask_shape {A} (a : list (list A)) (mask : list (list bool)) (v : A)
    (rows cols : Z) :
  has_shape a rows cols -> has_shape mask rows cols ->
  has_shape (setitem_mask a mask v) rows cols.
Proof. apply zip_with_shape. Qed.

Lemma cell_np_meshgrid (x y : list Z) (r c : Z) :
  0 <= r < Z.of_nat (length y) -> 0 <= c < Z.of_nat (length x) ->
  cell (np_meshgrid x y).1 r c = x !! Z.to_nat c
  /\ cell (np_meshgrid x y).2 r c = y !! Z.to_nat r.
Proof.
  intros Hr Hc. unfold np_meshgrid, cell. simpl. split.
  - rewrite lookup_replicate_2 by lia. reflexivity.
  - rewrite list_lookup_fmap.
    destruct (lookup_lt_is_Some_2 y (Z.to_nat r)) as [yi Hyi]; [lia|].
    rewrite Hyi. simpl. rewrite lookup_replicate_2 by lia. reflexivity.
Qed.

Section Layers.

Variable np_sqrt : Q -> Q.
Variable transform : Affine.
Variables (xs ys : list (list Q)).
Variables (r c : Z) (x y : Q).
Hypothesis Hx : cell xs r c = Some x.
Hypothesis Hy : cell ys r c = Some y.

(** The point [(x, y)] is less than [rad] away from [(cx, cy)]. *)
Definition within (cx cy rad x y : Q) : bool :=
  Qltb ((x - cx) ^ 2 + (y - cy) ^ 2) (rad ^ 2).

Lemma cell_disc_mask (tx ty rad : Q) :
  cell (data_loader.disc_mask xs ys tx ty rad) r c = Some (within tx ty rad x y).
Proof.
  unfold data_loader.disc_mask. rewrite cell_map, cell_zip_with, Hx, Hy. reflexivity.
Qed.

Lemma cell_towns (towns : list (string * (Q * Q))) (fuel_map : list (list Z)) (f : Z) :
  cell fuel_map r c = Some f ->
  cell (fold_left (fun fuel_map '(name, (tx, ty)) =>
                     setitem_mask fuel_map
                       (data_loader.disc_mask xs ys tx ty (data_loader.town_radius name)) 0)
          towns fuel_map) r c
  = Some (if existsb (fun '(name, (tx, ty)) =>
                        within tx ty (data_loader.town_radius name) x y) towns
          then 0 else f).
Proof.
  revert fuel_map f. induction towns as [|[name [tx ty]] towns IH]; intros fuel_map f Hf.
  - exact Hf.
  - cbn [fold_left existsb].
    rewrite (IH _ (if within tx ty (data_loader.town_radius name) x y then 0 else f)).
    + destruct (within tx ty (data_loader.town_radius name) x y); simpl; [|reflexivity].
      destruct (existsb _ towns); reflexivity.
    + rewrite cell_setitem_mask, Hf, cell_disc_mask. reflexivity.
Qed.

Lemma cell_water_bodies (wbs : list data_loader.water_body) (fuel_map : list (list Z))
    (f : Z) :
  cell fuel_map r c = Some f ->
  cell (fold_left (fun fuel_map wb =>
                     setitem_mask fuel_map
                       (data_loader.disc_mask xs ys (data_loader.wb_lon wb)
                          (data_loader.wb_lat wb) (data_loader.wb_rad wb)) 3)
          wbs fuel_map) r c
  = Some (if existsb (fun wb =>
                        within (data_loader.wb_lon wb) (data_loader.wb_lat wb)
                          (data_loader.wb_rad wb) x y) wbs
          then 3 else f).
Proof.
  revert fuel_map f. induction wbs as [|wb wbs IH]; intros fuel_map f Hf.
  - exact Hf.
  - cbn [fold_left existsb].
    rewrite (IH _ (if within (data_loader.wb_lon wb) (data_loader.wb_lat wb)
                        (data_loader.wb_rad wb) x y then 3 else f)).
    + destruct (within _ _ _ x y); simpl; [|reflexivity].
      destruct (existsb _ wbs); reflexivity.
    + rewrite cell_setitem_mask, Hf, cell_disc_mask. reflexivity.
Qed.

End Layers.

Lemma disc_mask_shape (xs ys : list (list Q)) (tx ty rad : Q) (rows cols : Z) :
  has_shape xs rows cols -> has_shape ys rows cols ->
  has_shape (data_loader.disc_mask xs ys tx ty rad) rows cols.
Proof.
  intros Hxs Hys. unfold data_loader.disc_mask.
  apply map_shape. apply zip_with_shape; assumption.
Qed.

Lemma towns_shape (xs ys : list (list Q)) (rows cols : Z)
    (towns : list (string * (Q * Q))) (fuel_map : list (list Z)) :
  has_shape xs rows cols -> has_shape ys rows cols -> has_shape fuel_map rows cols ->
  has_shape (fold_left (fun fuel_map '(name, (tx, ty)) =>
                          setitem_mask fuel_map
                            (data_loader.disc_mask xs ys tx ty
                               (data_loader.town_radius name)) 0)
               towns fuel_map) rows cols.
Proof.
  intros Hxs Hys. revert fuel_map.
  induction towns as [|[name [tx ty]] towns IH]; intros fuel_map Hf; [exact Hf|].
  cbn [fold_left]. apply IH. apply setitem_mask_shape; [exact Hf|].
  apply disc_mask_shape; assumption.
Qed.

Lemma water_bodies_shape (xs ys : list (list Q)) (rows cols : Z)
    (wbs : list data_loader.water_body) (fuel_map : list (list Z)) :
  has_shape xs rows cols -> has_shape ys rows cols -> has_shape fuel_map rows cols ->
  has_shape (fold_left (fun fuel_map wb =>
                          setitem_mask fuel_map
                            (data_loader.disc_mask xs ys (data_loader.wb_lon wb)
                               (data_loader.wb_lat wb) (data_loader.wb_rad wb)) 3)
               wbs fuel_map) rows cols.
Proof.
  intros Hxs Hys. revert fuel_map.
  induction wbs as [|wb wbs IH]; intros fuel_map Hf; [exact Hf|].
  cbn [fold_left]. apply IH. apply setitem_mask_shape; [exact Hf|].
  apply disc_mask_shape; assumption.
Qed.

(** The fuel of a cell, by the layers of [generate_fuel_map] from the last
    written to the first: sea, Alps, Mallee, water bodies, towns, valleys
    and flat ground, Forest. *)
Definition fuel_of (e s x y : Q) : Z :=
  if Qleb e 0 then 3
  else if Qltb 146.0 x && Qltb (-37.5) y && Qltb 400 e then 2
  else if Qltb (-36.0) y && Qltb x 144.0 then 1
  else if existsb (fun wb => within (data_loader.wb_lon wb) (data_loader.wb_lat wb)
                               (data_loader.wb_rad wb) x y) data_loader.WATER_BODIES
       then 3
  else if existsb (fun '(name, (tx, ty)) =>
                     within tx ty (data_loader.town_radius name) x y) data_loader.TOWNS
       then 0
  else if Qltb e 200 || (Qltb s 2.0 && Qltb e 400) then 1
  else 2.

(** X18: [generate_fuel_map] raises [ValueError] (from [np.gradient]) on
    an elevation array with fewer than two rows or two columns; on any
    larger array it returns a fuel map of the same shape in which the
    layer written last wins: a cell at or below sea level is Water; else
    an Alps cell is Forest; else a Mallee cell is Grass; else a cell within
    a listed water body is Water; else a cell within a town's radius is
    Urban; else it is Grass when low or flat enough, and Forest
    otherwise. *)
Theorem fuel_map_layers (np_sqrt : Q -> Q) (elevation : list (list Q))
    (transform : Affine) (rows cols : Z) :
  has_shape elevation rows cols ->
  if (rows <? 2) || (cols <? 2) then
    data_loader.generate_fuel_map np_sqrt elevation transform = Raise ValueError
  else
    exists fuel_map slope,
      data_loader.generate_fuel_map np_sqrt elevation transform = Ok fuel_map
      /\ data_loader.slope np_sqrt elevation = Ok slope
      /\ has_shape fuel_map rows cols
      /\ forall r c, 0 <= r < rows -> 0 <= c < cols ->
           exists e s, cell elevation r c = Some e /\ cell slope r c = Some s
             /\ cell fuel_map r c
                = Some (fuel_of e s (rasterio_transform_xy transform r c).1
                          (rasterio_transform_xy transform r c).2).
Proof.
  intros Hs. unfold data_loader.generate_fuel_map, data_loader.slope.
  destruct (Z.ltb_spec rows 2) as [Hrows|Hrows]; cbn [orb].
  { rewrite (np_gradient_small elevation rows cols Hs) by lia.
    destruct (shape elevation). reflexivity. }
  destruct (Z.ltb_spec cols 2) as [Hcols|Hcols].
  { rewrite (np_gradient_small elevation rows cols Hs) by lia.
    destruct (shape elevation). reflexivity. }
  destruct (np_gradient_shape elevation rows cols Hs Hrows Hcols)
    as (dy & dx & Hgrad & Hdy & Hdx).
  rewrite Hgrad. bind_step.
  destruct (has_shape_shape elevation rows cols Hs) as [E1 E2]. specialize (E2 ltac:(lia)).
  destruct (shape elevation) as [rws cls]. simpl in E1, E2. subst rws cls. bind_step.
  set (slope := map (map np_sqrt) (zip_with (zip_with (fun y x => (y ^ 2 + x ^ 2)%Q)) dy dx)).
  assert (Hslope : has_shape slope rows cols).
  { apply map_shape. apply zip_with_shape; assumption. }
  pose proof (np_meshgrid_shape (seqZ 0 cols) (seqZ 0 rows)) as [Hcg Hrg].
  pose proof (cell_np_meshgrid (seqZ 0 cols) (seqZ 0 rows)) as Hmesh.
  rewrite !length_seqZ, !Z2Nat.id in Hcg, Hrg, Hmesh by lia.
  destruct (np_meshgrid (seqZ 0 cols) (seqZ 0 rows)) as [cols_grid rows_grid].
  cbn [fst snd] in Hcg, Hrg, Hmesh.
  set (xs := zip_with (zip_with (fun r c => (rasterio_transform_xy transform r c).1))
               rows_grid cols_grid).
  set (ys := zip_with (zip_with (fun r c => (rasterio_transform_xy transform r c).2))
               rows_grid cols_grid).
  assert (Hxs : has_shape xs rows cols) by (apply zip_with_shape; assumption).
  assert (Hys : has_shape ys rows cols) by (apply zip_with_shape; assumption).
  assert (Hfull : has_shape (np_full rows cols 2) rows cols) by (apply np_full_shape; lia).
  eexists _, slope. split; [reflexivity|]. split; [reflexivity|]. split.
  { repeat (apply setitem_mask_shape || apply water_bodies_shape || apply towns_shape
            || apply zip_with_shape || apply map_shape); assumption. }
  intros r c Hr Hc.
  destruct (proj2 (cell_is_Some elevation rows cols r c Hs (proj1 Hr) (proj1 Hc)))
    as [e He]; [lia|].
  destruct (proj2 (cell_is_Some slope rows cols r c Hslope (proj1 Hr) (proj1 Hc)))
    as [s Hsl]; [lia|].
  destruct (proj2 (cell_is_Some _ rows cols r c Hfull (proj1 Hr) (proj1 Hc)))
    as [f0 Hf0]; [lia|].
  pose proof (cell_np_full _ _ _ _ _ _ Hf0) as ->.
  destruct (Hmesh r c Hr Hc) as [Hcgc Hrgc].
  rewrite (lookup_seqZ_lt 0 cols (Z.to_nat c)) in Hcgc by lia.
  rewrite (lookup_seqZ_lt 0 rows (Z.to_nat r)) in Hrgc by lia.
  rewrite Z.add_0_l, Z2Nat.id in Hcgc, Hrgc by lia.
  set (x := (rasterio_transform_xy transform r c).1).
  set (y := (rasterio_transform_xy transform r c).2).
  assert (Hx : cell xs r c = Some x).
  { unfold xs. rewrite cell_zip_with, Hrgc, Hcgc. reflexivity. }
  assert (Hy : cell ys r c = Some y).
  { unfold ys. rewrite cell_zip_with, Hrgc, Hcgc. reflexivity. }
  exists e, s. split; [exact He|]. split; [exact Hsl|].
  rewrite !cell_setitem_mask.
  rewrite (cell_water_bodies xs ys r c x y Hx Hy data_loader.WATER_BODIES _
             (if existsb (fun '(name, (tx, ty)) =>
                            within tx ty (data_loader.town_radius name) x y)
                   data_loader.TOWNS
              then 0 else if Qltb e 200 || (Qltb s 2.0 && Qltb e 400) then 1 else 2)).
  2:{ rewrite (cell_towns xs ys r c x y Hx Hy data_loader.TOWNS _
                 (if Qltb e 200 || (Qltb s 2.0 && Qltb e 400) then 1 else 2)).
      - reflexivity.
      - rewrite cell_setitem_mask, Hf0, !cell_zip_with, !cell_map, He, Hsl. reflexivity. }
  rewrite !cell_zip_with, !cell_map, Hx, Hy, He.
  cbn [fmap option_fmap option_map mbind option_bind].
  unfold fuel_of.
  destruct (Qleb e 0); [reflexivity|].
  destruct (Qltb 146.0 x && Qltb (-37.5) y && Qltb 400 e); [reflexivity|].
  destruct (Qltb (-36.0) y && Qltb x 144.0); reflexivity.
Qed.

Lemma fuel_map_layers_witness :
  exists fuel_map slope,
    data_loader.generate_fuel_map (fun q => q) [[0; 100]; [500; 300]]%Q
      {| af_a := 0.01; af_b := 0; af_c := 144; af_d := 0; af_e := -0.01; af_f := -37 |}
    = Ok fuel_map
    /\ data_loader.slope (fun q => q) [[0; 100]; [500; 300]]%Q = Ok slope
    /\ has_shape fuel_map 2 2
    /\ forall r c, 0 <= r < 2 -> 0 <= c < 2 ->
         exists e s, cell [[0; 100]; [500; 300]]%Q r c = Some e /\ cell slope r c = Some s
           /\ cell fuel_map r c
              = Some (fuel_of e s
                        (rasterio_transform_xy
                           {| af_a := 0.01; af_b := 0; af_c := 144;
                              af_d := 0; af_e := -0.01; af_f := -37 |} r c).1
                        (rasterio_transform_xy
                           {| af_a := 0.01; af_b := 0; af_c := 144;
                              af_d := 0; af_e := -0.01; af_f := -37 |} r c).2).
Proof.
  apply (fuel_map_layers (fun q => q) [[0; 100]; [500; 300]]%Q
           {| af_a := 0.01; af_b := 0; af_c := 144; af_d := 0; af_e := -0.01; af_f := -37 |}
           2 2).
  split; [reflexivity | repeat constructor].
Defined.

(** ** The times of the frames *)

Lemma inject_Z_lt_mult (a b : Z) (s : Q) :
  (0 < s)%Q -> (inject_Z a * s < inject_Z b * s)%Q -> a < b.
Proof.
  intros Hs H. destruct (Z.lt_ge_cases a b) as [Hlt|Hge]; [exact Hlt|].
  exfalso. rewrite Zle_Qle in Hge. nra.
Qed.

Lemma getitem1_last {A} (l : list A) (x : A) :
  getitem1 (l ++ [x]) (-1) = Ok x.
Proof.
  unfold getitem1, py_index. rewrite length_app. simpl.
  destruct (Z.leb_spec 0 (-1)); [lia|].
  destruct (Z.leb_spec (- Z.of_nat (length l + 1)) (-1)); [|lia]. simpl.
  replace (Z.to_nat (-1 + Z.of_nat (length l + 1))) with (length l + 0)%nat by lia.
  rewrite lookup_app_r by lia. replace (length l + 0 - length l)%nat with O by lia.
  reflexivity.
Qed.

Lemma seqZ_snoc (n : Z) : 0 <= n -> seqZ 0 (n + 1) = seqZ 0 n ++ [n].
Proof.
  intros Hn. rewrite seqZ_app by lia. f_equal.
Qed.

(** The trimmed [np.arange(0, max_time + 0.1, step)]: the multiples of the
    step up to the last one within [max_time]. *)
Lemma arange_trimmed (M s : Q) :
  (0 <= M)%Q -> (0.1 <= s)%Q ->
  exists last,
    getitem1 (np_arange 0 (M + 0.1) s) (-1) = Ok last
    /\ (if Qltb M last then removelast (np_arange 0 (M + 0.1) s)
        else np_arange 0 (M + 0.1) s)
       = (fun i => (0 + inject_Z i * s)%Q) <$> seqZ 0 (Qfloor (M / s) + 1).
Proof.
  intros HM Hs. unfold np_arange.
  assert (Hs0 : (0 < s)%Q) by lra.
  assert (Hsne : ~ (s == 0)%Q) by lra.
  set (k := Qfloor (M / s)). set (n := Qceiling ((M + 0.1 - 0) / s)).
  pose proof (Qmult_div_r M s Hsne) as Hq.
  pose proof (Qmult_div_r (M + 0.1 - 0) s Hsne) as Hv.
  pose proof (Qfloor_le (M / s)) as Hk1. pose proof (Qlt_floor (M / s)) as Hk2.
  pose proof (Qle_ceiling ((M + 0.1 - 0) / s)) as Hn1.
  pose proof (Qceiling_lt ((M + 0.1 - 0) / s)) as Hn2.
  fold k in Hk1, Hk2. fold n in Hn1, Hn2.
  rewrite inject_Z_plus in Hk2. change (inject_Z 1) with 1%Q in Hk2.
  unfold Z.sub in Hn2. rewrite inject_Z_plus in Hn2. change (inject_Z (-1)) with (-1)%Q in Hn2.
  assert (Eq : (M / s * s == M)%Q) by (rewrite Qmult_comm; exact Hq).
  assert (Ev : ((M + 0.1 - 0) / s * s == M + 0.1)%Q) by (rewrite Qmult_comm, Hv; lra).
  assert (Hks : (inject_Z k * s <= M)%Q).
  { rewrite <- Eq. apply Qmult_le_compat_r; [exact Hk1 | lra]. }
  assert (Hks' : (M < (inject_Z k + 1) * s)%Q).
  { rewrite <- Eq at 1. apply Qmult_lt_compat_r; [lra | exact Hk2]. }
  assert (Hns : (M + 0.1 <= inject_Z n * s)%Q).
  { rewrite <- Ev. apply Qmult_le_compat_r; [exact Hn1 | lra]. }
  assert (Hns' : ((inject_Z n + -1) * s < M + 0.1)%Q).
  { rewrite <- Ev. apply Qmult_lt_compat_r; [lra | exact Hn2]. }
  assert (Hk0 : 0 <= k).
  { apply Qfloor_ge. change (inject_Z 0) with 0%Q. apply Qle_shift_div_l; lra. }
  assert (Hlo : k < n).
  { apply (inject_Z_lt_mult k n s Hs0). lra. }
  assert (Hhi : n < k + 3).
  { apply (inject_Z_lt_mult n (k + 3) s Hs0). rewrite inject_Z_plus.
    change (inject_Z 3) with 3%Q. nra. }
  assert (Hcases : n = k + 1 \/ n = k + 2) by lia.
  destruct Hcases as [Hn|Hn]; rewrite Hn.
  - rewrite seqZ_snoc by lia. rewrite fmap_app. simpl.
    exists (0 + inject_Z k * s)%Q. split; [apply getitem1_last|].
    destruct (Qltb M (0 + inject_Z k * s)) eqn:Hlt; [|reflexivity].
    apply Qltb_lt in Hlt. lra.
  - replace (k + 2) with ((k + 1) + 1) by lia.
    rewrite (seqZ_snoc (k + 1)) by lia. rewrite fmap_app. simpl.
    exists (0 + inject_Z (k + 1) * s)%Q. split; [apply getitem1_last|].
    destruct (Qltb M (0 + inject_Z (k + 1) * s)) eqn:Hlt.
    + apply removelast_last.
    + apply Qltb_ge in Hlt. rewrite inject_Z_plus in Hlt.
      change (inject_Z 1) with 1%Q in Hlt. lra.
Qed.

(** X11: with a step of at least 0.1 minutes and an end time [max_time]
    that is not negative, the frames of [create_animation] are at the times
    [0, step, 2 step, ...] up to the last multiple of the step that does
    not exceed [max_time]; there is at least one frame. *)
Theorem time_steps_multiples (ignition_times : list (list time)) (frames : Z)
    (h : Q) (max_duration_hours : option Q) (M : Q) :
  visualizer.max_time ignition_times max_duration_hours = Ok M ->
  (0 <= M)%Q -> (0.1 <= h * 60)%Q ->
  visualizer.time_steps ignition_times frames (Some h) max_duration_hours
  = Ok ((fun i => (0 + inject_Z i * (h * 60))%Q) <$> seqZ 0 (Qfloor (M / (h * 60)) + 1)).
Proof.
  intros HM HM0 Hstep. unfold visualizer.time_steps. rewrite HM. bind_step.
  assert (Hh : Qeq_bool h 0 = false).
  { destruct (Qeq_bool h 0) eqn:E; [|reflexivity]. apply Qeq_bool_iff in E. lra. }
  unfold visualizer.truthy. rewrite Hh.
  destruct (arange_trimmed M (h * 60) HM0 Hstep) as (last & Hlast & Htrim).
  rewrite Hlast. bind_step. rewrite Htrim. reflexivity.
Qed.

Definition demo_field : list (list time) :=
  [[Finite 0; Finite 60; Infinity]; [Finite 60; Finite 500; Infinity]].

Lemma time_steps_multiples_witness :
  visualizer.time_steps demo_field 60 (Some 6%Q) (Some 336%Q)
  = Ok ((fun i => (0 + inject_Z i * (6 * 60))%Q) <$> seqZ 0 (Qfloor (500 / (6 * 60)) + 1)).
Proof.
  apply (time_steps_multiples demo_field 60 6 (Some 336%Q) 500).
  - reflexivity.
  - vm_compute. discriminate.
  - vm_compute. discriminate.
Defined.

(** ** A field without a time *)

Lemma finite_entries_unlit (a : list (list time)) :
  (forall r c t, cell a r c = Some t -> t = Infinity) ->
  visualizer.finite_entries a = [].
Proof.
  intros H. unfold visualizer.finite_entries.
  assert (Hall : Forall (fun t => t = Infinity) (concat a)).
  { apply Forall_concat. apply Forall_lookup. intros i row Hrow.
    apply Forall_lookup. intros j t Ht. apply (H (Z.of_nat i) (Z.of_nat j)).
    unfold cell. rewrite !Nat2Z.id, Hrow. exact Ht. }
  induction Hall as [|t l -> _ IH]; [reflexivity | exact IH].
Qed.

(** X12: when no cell holds a time below [np.inf] as [run_simulation] is
    called (no [ignite] took effect), the run returns that very field and
    the generator untouched; and on a map of at least two rows and two
    columns with a positive cell size, where the lines of
    [create_animation] before line 72 pass (the hillshade of line 19
    needs two entries along each axis, line 55 divides by the cell size),
    [create_animation] raises [ValueError] on that field at
    [np.max(ignition_times[ignition_times != np.inf])]. *)
Theorem unlit_field_has_no_frames {G} (R : Generator G) (L : Libm) (self : FireModel)
    (max_time : time) (g : G) (frames : Z) (time_step_hours max_duration_hours : option Q) :
  wf_model self -> 2 <= rows self -> 2 <= cols self -> (0 < cell_size self)%Q ->
  (forall r c t, cell (ignition_time self) r c = Some t -> t = Infinity) ->
  run_simulation R L self max_time g = Some (Ok (ignition_time self, g))
  /\ visualizer.time_steps (ignition_time self) frames time_step_hours max_duration_hours
     = Raise ValueError.
Proof.
  intros _ _ _ _ Hunlit. split.
  - apply run_without_seeds. exact Hunlit.
  - unfold visualizer.time_steps, visualizer.max_time.
    rewrite (finite_entries_unlit _ Hunlit). reflexivity.
Qed.

Lemma unlit_field_has_no_frames_witness :
  run_simulation scripted rational_libm isotropic_grid (Finite 1000) []
  = Some (Ok (ignition_time isotropic_grid, []))
  /\ visualizer.time_steps (ignition_time isotropic_grid) 60 (Some 6%Q) (Some 336%Q)
     = Raise ValueError.
Proof.
  apply (unlit_field_has_no_frames scripted rational_libm isotropic_grid (Finite 1000) []
           60 (Some 6%Q) (Some 336%Q)).
  - apply init_wf. split; (split; [reflexivity | repeat constructor]).
  - simpl. lia.
  - simpl. lia.
  - reflexivity.
  - intros r c t Ht. apply (cell_np_full _ _ _ _ _ _ Ht).
Defined.

(** ** The statistics of a frame *)

Lemma count_zip_le (f : bool -> bool -> bool) (a b : list (list bool)) :
  (forall x y, f x y = true -> x = true) ->
  visualizer.count (zip_with (zip_with f) a b) <= visualizer.count a.
Proof.
  intros Hf. unfold visualizer.count. apply inj_le.
  revert b. induction a as [|row a IH]; intros [|row' b]; simpl; try lia.
  rewrite !filter_app, !length_app. specialize (IH b).
  assert (Hrow : (length (filter (fun b0 => b0 = true) (zip_with f row row'))
                  <= length (filter (fun b0 => b0 = true) row))%nat).
  { clear -Hf. revert row'. induction row as [|x row IH]; intros [|y row']; simpl; try lia.
    specialize (IH row'). rewrite !filter_cons.
    destruct (decide (f x y = true)) as [Hxy|Hxy].
    - rewrite (Hf _ _ Hxy). destruct (decide (true = true)); [simpl; lia | congruence].
    - destruct (decide (x = true)); simpl; lia. }
  lia.
Qed.

(** X13: the statistics [update] shows for a frame at time [t]: the
    clock is [t] cut into whole days and whole hours below 24, and the
    active area is at most the burnt area, neither negative. *)
Theorem update_statistics (rows cols : Z) (ignition_times : list (list time))
    (cell_size : Q) (time_steps : list Q) (frame_idx : Z) (f : visualizer.frame) :
  visualizer.update rows cols ignition_times cell_size time_steps frame_idx = Ok f ->
  exists t, getitem1 time_steps frame_idx = Ok t
    /\ 0 <= visualizer.hours f < 24
    /\ (inject_Z (visualizer.days f * 1440 + visualizer.hours f * 60) <= t)%Q
    /\ (t < inject_Z (visualizer.days f * 1440 + visualizer.hours f * 60 + 60))%Q
    /\ (0 <= visualizer.active_ha f)%Q
    /\ (visualizer.active_ha f <= visualizer.total_ha f)%Q.
Proof.
  unfold visualizer.update.
  destruct (getitem1 time_steps frame_idx) as [t|] eqn:Ht; bind_step;
    [|discriminate].
  destruct (negb _); [discriminate|]. intros Hf.
  apply (f_equal (fun x => match x with Ok y => y | Raise _ => f end)) in Hf.
  cbv beta iota in Hf. subst f.
  cbn [visualizer.days visualizer.hours visualizer.total_ha visualizer.active_ha].
  exists t. split; [reflexivity|].
  set (d := Qfloor (t / (24 * 60))).
  set (rem := ((t - inject_Z d * (24 * 60)) / 60)%Q).
  pose proof (Qfloor_le (t / (24 * 60))) as Hd1.
  pose proof (Qlt_floor (t / (24 * 60))) as Hd2. fold d in Hd1, Hd2.
  rewrite inject_Z_plus in Hd2. change (inject_Z 1) with 1%Q in Hd2.
  assert (Hrem : (0 <= rem /\ rem < 24)%Q).
  { assert (Et : (t / (24 * 60) * (24 * 60) == t)%Q) by (field; discriminate).
    assert (Hlo : (inject_Z d * (24 * 60) <= t / (24 * 60) * (24 * 60))%Q)
      by (apply Qmult_le_compat_r; [exact Hd1 | discriminate]).
    assert (Hhi : (t / (24 * 60) * (24 * 60) < (inject_Z d + 1) * (24 * 60))%Q)
      by (apply Qmult_lt_compat_r; [reflexivity | exact Hd2]).
    rewrite Et in Hlo, Hhi.
    unfold rem. split.
    - apply Qle_shift_div_l; [reflexivity|]. lra.
    - apply Qlt_shift_div_r; [reflexivity|]. lra. }
  destruct Hrem as [Hr0 Hr24].
  rewrite (py_int_nonneg rem Hr0).
  pose proof (Qfloor_le rem) as Hh1. pose proof (Qlt_floor rem) as Hh2.
  rewrite inject_Z_plus in Hh2. change (inject_Z 1) with 1%Q in Hh2.
  assert (Hh0 : 0 <= Qfloor rem) by (apply Qfloor_ge; exact Hr0).
  assert (Hh24 : Qfloor rem < 24) by (apply Qfloor_lt; exact Hr24).
  assert (Hremeq : (rem * 60 == t - inject_Z d * (24 * 60))%Q).
  { unfold rem. field. }
  split; [lia|].
  rewrite !inject_Z_plus, !inject_Z_mult.
  change (inject_Z 1440) with 1440%Q. change (inject_Z 60) with 60%Q.
  split; [lra|]. split; [lra|].
  assert (Harea : (0 <= cell_size ^ 2 / 10000.0)%Q).
  { apply Qle_shift_div_l; [reflexivity|]. simpl. nra. }
  split.
  - apply Qmult_le_0_compat; [|exact Harea].
    change 0%Q with (inject_Z 0). rewrite <- Zle_Qle. unfold visualizer.count. lia.
  - apply Qmult_le_compat_r; [|exact Harea]. rewrite <- Zle_Qle.
    apply count_zip_le. intros x y Hxy. apply andb_true_iff in Hxy. tauto.
Qed.

Lemma update_statistics_witness :
  match visualizer.update 2 3 demo_field 30 [0; 60; 360; 1500]%Q 3 with
  | Ok f =>
      exists t, getitem1 [0; 60; 360; 1500]%Q 3 = Ok t
        /\ 0 <= visualizer.hours f < 24
        /\ (inject_Z (visualizer.days f * 1440 + visualizer.hours f * 60) <= t)%Q
        /\ (t < inject_Z (visualizer.days f * 1440 + visualizer.hours f * 60 + 60))%Q
        /\ (0 <= visualizer.active_ha f)%Q
        /\ (visualizer.active_ha f <= visualizer.total_ha f)%Q
  | Raise _ => False
  end.
Proof.
  destruct (visualizer.update 2 3 demo_field 30 [0; 60; 360; 1500]%Q 3) as [f|e] eqn:Hup.
  - exact (update_statistics 2 3 demo_field 30 [0; 60; 360; 1500]%Q 3 f Hup).
  - vm_compute in Hup. discriminate Hup.
Defined.

(** ** The picture of a frame *)

Lemma Qleb_le (a b : Q) : Qleb a b = true <-> (a <= b)%Q.
Proof.
  unfold Qleb. rewrite negb_true_iff. apply Qltb_ge.
Qed.

Lemma time_leb_le (t : time) (x : Q) :
  visualizer.time_leb t x = true <-> time_le t (Finite x).
Proof.
  destruct t as [q|]; simpl; [apply Qleb_le|]. split; [discriminate | contradiction].
Qed.

Lemma count_map_le {A} (p p' : A -> bool) (a : list (list A)) :
  (forall x, p x = true -> p' x = true) ->
  visualizer.count (map (map p) a) <= visualizer.count (map (map p') a).
Proof.
  intros Hp. unfold visualizer.count. apply inj_le.
  induction a as [|row a IH]; [reflexivity|].
  cbn [map concat]. rewrite !filter_app, !length_app.
  assert (Hrow : (length (filter (fun b => b = true) (map p row))
                  <= length (filter (fun b => b = true) (map p' row)))%nat).
  { clear -Hp. induction row as [|x row IH]; [reflexivity|].
    cbn [map]. rewrite !filter_cons. specialize (Hp x).
    destruct (p x); [rewrite Hp by reflexivity|];
      repeat case_decide; simpl; try congruence; lia. }
  lia.
Qed.

(** X20: the burnt area shown never shrinks from a frame to a later one:
    if the time of frame [i] is at most the time of frame [j], the total
    of frame [i] is at most the total of frame [j]. *)
Theorem burnt_area_grows (rows cols : Z) (ignition_times : list (list time))
    (cell_size : Q) (time_steps : list Q) (i j : Z) (ti tj : Q)
    (fi fj : visualizer.frame) :
  visualizer.update rows cols ignition_times cell_size time_steps i = Ok fi ->
  visualizer.update rows cols ignition_times cell_size time_steps j = Ok fj ->
  getitem1 time_steps i = Ok ti -> getitem1 time_steps j = Ok tj ->
  (ti <= tj)%Q ->
  (visualizer.total_ha fi <= visualizer.total_ha fj)%Q.
Proof.
  unfold visualizer.update. intros Hi Hj Hti Htj Hle. rewrite Hti in Hi. rewrite Htj in Hj.
  revert Hi Hj. bind_step.
  destruct (negb _); [discriminate|]. intros Hi Hj.
  apply (f_equal (fun x => match x with Ok y => y | Raise _ => fi end)) in Hi.
  apply (f_equal (fun x => match x with Ok y => y | Raise _ => fj end)) in Hj.
  cbv beta iota in Hi, Hj. subst fi fj. cbn [visualizer.total_ha].
  apply Qmult_le_compat_r.
  - rewrite <- Zle_Qle. apply count_map_le. intros t Ht.
    apply time_leb_le. apply time_leb_le in Ht.
    eapply time_le_trans; [exact Ht | exact Hle].
  - apply Qle_shift_div_l; [reflexivity|]. simpl. nra.
Qed.

Lemma burnt_area_grows_witness :
  match visualizer.update 2 3 demo_field 30 [0; 60; 360; 1500]%Q 1,
        visualizer.update 2 3 demo_field 30 [0; 60; 360; 1500]%Q 3 with
  | Ok fi, Ok fj => (visualizer.total_ha fi <= visualizer.total_ha fj)%Q
  | _, _ => False
  end.
Proof.
  destruct (visualizer.update 2 3 demo_field 30 [0; 60; 360; 1500]%Q 1) as [fi|e] eqn:Hi;
    [|vm_compute in Hi; discriminate Hi].
  destruct (visualizer.update 2 3 demo_field 30 [0; 60; 360; 1500]%Q 3) as [fj|e] eqn:Hj;
    [|vm_compute in Hj; discriminate Hj].
  apply (burnt_area_grows 2 3 demo_field 30 [0; 60; 360; 1500]%Q 1 3 60 1500 fi fj Hi Hj).
  - reflexivity.
  - reflexivity.
  - vm_compute. discriminate.
Defined.

(** X21: the colour [update] gives a cell of the overlay at frame time
    [t], from the time [tau] the cell holds: black at opacity 0.6 when
    [tau <= t - 300], red when [t - 300 < tau <= t] (the five hours after
    ignition), and fully transparent when [tau] is later than [t] or
    [np.inf]. *)
Theorem overlay_colours (rows cols : Z) (ignition_times : list (list time))
    (cell_size : Q) (time_steps : list Q) (frame_idx : Z) (f : visualizer.frame)
    (r c : Z) (tau : time) :
  visualizer.update rows cols ignition_times cell_size time_steps frame_idx = Ok f ->
  0 <= r -> 0 <= c ->
  cell ignition_times r c = Some tau ->
  exists t colour,
    getitem1 time_steps frame_idx = Ok t
    /\ cell (visualizer.overlay f) r c = Some colour
    /\ (time_le tau (Finite (t - 5 * 60)) -> colour = (0.0, 0.0, 0.0, 0.6)%Q)
    /\ (time_lt (Finite (t - 5 * 60)) tau -> time_le tau (Finite t) ->
        colour = (1.0, 0.0, 0.0, 1.0)%Q)
    /\ (time_lt (Finite t) tau -> colour = (0.0, 0.0, 0.0, 0.0)%Q).
Proof.
  unfold visualizer.update. intros Hup Hr Hc Htau.
  destruct (getitem1 time_steps frame_idx) as [t|]; [|discriminate Hup].
  revert Hup. bind_step.
  destruct (negb _) eqn:Hshape; [discriminate|]. intros Hup.
  apply (f_equal (fun x => match x with Ok y => y | Raise _ => f end)) in Hup.
  cbv beta iota in Hup. subst f. cbn [visualizer.overlay].
  apply negb_false_iff, andb_true_iff in Hshape as [Hrows Hcols].
  assert (Hs : has_shape ignition_times rows cols).
  { split; [apply Z.eqb_eq; exact Hrows|].
    apply Forall_forall. intros row Hrow. rewrite forallb_forall in Hcols.
    apply Z.eqb_eq. apply Hcols. apply list_elem_of_In. exact Hrow. }
  assert (Hin : r < rows /\ c < cols).
  { apply (cell_is_Some ignition_times rows cols r c Hs Hr Hc). rewrite Htau. eauto. }
  assert (Hrows0 : 0 <= rows) by (destruct Hs as [<- _]; lia).
  assert (Hcols0 : 0 <= cols) by lia.
  destruct (proj2 (cell_is_Some (np_full rows cols (0.0, 0.0, 0.0, 0.0)%Q) rows cols r c
                     (np_full_shape rows cols _ Hrows0 Hcols0) Hr Hc) Hin) as [z Hz].
  pose proof (cell_np_full _ _ _ _ _ _ Hz) as ->.
  eexists t, _. split; [reflexivity|]. split.
  { rewrite !cell_setitem_mask, Hz, !cell_zip_with, !cell_map, Htau. reflexivity. }
  assert (Hwin : time_le tau (Finite (t - 5 * 60)) -> time_le tau (Finite t)).
  { intros H. eapply time_le_trans; [exact H|]. simpl. lra. }
  destruct (visualizer.time_leb tau (t - 5 * 60)) eqn:Eb;
    destruct (visualizer.time_leb tau t) eqn:Ei; simpl.
  - apply time_leb_le in Eb. split; [reflexivity|].
    split; [intros H; exfalso; exact (H Eb) | intros H; exfalso; exact (H (Hwin Eb))].
  - apply time_leb_le in Eb. apply Hwin, time_leb_le in Eb. congruence.
  - apply time_leb_le in Ei. apply not_true_iff_false in Eb. rewrite time_leb_le in Eb.
    split; [intros H; contradiction|].
    split; [reflexivity | intros H; exfalso; exact (H Ei)].
  - apply not_true_iff_false in Ei. rewrite time_leb_le in Ei.
    split; [intros H; exfalso; exact (Ei (Hwin H))|].
    split; [intros _ H; contradiction | reflexivity].
Qed.

Lemma overlay_colours_witness :
  match visualizer.update 2 3 demo_field 30 [0; 60; 360; 1500]%Q 2 with
  | Ok f =>
      exists t colour,
        getitem1 [0; 60; 360; 1500]%Q 2 = Ok t
        /\ cell (visualizer.overlay f) 0 1 = Some colour
        /\ (time_le (Finite 60) (Finite (t - 5 * 60)) -> colour = (0.0, 0.0, 0.0, 0.6)%Q)
        /\ (time_lt (Finite (t - 5 * 60)) (Finite 60) -> time_le (Finite 60) (Finite t) ->
            colour = (1.0, 0.0, 0.0, 1.0)%Q)
        /\ (time_lt (Finite t) (Finite 60) -> colour = (0.0, 0.0, 0.0, 0.0)%Q)
  | Raise _ => False
  end.
Proof.
  destruct (visualizer.update 2 3 demo_field 30 [0; 60; 360; 1500]%Q 2) as [f|e] eqn:Hup.
  - apply (overlay_colours 2 3 demo_field 30 [0; 60; 360; 1500]%Q 2 f 0 1 (Finite 60) Hup);
      [lia | lia | reflexivity].
  - vm_compute in Hup. discriminate Hup.
Defined.

(** ** The perimeter of a frame *)

(** Whether the cell [(r, c)] of a mask is set; a cell outside the array
    is not. *)
Definition mask_at (a : list (list bool)) (r c : Z) : bool :=
  if (0 <=? r) && (0 <=? c) then default false (cell a r c) else false.

(** The number of the four sides of the cell [(r, c)] beyond which the
    mask is not set. *)
Definition exposed_sides (a : list (list bool)) (r c : Z) : Z :=
  Z.b2z (negb (mask_at a (r - 1) c)) + Z.b2z (negb (mask_at a (r + 1) c))
  + Z.b2z (negb (mask_at a r (c - 1))) + Z.b2z (negb (mask_at a r (c + 1))).

(** The sum of [f i] for [i] in [l]. *)
Definition sum_over (l : list Z) (f : Z -> Z) : Z := foldr Z.add 0 (f <$> l).

Lemma sum_over_nil (f : Z -> Z) : sum_over [] f = 0.
Proof. reflexivity. Qed.

Lemma sum_over_cons (x : Z) (l : list Z) (f : Z -> Z) :
  sum_over (x :: l) f = f x + sum_over l f.
Proof. reflexivity. Qed.

Lemma sum_over_app (l l' : list Z) (f : Z -> Z) :
  sum_over (l ++ l') f = sum_over l f + sum_over l' f.
Proof.
  induction l as [|x l IH]; [reflexivity|].
  rewrite <- app_comm_cons, !sum_over_cons, IH. lia.
Qed.

Lemma sum_over_ext (l : list Z) (f f' : Z -> Z) :
  (forall i, i ∈ l -> f i = f' i) -> sum_over l f = sum_over l f'.
Proof.
  induction l as [|x l IH]; intros H; [reflexivity|].
  rewrite !sum_over_cons, (H x) by left. rewrite IH; [reflexivity|].
  intros i Hi. apply H. right. exact Hi.
Qed.

Lemma sum_over_add (l : list Z) (f f' : Z -> Z) :
  sum_over l (fun i => f i + f' i) = sum_over l f + sum_over l f'.
Proof.
  induction l as [|x l IH]; [reflexivity|].
  rewrite !sum_over_cons, IH. lia.
Qed.

Lemma sum_over_zero (l : list Z) (f : Z -> Z) :
  (forall i, i ∈ l -> f i = 0) -> sum_over l f = 0.
Proof.
  induction l as [|x l IH]; intros H; [reflexivity|].
  rewrite sum_over_cons, (H x) by left. rewrite IH; [reflexivity|].
  intros i Hi. apply H. right. exact Hi.
Qed.

Lemma sum_over_swap (l l' : list Z) (f : Z -> Z -> Z) :
  sum_over l (fun i => sum_over l' (fun j => f i j))
  = sum_over l' (fun j => sum_over l (fun i => f i j)).
Proof.
  induction l as [|x l IH].
  - symmetry. apply sum_over_zero. reflexivity.
  - rewrite sum_over_cons, IH, <- sum_over_add. reflexivity.
Qed.

Lemma sum_over_fmap (l : list Z) (k f : Z -> Z) :
  sum_over (k <$> l) f = sum_over l (fun i => f (k i)).
Proof. unfold sum_over. rewrite <- list_fmap_compose. reflexivity. Qed.

Lemma seqZ_head (n : Z) : 0 <= n -> seqZ 0 (n + 1) = 0 :: (Z.add 1 <$> seqZ 0 n).
Proof.
  intros Hn. rewrite seqZ_cons by lia. rewrite fmap_add_seqZ.
  f_equal. f_equal; lia.
Qed.

Lemma sum_over_snoc (n : Z) (f : Z -> Z) :
  0 <= n -> sum_over (seqZ 0 (n + 1)) f = sum_over (seqZ 0 n) f + f n.
Proof.
  intros Hn. rewrite seqZ_snoc by lia.
  rewrite sum_over_app, sum_over_cons, sum_over_nil. lia.
Qed.

Lemma sum_over_head (n : Z) (f : Z -> Z) :
  0 <= n -> sum_over (seqZ 0 (n + 1)) f = f 0 + sum_over (seqZ 0 n) (fun i => f (1 + i)).
Proof.
  intros Hn. rewrite seqZ_head by lia.
  rewrite sum_over_cons, sum_over_fmap. reflexivity.
Qed.

(** The changes along a line of zeros and ones, counted at the ones. *)
Lemma jumps_along (h : Z -> Z) (n : Z) :
  (forall i, h i = 0 \/ h i = 1) -> 0 <= n ->
  sum_over (seqZ 0 (n + 1)) (fun j => Z.abs (h (1 + j) - h j))
  = sum_over (seqZ 0 n) (fun j => h (1 + j) * ((1 - h j) + (1 - h (2 + j))))
    + h 0 * (1 - h 1) + h (1 + n) * (1 - h n).
Proof.
  intros Hh Hn. revert n Hn. apply natlike_ind.
  - change (seqZ 0 (0 + 1)) with [0]. change (seqZ 0 0) with (@nil Z).
    rewrite sum_over_cons, !sum_over_nil. change (1 + 0) with 1.
    destruct (Hh 0) as [-> | ->], (Hh 1) as [-> | ->]; reflexivity.
  - intros n Hn IH. unfold Z.succ.
    rewrite (sum_over_snoc (n + 1)) by lia. rewrite IH.
    rewrite (sum_over_snoc n) by lia.
    replace (1 + (n + 1)) with (2 + n) by lia.
    replace (n + 1) with (1 + n) by lia.
    destruct (Hh n) as [-> | ->], (Hh (1 + n)) as [-> | ->], (Hh (2 + n)) as [-> | ->];
      simpl; lia.
Qed.

Lemma diff_fmap (h : Z -> Z) (lo : Z) (n : nat) :
  diff (h <$> seqZ lo (Z.of_nat n + 1))
  = (fun j => h (1 + j) - h j) <$> seqZ lo (Z.of_nat n).
Proof.
  revert lo. induction n as [|n IH]; intros lo.
  - rewrite seqZ_cons by lia. reflexivity.
  - rewrite (seqZ_cons lo (Z.of_nat (S n) + 1)) by lia.
    rewrite (seqZ_cons lo (Z.of_nat (S n))) by lia.
    replace (Z.pred (Z.of_nat (S n) + 1)) with (Z.of_nat n + 1) by lia.
    replace (Z.pred (Z.of_nat (S n))) with (Z.of_nat n) by lia.
    rewrite !fmap_cons, <- IH.
    rewrite (seqZ_cons (Z.succ lo) (Z.of_nat n + 1)) by lia.
    rewrite !fmap_cons. replace (Z.succ lo) with (1 + lo) by lia. reflexivity.
Qed.

Lemma zip_with_fmap_same {A B C D} (f : B -> C -> D) (u : A -> B) (v : A -> C)
    (l : list A) :
  zip_with f (u <$> l) (v <$> l) = (fun x => f (u x) (v x)) <$> l.
Proof.
  induction l as [|x l IH]; [reflexivity|].
  rewrite !fmap_cons. cbn [zip_with]. rewrite IH. reflexivity.
Qed.

Lemma np_diff0_fmap (h : Z -> Z -> Z) (l : list Z) (lo : Z) (n : nat) :
  np_diff0 ((fun i => h i <$> l) <$> seqZ lo (Z.of_nat n + 1))
  = (fun i => (fun j => h (1 + i) j - h i j) <$> l) <$> seqZ lo (Z.of_nat n).
Proof.
  revert lo. induction n as [|n IH]; intros lo.
  - rewrite seqZ_cons by lia. reflexivity.
  - rewrite (seqZ_cons lo (Z.of_nat (S n) + 1)) by lia.
    rewrite (seqZ_cons lo (Z.of_nat (S n))) by lia.
    replace (Z.pred (Z.of_nat (S n) + 1)) with (Z.of_nat n + 1) by lia.
    replace (Z.pred (Z.of_nat (S n))) with (Z.of_nat n) by lia.
    rewrite !fmap_cons, <- IH.
    rewrite (seqZ_cons (Z.succ lo) (Z.of_nat n + 1)) by lia.
    rewrite !fmap_cons. replace (Z.succ lo) with (1 + lo) by lia.
    cbn [np_diff0]. rewrite zip_with_fmap_same. reflexivity.
Qed.

Lemma foldr_add_acc (l : list Z) (z : Z) : foldr Z.add z l = foldr Z.add 0 l + z.
Proof. induction l as [|x l IH]; cbn [foldr]; [|rewrite IH]; lia. Qed.

Lemma np_sum_cons (row : list Z) (a : list (list Z)) :
  np_sum (row :: a) = foldr Z.add 0 row + np_sum a.
Proof.
  unfold np_sum. cbn [concat]. rewrite foldr_app.
  apply foldr_add_acc.
Qed.

Lemma np_sum_fmap (F : Z -> Z -> Z) (l l' : list Z) :
  np_sum (np_abs ((fun i => F i <$> l') <$> l))
  = sum_over l (fun i => sum_over l' (fun j => Z.abs (F i j))).
Proof.
  induction l as [|x l IH]; [reflexivity|].
  rewrite sum_over_cons, <- IH.
  change (np_abs ((fun i => F i <$> l') <$> x :: l))
    with ((Z.abs <$> (F x <$> l')) :: np_abs ((fun i => F i <$> l') <$> l)).
  rewrite np_sum_cons, <- list_fmap_compose. reflexivity.
Qed.

Lemma fmap_zero {A} (f : A -> Z) (l : list A) :
  (forall x, x ∈ l -> f x = 0) -> f <$> l = replicate (length l) 0.
Proof.
  induction l as [|x l IH]; intros H; [reflexivity|].
  rewrite fmap_cons, (H x) by left. rewrite IH; [reflexivity|].
  intros y Hy. apply H. right. exact Hy.
Qed.

Section Grid.

Variable g : Z -> Z -> Z.
Variables rows cols : Z.
Hypothesis g_bit : forall r c, g r c = 0 \/ g r c = 1.
Hypothesis g_outside : forall r c, ~ (0 <= r < rows /\ 0 <= c < cols) -> g r c = 0.
Hypothesis rows_pos : 0 < rows.
Hypothesis cols_nonneg : 0 <= cols.

Let G (i j : Z) : Z := g (i - 1) (j - 1).

Lemma padded_grid :
  np_pad ((fun r => g r <$> seqZ 0 cols) <$> seqZ 0 rows)
  = (fun i => G i <$> seqZ 0 (cols + 2)) <$> seqZ 0 (rows + 2).
Proof.
  unfold np_pad.
  assert (Hw : (shape ((fun r => g r <$> seqZ 0 cols) <$> seqZ 0 rows)).2 = cols).
  { unfold shape. simpl. rewrite (seqZ_cons 0 rows) by lia. simpl.
    rewrite length_fmap, length_seqZ. lia. }
  rewrite Hw.
  assert (Hborder : forall i, ~ (0 <= i - 1 < rows) ->
            G i <$> seqZ 0 (cols + 2) = replicate (Z.to_nat (cols + 2)) 0).
  { intros i Hi. rewrite fmap_zero.
    - rewrite length_seqZ. reflexivity.
    - intros j _. apply g_outside. lia. }
  replace (rows + 2) with ((rows + 1) + 1) by lia.
  rewrite (seqZ_snoc (rows + 1)) by lia. rewrite (seqZ_head rows) by lia.
  rewrite fmap_app, fmap_cons. simpl.
  rewrite (Hborder 0) by lia. rewrite (Hborder (rows + 1)) by lia.
  f_equal. f_equal.
  rewrite <- !list_fmap_compose. apply list_fmap_ext. intros _ r _. simpl.
  replace (cols + 2) with ((cols + 1) + 1) by lia.
  rewrite (seqZ_snoc (cols + 1)) by lia. rewrite (seqZ_head cols) by lia.
  rewrite fmap_app, fmap_cons. simpl.
  unfold G at 1. rewrite (g_outside (1 + r - 1) (0 - 1)) by lia.
  unfold G at 2. rewrite (g_outside (1 + r - 1) (cols + 1 - 1)) by lia.
  f_equal. f_equal.
  rewrite <- list_fmap_compose. apply list_fmap_ext. intros _ c _. simpl.
  unfold G. f_equal; lia.
Qed.

Lemma grid_jumps_in_rows :
  np_sum (np_abs (np_diff1
    (np_pad ((fun r => g r <$> seqZ 0 cols) <$> seqZ 0 rows))))
  = sum_over (seqZ 0 rows) (fun r => sum_over (seqZ 0 cols) (fun c =>
      g r c * ((1 - g r (c - 1)) + (1 - g r (c + 1))))).
Proof.
  rewrite padded_grid. unfold np_diff1.
  change (map diff ((fun i => G i <$> seqZ 0 (cols + 2)) <$> seqZ 0 (rows + 2)))
    with (diff <$> ((fun i => G i <$> seqZ 0 (cols + 2)) <$> seqZ 0 (rows + 2))).
  rewrite <- list_fmap_compose.
  rewrite (list_fmap_ext _ (fun i => (fun j => G i (1 + j) - G i j) <$> seqZ 0 (cols + 1))).
  2:{ intros _ i _. simpl. replace (cols + 2) with (Z.of_nat (Z.to_nat (cols + 1)) + 1) by lia.
      rewrite diff_fmap. rewrite Z2Nat.id by lia. reflexivity. }
  rewrite (np_sum_fmap (fun i j => G i (1 + j) - G i j)).
  assert (Hrow : forall i, sum_over (seqZ 0 (cols + 1)) (fun j => Z.abs (G i (1 + j) - G i j))
            = sum_over (seqZ 0 cols) (fun c =>
                g (i - 1) c * ((1 - g (i - 1) (c - 1)) + (1 - g (i - 1) (c + 1))))).
  { intros i. rewrite (jumps_along (G i) cols) by (intros; apply g_bit) || exact cols_nonneg.
    unfold G. rewrite (g_outside (i - 1) (0 - 1)) by lia.
    rewrite (g_outside (i - 1) (1 + cols - 1)) by lia.
    rewrite !Z.mul_0_l, !Z.add_0_r. apply sum_over_ext. intros c _.
    replace (1 + c - 1) with c by lia. replace (2 + c - 1) with (c + 1) by lia.
    reflexivity. }
  rewrite (sum_over_ext _ _ _ (fun i _ => Hrow i)).
  replace (rows + 2) with ((rows + 1) + 1) by lia.
  rewrite (sum_over_snoc (rows + 1)) by lia. rewrite (sum_over_head rows) by lia.
  rewrite (sum_over_zero (seqZ 0 cols) (fun c => g (0 - 1) c * _)).
  2:{ intros c _. rewrite (g_outside (0 - 1) c) by lia. reflexivity. }
  rewrite (sum_over_zero (seqZ 0 cols) (fun c => g (rows + 1 - 1) c * _)).
  2:{ intros c _. rewrite (g_outside (rows + 1 - 1) c) by lia. reflexivity. }
  rewrite Z.add_0_l, Z.add_0_r. apply sum_over_ext. intros r _.
  replace (1 + r - 1) with r by lia. reflexivity.
Qed.

Lemma grid_jumps_in_columns :
  np_sum (np_abs (np_diff0
    (np_pad ((fun r => g r <$> seqZ 0 cols) <$> seqZ 0 rows))))
  = sum_over (seqZ 0 rows) (fun r => sum_over (seqZ 0 cols) (fun c =>
      g r c * ((1 - g (r - 1) c) + (1 - g (r + 1) c)))).
Proof.
  rewrite padded_grid.
  replace (rows + 2) with (Z.of_nat (Z.to_nat (rows + 1)) + 1) by lia.
  rewrite (np_diff0_fmap G). rewrite Z2Nat.id by lia.
  rewrite (np_sum_fmap (fun i j => G (1 + i) j - G i j)).
  rewrite sum_over_swap.
  assert (Hcol : forall j, sum_over (seqZ 0 (rows + 1)) (fun i => Z.abs (G (1 + i) j - G i j))
            = sum_over (seqZ 0 rows) (fun r =>
                g r (j - 1) * ((1 - g (r - 1) (j - 1)) + (1 - g (r + 1) (j - 1))))).
  { intros j. rewrite (jumps_along (fun i => G i j) rows) by (intros; apply g_bit) || lia.
    unfold G. rewrite (g_outside (0 - 1) (j - 1)) by lia.
    rewrite (g_outside (1 + rows - 1) (j - 1)) by lia.
    rewrite !Z.mul_0_l, !Z.add_0_r. apply sum_over_ext. intros r _.
    replace (1 + r - 1) with r by lia. replace (2 + r - 1) with (r + 1) by lia.
    reflexivity. }
  rewrite (sum_over_ext _ _ _ (fun j _ => Hcol j)).
  replace (cols + 2) with ((cols + 1) + 1) by lia.
  rewrite (sum_over_snoc (cols + 1)) by lia. rewrite (sum_over_head cols) by lia.
  rewrite (sum_over_zero (seqZ 0 rows) (fun r => g r (0 - 1) * _)).
  2:{ intros r _. rewrite (g_outside r (0 - 1)) by lia. reflexivity. }
  rewrite (sum_over_zero (seqZ 0 rows) (fun r => g r (cols + 1 - 1) * _)).
  2:{ intros r _. rewrite (g_outside r (cols + 1 - 1)) by lia. reflexivity. }
  rewrite Z.add_0_l, Z.add_0_r. rewrite sum_over_swap.
  apply sum_over_ext. intros r _. apply sum_over_ext. intros c _.
  replace (1 + c - 1) with c by lia. reflexivity.
Qed.

End Grid.

Lemma mask_at_outside (a : list (list bool)) (rows cols r c : Z) :
  has_shape a rows cols -> ~ (0 <= r < rows /\ 0 <= c < cols) -> mask_at a r c = false.
Proof.
  intros Hs Hout. unfold mask_at.
  destruct (Z.leb_spec 0 r); [|reflexivity].
  destruct (Z.leb_spec 0 c); [|reflexivity]. simpl.
  destruct (cell a r c) as [b|] eqn:Hc; [|reflexivity].
  exfalso. apply Hout.
  assert (Hsome : is_Some (cell a r c)) by (rewrite Hc; eauto).
  apply (cell_is_Some a rows cols r c Hs) in Hsome; lia.
Qed.

Lemma mask_as_grid (a : list (list bool)) (rows cols : Z) :
  has_shape a rows cols ->
  map (map (fun b : bool => if b then 1 else 0)) a
  = (fun r => (fun c => Z.b2z (mask_at a r c)) <$> seqZ 0 cols) <$> seqZ 0 rows.
Proof.
  intros [Hr Hc]. apply list_eq. intros i.
  change (map (map (fun b : bool => if b then 1 else 0)) a)
    with (map (fun b : bool => if b then 1 else 0) <$> a).
  rewrite !list_lookup_fmap.
  destruct (a !! i) as [row|] eqn:Hrow.
  - assert (Hi : (i < length a)%nat) by (apply lookup_lt_is_Some; eauto).
    rewrite (lookup_seqZ_lt 0 rows i) by lia. simpl. f_equal.
    assert (Hlen : Z.of_nat (length row) = cols).
    { rewrite Forall_lookup in Hc. exact (Hc i row Hrow). }
    apply list_eq. intros j.
    change (map (fun b : bool => if b then 1 else 0) row)
      with ((fun b : bool => if b then 1 else 0) <$> row).
    rewrite !list_lookup_fmap.
    destruct (row !! j) as [b|] eqn:Hb.
    + assert (Hj : (j < length row)%nat) by (apply lookup_lt_is_Some; eauto).
      rewrite (lookup_seqZ_lt 0 cols j) by lia. simpl. f_equal.
      unfold mask_at, cell.
      destruct (Z.leb_spec 0 (0 + Z.of_nat i)); [|lia].
      destruct (Z.leb_spec 0 (0 + Z.of_nat j)); [|lia]. simpl.
      replace (Z.to_nat (0 + Z.of_nat i)) with i by lia.
      replace (Z.to_nat (0 + Z.of_nat j)) with j by lia.
      rewrite Hrow. simpl. rewrite Hb. destruct b; reflexivity.
    + apply lookup_ge_None in Hb.
      rewrite (lookup_seqZ_ge 0 cols j) by lia. reflexivity.
  - apply lookup_ge_None in Hrow.
    rewrite (lookup_seqZ_ge 0 rows i) by lia. reflexivity.
Qed.

(** X14: the perimeter [update] computes from the mask of ignited cells
    (pad with zeros, sum the absolute differences along both axes) is the
    number of cell sides that have an ignited cell on one side and a cell
    that is not ignited, or the edge of the map, on the other. *)
Theorem perimeter_counts_exposed_sides (is_ignited : list (list bool)) (rows cols : Z) :
  has_shape is_ignited rows cols ->
  visualizer.perimeter_segments is_ignited
  = sum_over (seqZ 0 rows) (fun r => sum_over (seqZ 0 cols) (fun c =>
      if mask_at is_ignited r c then exposed_sides is_ignited r c else 0)).
Proof.
  intros Hs. destruct (Z.lt_ge_cases 0 rows) as [Hrows|Hrows].
  - assert (Hcols : 0 <= cols).
    { destruct Hs as [Hlen Hall]. destruct is_ignited as [|row a]; [simpl in Hlen; lia|].
      apply Forall_cons in Hall as [<- _]. lia. }
    unfold visualizer.perimeter_segments. rewrite (mask_as_grid _ rows cols Hs).
    set (g := fun r c => Z.b2z (mask_at is_ignited r c)).
    assert (Hbit : forall r c, g r c = 0 \/ g r c = 1).
    { intros r c. unfold g. destruct (mask_at is_ignited r c); simpl; lia. }
    assert (Hout : forall r c, ~ (0 <= r < rows /\ 0 <= c < cols) -> g r c = 0).
    { intros r c H. unfold g. rewrite (mask_at_outside _ rows cols r c Hs H). reflexivity. }
    change ((fun r => (fun c => Z.b2z (mask_at is_ignited r c)) <$> seqZ 0 cols) <$> seqZ 0 rows)
      with ((fun r => g r <$> seqZ 0 cols) <$> seqZ 0 rows).
    rewrite (grid_jumps_in_columns g rows cols Hbit Hout Hrows Hcols).
    rewrite (grid_jumps_in_rows g rows cols Hbit Hout Hrows Hcols).
    rewrite <- sum_over_add. apply sum_over_ext. intros r _.
    rewrite <- sum_over_add. apply sum_over_ext. intros c _.
    unfold exposed_sides, g.
    destruct (mask_at is_ignited r c), (mask_at is_ignited (r - 1) c),
      (mask_at is_ignited (r + 1) c),
      (mask_at is_ignited r (c - 1)), (mask_at is_ignited r (c + 1)); reflexivity.
  - destruct Hs as [Hlen _]. destruct is_ignited as [|row a]; [|simpl in Hlen; lia].
    rewrite seqZ_nil by lia. reflexivity.
Qed.

Lemma perimeter_counts_exposed_sides_witness :
  visualizer.perimeter_segments [[true; false]; [true; true]]
  = sum_over (seqZ 0 2) (fun r => sum_over (seqZ 0 2) (fun c =>
      if mask_at [[true; false]; [true; true]] r c
      then exposed_sides [[true; false]; [true; true]] r c else 0)).
Proof.
  apply (perimeter_counts_exposed_sides [[true; false]; [true; true]] 2 2).
  split; [reflexivity|]. repeat constructor.
Defined.

(** ** The ignition of [main] *)

Section MainIgnition.

Context {G : Type}.
Variable R : Generator G.
Variable L : Libm.
Variables (elevation_map : list (list Q)) (fuel_map : list (list Z)).
Variable model : FireModel.
Hypothesis HR : GeneratorSpec R.
Hypothesis Hwf : wf_model model.
Hypothesis Hfuel : fuel model = fuel_map.
Hypothesis Helev : has_shape elevation_map (rows model) (cols model).

(** The cells the loop draws from. *)
Definition in_window (rows cols r c : Z) : Prop :=
  rows / 4 <= r < rows / 2 /\ cols / 3 <= c < 2 * cols / 3.

Lemma window_in_bounds r c :
  in_window (rows model) (cols model) r c -> in_bounds model r c = true.
Proof.
  unfold in_window. intros [Hr Hc]. apply in_bounds_spec.
  pose proof (wf_rows _ Hwf). pose proof (wf_cols _ Hwf).
  revert Hr Hc. Z.div_mod_to_equations. lia.
Qed.

Lemma attempts_S (rows cols : Z) (n : nat) (g : G) :
  main.attempts R elevation_map fuel_map rows cols model (S n) g
  = ('(r, g) ← np_random_randint R (rows / 4) (rows / 2) g;
     '(c, g) ← np_random_randint R (cols / 3) (2 * cols / 3) g;
     f ← getitem fuel_map r c;
     if (f =? 1) || (f =? 2) then
       _ ← getitem fuel_map r c;
       _ ← getitem elevation_map r c;
       model' ← ignite model r c (Finite 0);
       Ok (Some model', g)
     else main.attempts R elevation_map fuel_map rows cols model n g).
Proof. reflexivity. Qed.

Lemma attempts_spec (n : nat) (g : G) :
  2 <= rows model -> 2 <= cols model ->
  exists found g',
    main.attempts R elevation_map fuel_map (rows model) (cols model) model n g
    = Ok (found, g')
    /\ match found with
       | Some model' =>
           exists r c, in_window (rows model) (cols model) r c
             /\ (cell fuel_map r c = Some 1 \/ cell fuel_map r c = Some 2)
             /\ model' = seeded model r c
       | None => True
       end.
Proof.
  intros Hrows Hcols. revert g. induction n as [|n IH]; intros g.
  - exists None, g. split; [reflexivity | exact I].
  - rewrite attempts_S. unfold np_random_randint.
    assert (Hr : rows model / 4 < rows model / 2) by (Z.div_mod_to_equations; lia).
    assert (Hc : cols model / 3 < 2 * cols model / 3) by (Z.div_mod_to_equations; lia).
    destruct (Z.ltb_spec (rows model / 4) (rows model / 2)); [|lia].
    pose proof (gen_randint_range R HR _ _ g Hr) as Hrr.
    destruct (gen_randint R (rows model / 4) (rows model / 2) g) as [r g1].
    bind_step. simpl in Hrr.
    destruct (Z.ltb_spec (cols model / 3) (2 * cols model / 3)); [|lia].
    pose proof (gen_randint_range R HR _ _ g1 Hc) as Hcc.
    destruct (gen_randint R (cols model / 3) (2 * cols model / 3) g1) as [c g2].
    bind_step. simpl in Hcc.
    assert (Hwin : in_window (rows model) (cols model) r c) by (split; assumption).
    pose proof (window_in_bounds r c Hwin) as Hb.
    pose proof Hb as Hb'. apply in_bounds_spec in Hb'.
    destruct (in_bounds_cell model (fuel model) r c (wf_fuel _ Hwf) Hb) as [f Hf].
    rewrite Hfuel in Hf.
    destruct (in_bounds_cell model elevation_map r c Helev Hb) as [z Hz].
    rewrite !(getitem_cell fuel_map r c) by lia. rewrite Hf. bind_step.
    destruct ((f =? 1) || (f =? 2)) eqn:Hburn; [|apply IH].
    bind_step. rewrite (getitem_cell elevation_map r c) by lia. rewrite Hz. bind_step.
    destruct (ignite_result model r c (Finite 0) Hwf) as [(_ & _ & Hig) | ([Hout | Hw] & _)].
    + rewrite Hig. bind_step. eexists _, _. split; [reflexivity|].
      exists r, c. split; [exact Hwin|]. split; [|reflexivity].
      apply orb_true_iff in Hburn as [H1 | H2]; [left | right].
      * apply Z.eqb_eq in H1. congruence.
      * apply Z.eqb_eq in H2. congruence.
    + congruence.
    + rewrite Hfuel in Hw. rewrite Hf in Hw. injection Hw as ->. discriminate Hburn.
Qed.

End MainIgnition.

Lemma seeded_wf (self : FireModel) (r c : Z) : wf_model self -> wf_model (seeded self r c).
Proof.
  intros Hwf. destruct Hwf. split; simpl; try assumption.
  apply update_shape. assumption.
Qed.

Lemma init_shape (L : Libm) (elevation_map : list (list Q)) (fuel_map : list (list Z))
    (ws wd cs : Q) :
  rows (__init__ L elevation_map fuel_map ws wd cs) = (shape elevation_map).1
  /\ cols (__init__ L elevation_map fuel_map ws wd cs) = (shape elevation_map).2
  /\ fuel (__init__ L elevation_map fuel_map ws wd cs) = fuel_map
  /\ wind_speed (__init__ L elevation_map fuel_map ws wd cs) = ws.
Proof. repeat split. Qed.

(** The ignition of [main] returns a well-formed object in the same wind. *)
Lemma ignition_returns {G} (R : Generator G) (L : Libm)
    (elevation_map : list (list Q)) (fuel_map : list (list Z)) (ws wd cs : Q) (g : G) :
  GeneratorSpec R -> same_shape elevation_map fuel_map ->
  2 <= (shape elevation_map).1 -> 2 <= (shape elevation_map).2 ->
  exists model' g',
    main.ignition R elevation_map fuel_map (__init__ L elevation_map fuel_map ws wd cs) g
    = Ok (model', g')
    /\ wf_model model' /\ wind_speed model' = ws
    /\ rows model' = (shape elevation_map).1 /\ cols model' = (shape elevation_map).2
    /\ cell_size model' = cs
    /\ ((exists r c, in_bounds model' r c = true
           /\ model' = seeded (__init__ L elevation_map fuel_map ws wd cs) r c)
        \/ (cell fuel_map ((shape elevation_map).1 / 2) ((shape elevation_map).2 / 2) = Some 3
            /\ model' = __init__ L elevation_map fuel_map ws wd cs)).
Proof.
  intros HR Hshape Hrows Hcols.
  set (model := __init__ L elevation_map fuel_map ws wd cs).
  pose proof (init_wf L elevation_map fuel_map ws wd cs Hshape) as Hwf. fold model in Hwf.
  destruct (init_shape L elevation_map fuel_map ws wd cs) as (Er & Ec & Ef & Ew).
  assert (Ecs : cell_size model = cs) by reflexivity.
  fold model in Er, Ec, Ef, Ew. clearbody model.
  assert (Helev : has_shape elevation_map (rows model) (cols model)).
  { rewrite Er, Ec. exact (proj1 Hshape). }
  unfold main.ignition. destruct (shape elevation_map) as [rws cls] eqn:Hsh.
  cbn [fst snd] in Er, Ec, Hrows, Hcols |- *.
  destruct (attempts_spec R elevation_map fuel_map model HR Hwf Ef Helev 100 g)
    as (found & g' & Hatt & Hfound); [lia | lia|].
  rewrite Er, Ec in Hatt. rewrite Hatt. bind_step.
  destruct found as [model'|].
  - exists model', g'. split; [reflexivity|].
    destruct Hfound as (r & c & Hwin & _ & ->).
    split; [apply seeded_wf; exact Hwf|]. simpl. repeat (split; [assumption|]).
    left. exists r, c. split; [|reflexivity].
    apply (window_in_bounds model Hwf r c Hwin).
  - destruct (ignite_result model (rws / 2) (cls / 2) (Finite 0) Hwf)
      as [(Hb & _ & Hig) | ([Hout | Hw] & Hig)]; rewrite Hig; bind_step;
      eexists _, _; (split; [reflexivity|]).
    + split; [apply seeded_wf; exact Hwf|]. simpl. repeat (split; [assumption|]).
      left. exists (rws / 2), (cls / 2). split; [exact Hb | reflexivity].
    + exfalso. apply not_true_iff_false in Hout. apply Hout. apply in_bounds_spec.
      rewrite Er, Ec. split; Z.div_mod_to_equations; lia.
    + repeat (split; [assumption|]). right. rewrite Ef in Hw. split; [exact Hw | reflexivity].
Qed.

(** X15: on a map of at least two rows and two columns the ignition of
    [main] does not raise and seeds at most one cell, at time 0: a Grass or
    Forest cell of the window [rows//4 <= r < rows//2],
    [cols//3 <= c < 2*cols//3], or else the centre cell
    [(rows//2, cols//2)] unless it is Water, in which case nothing is
    seeded. *)
Theorem main_ignition_seed {G} (R : Generator G) (L : Libm)
    (elevation_map : list (list Q)) (fuel_map : list (list Z)) (ws wd cs : Q) (g : G) :
  GeneratorSpec R -> same_shape elevation_map fuel_map ->
  2 <= (shape elevation_map).1 -> 2 <= (shape elevation_map).2 ->
  let model := __init__ L elevation_map fuel_map ws wd cs in
  let rows := (shape elevation_map).1 in
  let cols := (shape elevation_map).2 in
  exists model' g',
    main.ignition R elevation_map fuel_map model g = Ok (model', g')
    /\ ((exists r c, in_window rows cols r c
           /\ (cell fuel_map r c = Some 1 \/ cell fuel_map r c = Some 2)
           /\ model' = seeded model r c)
        \/ (cell fuel_map (rows / 2) (cols / 2) <> Some 3
            /\ model' = seeded model (rows / 2) (cols / 2))
        \/ (cell fuel_map (rows / 2) (cols / 2) = Some 3 /\ model' = model)).
Proof.
  intros HR Hshape Hrows Hcols model rows0 cols0.
  pose proof (init_wf L elevation_map fuel_map ws wd cs Hshape) as Hwf. fold model in Hwf.
  destruct (init_shape L elevation_map fuel_map ws wd cs) as (Er & Ec & Ef & _).
  fold model in Er, Ec, Ef. clearbody model.
  assert (Helev : has_shape elevation_map (rows model) (cols model)).
  { rewrite Er, Ec. exact (proj1 Hshape). }
  unfold main.ignition. subst rows0 cols0.
  destruct (shape elevation_map) as [rws cls] eqn:Hsh.
  cbn [fst snd] in *.
  destruct (attempts_spec R elevation_map fuel_map model HR Hwf Ef Helev 100 g)
    as (found & g' & Hatt & Hfound); [lia | lia|].
  rewrite Er, Ec in Hatt. rewrite Hatt. bind_step.
  destruct found as [model'|].
  - exists model', g'. split; [reflexivity|]. left.
    rewrite Er, Ec in Hfound. exact Hfound.
  - destruct (ignite_result model (rws / 2) (cls / 2) (Finite 0) Hwf)
      as [(_ & Hne & Hig) | ([Hout | Hw] & Hig)]; rewrite Hig; bind_step;
      eexists _, _; (split; [reflexivity|]); right.
    + left. rewrite Ef in Hne. split; [exact Hne | reflexivity].
    + exfalso. apply not_true_iff_false in Hout. apply Hout. apply in_bounds_spec.
      rewrite Er, Ec. split; Z.div_mod_to_equations; lia.
    + right. rewrite Ef in Hw. split; [exact Hw | reflexivity].
Qed.

(** A 2 x 2 map of Forest on flat ground. *)
Definition flat_elevation : list (list Q) := [[0; 0]; [0; 0]]%Q.
Definition forest_map : list (list Z) := [[2; 2]; [2; 2]].

Lemma forest_map_shape : same_shape flat_elevation forest_map.
Proof. split; (split; [reflexivity | repeat constructor]). Qed.

Lemma main_ignition_seed_witness :
  let model := __init__ rational_libm flat_elevation forest_map 20 0 30 in
  exists model' g',
    main.ignition scripted flat_elevation forest_map model [] = Ok (model', g')
    /\ ((exists r c, in_window 2 2 r c
           /\ (cell forest_map r c = Some 1 \/ cell forest_map r c = Some 2)
           /\ model' = seeded model r c)
        \/ (cell forest_map (2 / 2) (2 / 2) <> Some 3
            /\ model' = seeded model (2 / 2) (2 / 2))
        \/ (cell forest_map (2 / 2) (2 / 2) = Some 3 /\ model' = model)).
Proof.
  apply (main_ignition_seed scripted rational_libm flat_elevation forest_map 20 0 30 []).
  - exact scripted_spec.
  - exact forest_map_shape.
  - simpl. lia.
  - simpl. lia.
Defined.

(** X16: for maps with at least one row and one column, lines 36-66 of
    [main] raise [ValueError] (from [np.random.randint] on an empty
    window) when the map has a single row or a single column, and on
    every larger map they return a field of the shape of the map, with a
    wind direction in [0, 360): the wind of 20 m/s is outside the range in
    which [run_simulation] raises. *)
Theorem main_needs_two_rows_and_columns {G} (R : Generator G) (L : Libm)
    (elevation_map : list (list Q)) (fuel_map : list (list Z)) (cell_size : Q) (g : G) :
  GeneratorSpec R -> same_shape elevation_map fuel_map ->
  1 <= (shape elevation_map).1 -> 1 <= (shape elevation_map).2 ->
  if ((shape elevation_map).1 <? 2) || ((shape elevation_map).2 <? 2) then
    main.main R L elevation_map fuel_map cell_size g = Some (Raise ValueError)
  else
    exists ignition_times wind_dir g',
      main.main R L elevation_map fuel_map cell_size g
      = Some (Ok (ignition_times, wind_dir, g'))
      /\ 0 <= wind_dir < 360
      /\ has_shape ignition_times (shape elevation_map).1 (shape elevation_map).2.
Proof.
  intros HR Hshape Hrows Hcols.
  unfold main.main, main.setup, np_random_randint.
  change (0 <? 360) with true. cbv iota.
  assert (Hwd : 0 < 360) by lia.
  pose proof (gen_randint_range R HR 0 360 g Hwd) as Hrange.
  destruct (gen_randint R 0 360 g) as [wd g1]. cbn [fst] in Hrange. bind_step.
  pose proof (ignition_returns R L elevation_map fuel_map 20.0 (inject_Z wd) cell_size g1
                HR Hshape) as Hret.
  unfold main.ignition in *. destruct (shape elevation_map) as [rws cls].
  cbn [fst snd] in *.
  destruct (Z.ltb_spec rws 2) as [Hr|Hr]; cbn [orb].
  - rewrite attempts_S. unfold np_random_randint.
    destruct (Z.ltb_spec (rws / 4) (rws / 2)) as [Hlt|_]; [|reflexivity].
    exfalso. revert Hlt. Z.div_mod_to_equations. lia.
  - destruct (Z.ltb_spec cls 2) as [Hc|Hc].
    + rewrite attempts_S. unfold np_random_randint.
      destruct (rws / 4 <? rws / 2); [|reflexivity].
      destruct (gen_randint R (rws / 4) (rws / 2) g1) as [r g2]. bind_step.
      destruct (Z.ltb_spec (cls / 3) (2 * cls / 3)) as [Hlt|_]; [|reflexivity].
      exfalso. revert Hlt. Z.div_mod_to_equations. lia.
    + destruct (Hret Hr Hc) as (model & g2 & Hig & Hwf & Hws & Er & Ec & _).
      rewrite Hig.
      assert (Hsafe : spotting_safe model) by (right; rewrite Hws; discriminate).
      destruct (run_loop_returns R L model (Finite (inject_Z (14 * 24 * 60))) Hwf Hsafe g2)
        as [st Hrun].
      bind_step. cbv beta iota zeta. unfold run_simulation. rewrite Hrun.
      exists (ls_ignition_time st), wd, (ls_rng st).
      split; [reflexivity|]. split; [exact Hrange|].
      destruct (run_loop_steps R L model _ g2 st Hrun) as (st0 & ctl & Hs0 & Hsteps & _).
      pose proof (start_state_basic model Hwf g2 st0 Hs0) as Hb0.
      pose proof (steps_basic R L model _ st0 ctl st Hb0 Hsteps) as Hb.
      rewrite <- Er, <- Ec. exact (bi_ignition_time _ _ Hb).
Qed.

Lemma main_needs_two_rows_and_columns_witness :
  exists ignition_times wind_dir g',
    main.main scripted rational_libm flat_elevation forest_map 30 [0.25%Q]
    = Some (Ok (ignition_times, wind_dir, g'))
    /\ 0 <= wind_dir < 360
    /\ has_shape ignition_times 2 2.
Proof.
  apply (main_needs_two_rows_and_columns scripted rational_libm flat_elevation forest_map
           30 [0.25%Q]).
  - exact scripted_spec.
  - exact forest_map_shape.
  - simpl. lia.
  - simpl. lia.
Defined.

(** ** From the ignition of [main] to the frames of the animation *)

Section FromZero.

Context {G : Type}.
Variable R : Generator G.
Variable L : Libm.
Variable self : FireModel.
Variable max_time : time.
Hypothesis Hwf : wf_model self.
Hypothesis Hcell : (0 < cell_size self)%Q.
Hypothesis HR : GeneratorSpec R.

(** No time of the field and no pending event lies before time 0. *)
Definition from_zero (acc : list (list time) * list event) : Prop :=
  (forall r c t, 0 <= r -> 0 <= c -> cell acc.1 r c = Some (Finite t) -> (0 <= t)%Q)
  /\ (forall e, e ∈ acc.2 -> time_le (Finite 0) (ev_time e)).

Lemma from_zero_updates (K : event -> Prop) acc acc' :
  (forall x, K x -> time_le (Finite 0) (ev_time x)) ->
  updates self K acc acc' -> from_zero acc -> from_zero acc'.
Proof.
  intros HK. apply (updates_preserve self K from_zero).
  intros ign pq x old [Hign Hpq] Hx Hb Hold _. apply in_bounds_spec in Hb.
  specialize (HK x Hx). split; simpl.
  - intros r c t Hr Hc Ht.
    destruct (decide ((ev_row x, ev_col x) = (r, c))) as [Heq|Hne].
    + inversion Heq; subst r c.
      rewrite cell_update_same in Ht by (rewrite Hold; eauto).
      injection Ht as Ht. rewrite Ht in HK. exact HK.
    + rewrite cell_update_other in Ht by (try lia; exact Hne).
      exact (Hign r c t Hr Hc Ht).
  - intros e He. apply elem_of_cons in He as [->|He]; [exact HK | exact (Hpq e He)].
Qed.

Lemma from_zero_step (st : loop_state G) ctl st' :
  basic_inv self st -> from_zero (ls_ignition_time st, ls_pq st) ->
  body_case R L self max_time st ctl st' ->
  from_zero (ls_ignition_time st', ls_pq st').
Proof.
  intros Hb [Hign Hpq] Hcase.
  assert (Hrest : forall e pq1, heappop (ls_pq st) = Ok (e, pq1) ->
            time_le (Finite 0) (ev_time e)
            /\ from_zero (ls_ignition_time st, pq1)).
  { intros e pq1 Hpop. apply heappop_spec in Hpop as [Hperm _]. split.
    - apply Hpq. rewrite Hperm. left.
    - split; [exact Hign|]. intros x Hx. apply Hpq. rewrite Hperm. right. exact Hx. }
  destruct Hcase as [e pq1 Hpop Hmax | e pq1 Hpop Hmax Hvis
                    | e pq1 elev0 ign1 pq2 ign' pq' g' Hpop Hmax Hvis Hel Hfold Hem];
    simpl; try exact (proj2 (Hrest e pq1 Hpop)).
  destruct (Hrest e pq1 Hpop) as [He Hfz].
  destruct (heappop_in_bounds self _ _ _ (bi_pq _ _ Hb) Hpop) as [Heb _].
  pose proof (settle_updates R L self st e pq1 elev0 ign1 pq2 ign' pq' g' Heb Hel Hfold Hem)
    as Hu.
  refine (from_zero_updates _ _ _ _ Hu Hfz).
  intros x Hx.
  destruct (pushed_event_later R L self Hwf Hcell HR _ e x Hx) as (d & Hd & ->).
  destruct (ev_time e) as [t0|]; simpl in *; [lra | exact I].
Qed.

(** A run from a field without negative times returns one: no time it
    writes lies before time 0, and a cell that held a time keeps one. *)
Lemma run_from_zero (g : G) (st : loop_state G) (r0 c0 : Z) (t0 : Q) :
  (forall r c t, 0 <= r -> 0 <= c ->
     cell (ignition_time self) r c = Some (Finite t) -> (0 <= t)%Q) ->
  in_bounds self r0 c0 = true ->
  cell (ignition_time self) r0 c0 = Some (Finite t0) ->
  run_loop R L self max_time g = Some (Ok st) ->
  (exists t, cell (ls_ignition_time st) r0 c0 = Some (Finite t))
  /\ forall r c t, 0 <= r -> 0 <= c ->
       cell (ls_ignition_time st) r c = Some (Finite t) -> (0 <= t)%Q.
Proof.
  intros Hsign Hb0 Hseed Hrun.
  destruct (run_loop_steps R L self max_time g st Hrun) as (st0 & ctl & Hs0 & Hsteps & _).
  pose proof (start_state_basic self Hwf g st0 Hs0) as Hbasic.
  destruct (start_state_spec self g) as (pq & Hst & Hmem). rewrite Hst in Hs0.
  inversion Hs0; subst st0. clear Hs0. apply in_bounds_spec in Hb0.
  split.
  - assert (Hle : exists t, cell (ls_ignition_time st) r0 c0 = Some t
                    /\ time_le t (Finite t0)).
    { refine (steps_invariant R L self max_time
                (fun s => exists t, cell (ls_ignition_time s) r0 c0 = Some t
                                    /\ time_le t (Finite t0))
                _ Hbasic _ _ ctl st Hsteps).
      - simpl. exists (Finite t0). split; [exact Hseed | apply time_le_refl].
      - intros s c1 s' Hbs Hs Hcase.
        destruct Hcase as [e pq1 Hpop Hmax | e pq1 Hpop Hmax Hvis
                          | e pq1 elev0 ign1 pq2 ign' pq' g' Hpop Hmax Hvis Hel Hfold Hem];
          simpl; try exact Hs.
        destruct (heappop_in_bounds self _ _ _ (bi_pq _ _ Hbs) Hpop) as [Heb _].
        pose proof (settle_updates R L self s e pq1 elev0 ign1 pq2 ign' pq' g'
                      Heb Hel Hfold Hem) as Hu.
        apply (updates_bound self _ _ _ r0 c0 (Finite t0) Hu); try lia. exact Hs. }
    destruct Hle as ([t|] & Ht & Hle); [eauto | contradiction].
  - refine (proj1 (steps_invariant R L self max_time
                     (fun s => from_zero (ls_ignition_time s, ls_pq s))
                     _ Hbasic _ _ ctl st Hsteps)).
    + split; simpl; [exact Hsign|]. intros e He. apply Hmem in He as (Hr & Hc & He & _).
      destruct (ev_time e) as [t|] eqn:Et; [|exact I]. simpl.
      exact (Hsign _ _ t Hr Hc He).
    + intros s c1 s' Hbs Hs Hcase. exact (from_zero_step s c1 s' Hbs Hs Hcase).
Qed.

End FromZero.

Lemma finite_entries_cell (a : list (list time)) (q : Q) :
  q ∈ visualizer.finite_entries a <->
  exists r c, 0 <= r /\ 0 <= c /\ cell a r c = Some (Finite q).
Proof.
  unfold visualizer.finite_entries. rewrite list_elem_of_bind. split.
  - intros (t & Hq & Ht). destruct t as [q'|]; [|apply elem_of_nil in Hq; contradiction].
    apply list_elem_of_singleton in Hq as ->.
    apply list_elem_of_In, in_concat in Ht as (row & Hrow & Hq).
    apply list_elem_of_In in Hrow, Hq.
    apply list_elem_of_lookup in Hrow as [i Hi]. apply list_elem_of_lookup in Hq as [j Hj].
    exists (Z.of_nat i), (Z.of_nat j). split; [lia|]. split; [lia|].
    unfold cell. rewrite !Nat2Z.id, Hi. exact Hj.
  - intros (r & c & _ & _ & Hc). unfold cell in Hc.
    destruct (a !! Z.to_nat r) as [row|] eqn:Hrow; simpl in Hc; [|discriminate].
    exists (Finite q). split; [left|].
    apply list_elem_of_In, in_concat. exists row.
    split; apply list_elem_of_In, list_elem_of_lookup; eauto.
Qed.

Lemma np_max_nonneg (l : list Q) :
  l <> [] -> (forall x, x ∈ l -> (0 <= x)%Q) ->
  exists m, np_max l = Ok m /\ (0 <= m)%Q.
Proof.
  destruct l as [|x l]; [congruence|]. intros _ Hall. simpl.
  eexists. split; [reflexivity|].
  assert (Hx : (0 <= x)%Q) by (apply Hall; left).
  assert (Hl : forall y, y ∈ l -> (0 <= y)%Q) by (intros y Hy; apply Hall; right; exact Hy).
  clear Hall. revert x Hx. induction l as [|y l IH]; intros x Hx; simpl; [exact Hx|].
  apply IH.
  - intros z Hz. apply Hl. right. exact Hz.
  - destruct (Qltb x y); [apply Hl; left | exact Hx].
Qed.

Lemma seeded_init_field (L : Libm) (elevation_map : list (list Q))
    (fuel_map : list (list Z)) (ws wd cs : Q) (r c : Z) :
  0 <= r < (shape elevation_map).1 -> 0 <= c < (shape elevation_map).2 ->
  let field := ignition_time (seeded (__init__ L elevation_map fuel_map ws wd cs) r c) in
  cell field r c = Some (Finite 0)
  /\ forall r' c' t, 0 <= r' -> 0 <= c' -> cell field r' c' = Some (Finite t) -> t = 0%Q.
Proof.
  intros Hr Hc.
  assert (E : ignition_time (__init__ L elevation_map fuel_map ws wd cs)
              = np_full (shape elevation_map).1 (shape elevation_map).2 Infinity).
  { unfold __init__. destruct (shape elevation_map). reflexivity. }
  unfold seeded. cbn [ignition_time set_ignition_time]. rewrite E.
  set (rows := (shape elevation_map).1) in *. set (cols := (shape elevation_map).2) in *.
  assert (Hfull : has_shape (np_full rows cols Infinity) rows cols)
    by (apply np_full_shape; lia).
  assert (Hsome : is_Some (cell (np_full rows cols Infinity) r c)).
  { apply (cell_is_Some _ rows cols r c Hfull); lia. }
  split; [apply cell_update_same; exact Hsome|].
  intros r' c' t Hr' Hc' Ht.
  destruct (decide ((r, c) = (r', c'))) as [Heq|Hne].
  - inversion Heq; subst r' c'. rewrite cell_update_same in Ht by exact Hsome.
    congruence.
  - rewrite cell_update_other in Ht by (try lia; exact Hne).
    apply cell_np_full in Ht. discriminate Ht.
Qed.

(** The frames [main] asks for: every six hours, over fourteen days at
    most. *)
Lemma six_hour_frames (ignition_times : list (list time)) (frames : Z) :
  visualizer.finite_entries ignition_times <> [] ->
  (forall x, x ∈ visualizer.finite_entries ignition_times -> (0 <= x)%Q) ->
  exists n, 1 <= n <= 57
    /\ visualizer.time_steps ignition_times frames (Some 6%Q) (Some 336%Q)
       = Ok ((fun i => (0 + inject_Z i * (6 * 60))%Q) <$> seqZ 0 n).
Proof.
  intros Hne Hall. destruct (np_max_nonneg _ Hne Hall) as (m & Hmax & Hm).
  unfold visualizer.time_steps, visualizer.max_time. rewrite Hmax. bind_step.
  change (visualizer.truthy (Some 336%Q)) with (Some 336%Q).
  change (visualizer.truthy (Some 6%Q)) with (Some 6%Q). cbv beta iota. bind_step.
  set (m' := if Qeq_bool m 0 then 1.0%Q else m).
  assert (Hm' : (0 <= m')%Q) by (unfold m'; destruct (Qeq_bool m 0); [discriminate | exact Hm]).
  set (M := py_min m' (336 * 60.0)).
  assert (HM : (0 <= M <= 20160)%Q).
  { unfold M, py_min. destruct (Qltb (336 * 60.0) m') eqn:E.
    - split; [discriminate | unfold Qle; simpl; lia].
    - apply Qltb_ge in E. split; [exact Hm'|].
      eapply Qle_trans; [exact E|]. unfold Qle. simpl. lia. }
  assert (Hstep : (0.1 <= 6 * 60)%Q) by discriminate.
  destruct (arange_trimmed M (6 * 60) (proj1 HM) Hstep) as (last & Hlast & Htrim).
  rewrite Hlast. bind_step. rewrite Htrim.
  exists (Qfloor (M / (6 * 60)) + 1). split; [|reflexivity].
  assert (H0 : 0 <= Qfloor (M / (6 * 60))).
  { apply Qfloor_ge. change (inject_Z 0) with 0%Q. apply Qle_shift_div_l; [reflexivity|].
    destruct HM as [HM0 _]. lra. }
  assert (H1 : Qfloor (M / (6 * 60)) < 57).
  { apply Qfloor_lt. apply Qlt_shift_div_r; [reflexivity|].
    destruct HM as [_ HM1]. change (inject_Z 57) with 57%Q. lra. }
  lia.
Qed.

(** X19: on maps of one shape with at least two rows and two columns
    whose centre cell is not Water, with a positive cell size, the field
    of [main] always gives [create_animation] its frames: between 1 and 57
    of them, at the multiples of six hours from 0 (at most fourteen
    days). *)
Theorem main_field_has_frames {G} (R : Generator G) (L : Libm)
    (elevation_map : list (list Q)) (fuel_map : list (list Z)) (cs : Q)
    (frames : Z) (g : G) :
  GeneratorSpec R -> same_shape elevation_map fuel_map ->
  2 <= (shape elevation_map).1 -> 2 <= (shape elevation_map).2 ->
  (0 < cs)%Q ->
  cell fuel_map ((shape elevation_map).1 / 2) ((shape elevation_map).2 / 2) <> Some 3 ->
  exists ignition_times wind_dir g' n,
    main.main R L elevation_map fuel_map cs g
    = Some (Ok (ignition_times, wind_dir, g'))
    /\ 1 <= n <= 57
    /\ visualizer.time_steps ignition_times frames (Some 6%Q) (Some 336%Q)
       = Ok ((fun i => (0 + inject_Z i * (6 * 60))%Q) <$> seqZ 0 n).
Proof.
  intros HR Hshape Hrows Hcols Hcs Hcentre.
  unfold main.main, main.setup, np_random_randint.
  change (0 <? 360) with true. cbv iota.
  destruct (gen_randint R 0 360 g) as [wd g1]. bind_step.
  destruct (ignition_returns R L elevation_map fuel_map 20.0 (inject_Z wd) cs g1
              HR Hshape Hrows Hcols)
    as (model & g2 & Hig & Hwf & Hws & Er & Ec & Ecs & Hseed).
  rewrite Hig. bind_step. cbv beta iota zeta.
  assert (Hsafe : spotting_safe model) by (right; rewrite Hws; discriminate).
  destruct (run_loop_returns R L model (Finite (inject_Z (14 * 24 * 60))) Hwf Hsafe g2)
    as [st Hrun].
  unfold run_simulation. rewrite Hrun.
  destruct Hseed as [(r & c & Hb & Hmodel) | [Hw _]]; [|contradiction].
  pose proof Hb as Hb'. apply in_bounds_spec in Hb'. rewrite Er, Ec in Hb'.
  destruct (seeded_init_field L elevation_map fuel_map 20.0 (inject_Z wd) cs r c
              (proj1 Hb') (proj2 Hb')) as [Hseed0 Hzero].
  rewrite <- Hmodel in Hseed0, Hzero.
  assert (Hfield : forall r' c' t, 0 <= r' -> 0 <= c' ->
            cell (ignition_time model) r' c' = Some (Finite t) -> (0 <= t)%Q).
  { intros r' c' t Hr' Hc' Ht. rewrite (Hzero r' c' t Hr' Hc' Ht). apply Qle_refl. }
  assert (Hcs' : (0 < cell_size model)%Q) by (rewrite Ecs; exact Hcs).
  destruct (run_from_zero R L model (Finite (inject_Z (14 * 24 * 60))) Hwf Hcs' HR g2 st
              r c 0 Hfield Hb Hseed0 Hrun) as [[t Ht] Hsign].
  destruct (six_hour_frames (ls_ignition_time st) frames) as (n & Hn & Hsteps).
  - intros Hnil.
    assert (Hin : t ∈ visualizer.finite_entries (ls_ignition_time st)).
    { apply finite_entries_cell. apply in_bounds_spec in Hb. exists r, c.
      split; [lia|]. split; [lia | exact Ht]. }
    rewrite Hnil in Hin. apply elem_of_nil in Hin. exact Hin.
  - intros x Hx. apply finite_entries_cell in Hx as (r' & c' & Hr' & Hc' & Hx).
    exact (Hsign r' c' x Hr' Hc' Hx).
  - exists (ls_ignition_time st), wd, (ls_rng st), n.
    split; [reflexivity|]. split; [exact Hn | exact Hsteps].
Qed.

Lemma main_field_has_frames_witness :
  exists ignition_times wind_dir g' n,
    main.main scripted rational_libm flat_elevation forest_map 30 [0.25%Q]
    = Some (Ok (ignition_times, wind_dir, g'))
    /\ 1 <= n <= 57
    /\ visualizer.time_steps ignition_times 60 (Some 6%Q) (Some 336%Q)
       = Ok ((fun i => (0 + inject_Z i * (6 * 60))%Q) <$> seqZ 0 n).
Proof.
  apply (main_field_has_frames scripted rational_libm flat_elevation forest_map 30 60
           [0.25%Q]).
  - exact scripted_spec.
  - exact forest_map_shape.
  - simpl. lia.
  - simpl. lia.
  - reflexivity.
  - vm_compute. discriminate.
Defined.
